(** * PECS: sparse-set component pools and the entity registry

    A shallow embedding of [PECS.hpp].  The header defines two classes:

    - [SparseSet<T>]: a fixed-capacity pool that maps an entity ID to a
      component of type [T] through a sparse index vector and a dense,
      gap-free entry vector;
    - [ECSInstance]: the registry, which hands out entity IDs and owns one
      pool per component type in an [unordered_map] keyed by [type_index].

    Conventions of the embedding:

    - the header is taken in its default configuration: [PECS_CUSTOM_TYPE]
      is [size_t] and [PECS_ASSERT] is [assert];
    - [EntityID] and [size_t] are 64-bit unsigned integers, modelled as [Z]
      with the wrap-around of [+ 1] and [- 1] written out ([wrap]);
      [unsigned int] is a [Z] below [2^32];
    - a [std::vector] is a [list]; [operator[]] outside the vector and
      [pop_back] on an empty vector are undefined in C++ and are modelled as
      failure ([None]), as are a failing [PECS_ASSERT] (the default hook is
      [assert], which aborts) and a [push_back] past the largest size a
      vector can have;
    - a member function becomes a function from the object to
      [option (result * object)];
    - a returned [T&] is modelled by the value it refers to at return time;
    - the pools of all component types store their values in one carrier
      type [T] (no pool operation inspects a value), and [type_index] is any
      countable key type. *)

From stdpp Require Import numbers option gmap list.

Local Open Scope Z_scope.

(** ** Machine integers and vectors *)

Definition size_t_modulus : Z := 18446744073709551616.
Definition unsigned_int_modulus : Z := 4294967296.

(** Arithmetic on [size_t] is taken modulo [2^64]. *)
Definition wrap (z : Z) : Z := z mod size_t_modulus.

(** [using EntityID = size_t] *)
Abbreviation EntityID := Z.

(** [PECS_ASSERT(cond)]: continue when [cond] holds, abort otherwise. *)
Definition PECS_ASSERT {A : Type} (P : Prop) `{Decision P} (k : option A) : option A :=
  if decide P then k else None.

(** [v.size()] *)
Definition vec_size {A : Type} (v : list A) : Z := Z.of_nat (length v).

(** [v[i]] as an rvalue. *)
Definition vec_at {A : Type} (v : list A) (i : Z) : option A :=
  if decide (0 ≤ i) then v !! Z.to_nat i else None.

(** [v[i] = x] *)
Definition vec_set {A : Type} (v : list A) (i : Z) (x : A) : option (list A) :=
  if decide (0 ≤ i < vec_size v) then Some (<[Z.to_nat i := x]> v) else None.

(** [v.push_back(x)].  [size()] is a [size_t], so no vector holds
    [2^64] elements or more: growing past [max_size()] throws
    [std::length_error], which nothing in the header catches. *)
Definition push_back {A : Type} (v : list A) (x : A) : option (list A) :=
  if decide (vec_size v + 1 < size_t_modulus) then Some (v ++ [x]) else None.

(** [v.pop_back()] *)
Definition pop_back {A : Type} (v : list A) : option (list A) :=
  match v with
  | [] => None
  | _ => Some (take (length v - 1)%nat v)
  end.

(** [v.back()] *)
Definition back {A : Type} (v : list A) : option A := list.last v.

(** ** [SparseSet<T>] *)

Module SparseSet.
Section Defs.
Context {T : Type}.

Record DenseSetEntry : Type := Entry { entity : EntityID; data : T }.

Record t : Type := Make {
  m_MaxEntities : Z;
  m_SparseSet : list EntityID;
  m_DenseSet : list DenseSetEntry
}.

(** The value that marks an entity as absent in [m_SparseSet]:
    [m_MaxEntities - 1], computed in [size_t]. *)
Definition sentinel (s : t) : Z := wrap (m_MaxEntities s - 1).

(** [SparseSet(size_t MaxEntities)] *)
Definition new (MaxEntities : Z) : t :=
  {| m_MaxEntities := MaxEntities;
     m_SparseSet := replicate (Z.to_nat MaxEntities) (wrap (MaxEntities - 1));
     m_DenseSet := [] |}.

(** [bool Has(EntityID entity) const] *)
Definition Has (s : t) (entity : EntityID) : option bool :=
  PECS_ASSERT (entity < m_MaxEntities s) (
    x ← vec_at (m_SparseSet s) entity;
    Some (bool_decide (x ≠ wrap (m_MaxEntities s - 1)))).

(** [T& Get(EntityID entity)] *)
Definition Get (s : t) (entity : EntityID) : option T :=
  PECS_ASSERT (entity < m_MaxEntities s) (
    h ← Has s entity;
    PECS_ASSERT (h = true) (
      i ← vec_at (m_SparseSet s) entity;
      d ← vec_at (m_DenseSet s) i;
      Some (data d))).

(** [T& Add(EntityID entity, Args&&... args)]; [v] is the value
    [T(args...)] built from the arguments. *)
Definition Add (s : t) (entity : EntityID) (v : T) : option (T * t) :=
  PECS_ASSERT (entity < m_MaxEntities s) (
    h ← Has s entity;
    if (h : bool) then
      i ← vec_at (m_SparseSet s) entity;
      d ← vec_at (m_DenseSet s) i;
      Some (data d, s)
    else
      dense ← push_back (m_DenseSet s) (Entry entity v);
      sparse ← vec_set (m_SparseSet s) entity (wrap (vec_size dense - 1));
      d ← back dense;
      Some (data d, {| m_MaxEntities := m_MaxEntities s;
                       m_SparseSet := sparse;
                       m_DenseSet := dense |})).

(** [bool Remove(EntityID entity)]; the parameter is called [target]
    here because [entity] is the field of [DenseSetEntry].  [lastEntry]
    is a reference to the last dense entry: its [entity] field is read
    after the move-assignment, which leaves that integer field as it
    was. *)
Definition Remove (s : t) (target : EntityID) : option (bool * t) :=
  PECS_ASSERT (target < m_MaxEntities s) (
    h ← Has s target;
    if negb (h : bool) then Some (false, s)
    else
      index ← vec_at (m_SparseSet s) target;
      let last := wrap (vec_size (m_DenseSet s) - 1) in
      lastEntry ← vec_at (m_DenseSet s) last;
      dense1 ← vec_set (m_DenseSet s) index lastEntry;
      sparse1 ← vec_set (m_SparseSet s) (entity lastEntry) index;
      dense2 ← pop_back dense1;
      sparse2 ← vec_set sparse1 target (wrap (m_MaxEntities s - 1));
      Some (true, {| m_MaxEntities := m_MaxEntities s;
                     m_SparseSet := sparse2;
                     m_DenseSet := dense2 |})).

(** The pool [Add] leaves when [entity] was absent: the new entry at
    the end of the dense vector, its index in the sparse slot. *)
Definition added (s : t) (e : EntityID) (v : T) : t :=
  {| m_MaxEntities := m_MaxEntities s;
     m_SparseSet := <[Z.to_nat e := vec_size (m_DenseSet s)]> (m_SparseSet s);
     m_DenseSet := m_DenseSet s ++ [Entry e v] |}.

(** The pool [Remove] leaves when [e] was present at dense index
    [index] and [lastEntry] was the last dense entry. *)
Definition removed (s : t) (e : EntityID) (index : Z) (lastEntry : DenseSetEntry) : t :=
  {| m_MaxEntities := m_MaxEntities s;
     m_SparseSet := <[Z.to_nat e := sentinel s]>
                      (<[Z.to_nat (entity lastEntry) := index]> (m_SparseSet s));
     m_DenseSet := take (length (m_DenseSet s) - 1)%nat
                     (<[Z.to_nat index := lastEntry]> (m_DenseSet s)) |}.

(** *** Calls on a pool, and runs of calls *)

Inductive call : Type :=
| CallAdd (entity : EntityID) (v : T)
| CallRemove (entity : EntityID).

Definition call_entity (c : call) : EntityID :=
  match c with CallAdd e _ => e | CallRemove e => e end.

Definition step (s : t) (c : call) : option t :=
  match c with
  | CallAdd e v => snd <$> Add s e v
  | CallRemove e => snd <$> Remove s e
  end.

Fixpoint run (s : t) (cs : list call) : option t :=
  match cs with
  | [] => Some s
  | c :: cs' => s' ← step s c; run s' cs'
  end.

Definition is_add (c : call) : Prop :=
  match c with CallAdd _ _ => True | CallRemove _ => False end.

(** [Add(from, v)], [Add(from + 1, v)], ..., [Add(from + n - 1, v)]. *)
Definition fill (v : T) (from n : Z) : list call :=
  (λ e, CallAdd e v) <$> seqZ from n.

(** The largest number of dense entries the pool holds before, during
    or after a run. *)
Fixpoint peak (s : t) (cs : list call) : Z :=
  match cs with
  | [] => vec_size (m_DenseSet s)
  | c :: cs' =>
      match step s c with
      | Some s' => Z.max (vec_size (m_DenseSet s)) (peak s' cs')
      | None => vec_size (m_DenseSet s)
      end
  end.

(** *** Invariants *)

(** What every pool built by the constructor and changed only by [Add]
    and [Remove] satisfies: the sparse vector has one slot per entity,
    the dense vector has a size that fits [size_t], dense entries carry
    entities in range, and a sparse slot that is not the sentinel
    indexes a dense entry of that entity. *)
Record wf (s : t) : Prop := Wf {
  wf_cap : 0 ≤ m_MaxEntities s < size_t_modulus;
  wf_sparse : vec_size (m_SparseSet s) = m_MaxEntities s;
  wf_size : vec_size (m_DenseSet s) < size_t_modulus;
  wf_dense : ∀ d, d ∈ m_DenseSet s → 0 ≤ entity d < m_MaxEntities s;
  wf_fwd : ∀ e i, vec_at (m_SparseSet s) e = Some i → i ≠ sentinel s →
             ∃ d, vec_at (m_DenseSet s) i = Some d ∧ entity d = e
}.

(** First half of the linking invariant of the data model. *)
Definition fwd_linked (s : t) : Prop :=
  ∀ e i, vec_at (m_SparseSet s) e = Some i → i ≠ sentinel s →
    ∃ d, vec_at (m_DenseSet s) i = Some d ∧ entity d = e.

(** Second half: every dense index is the sparse entry of its entity. *)
Definition back_linked (s : t) : Prop :=
  ∀ (i : nat) d, m_DenseSet s !! i = Some d →
    vec_at (m_SparseSet s) (entity d) = Some (Z.of_nat i).

Definition linked (s : t) : Prop := fwd_linked s ∧ back_linked s.

(** No dense index equals the sentinel. *)
Definition has_room (s : t) : Prop := vec_size (m_DenseSet s) ≤ sentinel s.

(** [e] is stored in the dense vector (whether or not [Has] sees it). *)
Definition stored (s : t) (e : EntityID) (v : T) : Prop :=
  Entry e v ∈ m_DenseSet s.
(** The invariant of a pool that was only ever given entity IDs below
    [capacity - 1]: fully linked, with room left. *)
Record below_sentinel (s : t) : Prop := BelowSentinel {
  bs_wf : wf s;
  bs_back : back_linked s;
  bs_room : has_room s;
  bs_ids : ∀ d, d ∈ m_DenseSet s → entity d < m_MaxEntities s - 1
}.

(** [begin()] and [end()]: the range a [for] loop over the pool walks is
    the dense vector, from its first entry to its last. *)
Definition entries (s : t) : list DenseSetEntry := m_DenseSet s.

(** One [Add] call for each pair of an entity and a value, in order. *)
Definition add_all (l : list (EntityID * T)) : list call :=
  (λ p, CallAdd p.1 p.2) <$> l.
End Defs.

Arguments DenseSetEntry : clear implicits.
Arguments t : clear implicits.
Arguments call : clear implicits.
End SparseSet.

(** ** [SparseSetWrapper<T>]

    The wrapper holds one [SparseSet<T>] and hands two of its member
    functions to the registry through [ISparseSetWrapper]; it is modelled
    by the set it holds. *)

(** [bool HasEntity(EntityID entity) const override] *)
Definition HasEntity {T : Type} (set : SparseSet.t T) (entity : EntityID) : option bool :=
  SparseSet.Has set entity.

(** [bool RemoveEntity(EntityID entity) override] *)
Definition RemoveEntity {T : Type} (set : SparseSet.t T) (entity : EntityID)
    : option (bool * SparseSet.t T) :=
  SparseSet.Remove set entity.

(** ** [ECSInstance] *)

(** The loop [for (auto& [type, pool] : pools) body(pool)] where [body]
    changes only the pool it is given: the pools are separate objects, so
    the iteration order of the [unordered_map] does not show.  The loop
    aborts when one of the calls does. *)
Definition for_each_pool `{Countable K} {V : Type}
    (body : V → option V) (pools : gmap K V) : option (gmap K V) :=
  if decide (map_Forall (λ _ pool, is_Some (body pool)) pools)
  then Some (omap body pools) else None.

Module ECSInstance.
Section Defs.
Context `{Countable type_index} {T : Type}.

Record t : Type := Make {
  m_MaxEntities : Z;
  m_NextEntity : EntityID;
  m_FreeEntities : list EntityID;
  m_ComponentPools : gmap type_index (SparseSet.t T)
}.

(** [ECSInstance(unsigned int MaxEntities)] *)
Definition new (MaxEntities : Z) : t :=
  {| m_MaxEntities := MaxEntities;
     m_NextEntity := 0;
     m_FreeEntities := [];
     m_ComponentPools := ∅ |}.

(** The registry after the pool of type [key] was changed in place
    through the pointer the map holds. *)
Definition with_pool (r : t) (key : type_index) (pool : SparseSet.t T) : t :=
  {| m_MaxEntities := m_MaxEntities r;
     m_NextEntity := m_NextEntity r;
     m_FreeEntities := m_FreeEntities r;
     m_ComponentPools := <[key := pool]> (m_ComponentPools r) |}.

(** [SparseSet<T>& GetOrCreatePool<T>()]: the pool, and the registry
    with that pool in its map. *)
Definition GetOrCreatePool (r : t) (key : type_index) : SparseSet.t T * t :=
  match m_ComponentPools r !! key with
  | Some pool => (pool, r)
  | None =>
      let wrapper := SparseSet.new (m_MaxEntities r) in
      (wrapper, with_pool r key wrapper)
  end.

(** [SparseSet<T>* TryGetPool<T>()]; [None] is [nullptr]. *)
Definition TryGetPool (r : t) (key : type_index) : option (SparseSet.t T) :=
  m_ComponentPools r !! key.

(** [EntityID CreateEntity()] *)
Definition CreateEntity (r : t) : option (EntityID * t) :=
  if decide (m_FreeEntities r = []) then
    PECS_ASSERT (wrap (m_NextEntity r + 1) < m_MaxEntities r) (
      Some (m_NextEntity r,
            {| m_MaxEntities := m_MaxEntities r;
               m_NextEntity := wrap (m_NextEntity r + 1);
               m_FreeEntities := m_FreeEntities r;
               m_ComponentPools := m_ComponentPools r |}))
  else
    id ← back (m_FreeEntities r);
    free ← pop_back (m_FreeEntities r);
    Some (id, {| m_MaxEntities := m_MaxEntities r;
                 m_NextEntity := m_NextEntity r;
                 m_FreeEntities := free;
                 m_ComponentPools := m_ComponentPools r |}).

(** [void DeleteEntity(EntityID entity)] *)
Definition DeleteEntity (r : t) (entity : EntityID) : option t :=
  PECS_ASSERT (entity < m_MaxEntities r) (
    free ← push_back (m_FreeEntities r) entity;
    pools ← for_each_pool (λ pool, snd <$> SparseSet.Remove pool entity)
              (m_ComponentPools r);
    Some {| m_MaxEntities := m_MaxEntities r;
            m_NextEntity := m_NextEntity r;
            m_FreeEntities := free;
            m_ComponentPools := pools |}).

(** [T& AddComponent<T>(EntityID entity, Args&&... args)] *)
Definition AddComponent (r : t) (key : type_index) (entity : EntityID) (v : T)
    : option (T * t) :=
  PECS_ASSERT (entity < m_MaxEntities r) (
    let '(pool, r1) := GetOrCreatePool r key in
    '(x, pool') ← SparseSet.Add pool entity v;
    Some (x, with_pool r1 key pool')).

(** [T& GetComponent<T>(EntityID entity)] *)
Definition GetComponent (r : t) (key : type_index) (entity : EntityID) : option T :=
  PECS_ASSERT (entity < m_MaxEntities r) (
    match TryGetPool r key with
    | None => None
    | Some pool =>
        h ← SparseSet.Has pool entity;
        PECS_ASSERT (h = true) (SparseSet.Get pool entity)
    end).

(** [bool RemoveComponent<T>(EntityID entity)] *)
Definition RemoveComponent (r : t) (key : type_index) (entity : EntityID)
    : option (bool * t) :=
  PECS_ASSERT (entity < m_MaxEntities r) (
    match TryGetPool r key with
    | Some pool =>
        '(b, pool') ← SparseSet.Remove pool entity;
        Some (b, with_pool r key pool')
    | None => Some (false, r)
    end).

(** [bool HasComponent<T>(EntityID entity) const] *)
Definition HasComponent (r : t) (key : type_index) (entity : EntityID) : option bool :=
  PECS_ASSERT (entity < m_MaxEntities r) (
    match TryGetPool r key with
    | Some pool => SparseSet.Has pool entity
    | None => Some false
    end).

(** [bool HasComponents<Ts...>(EntityID entity) const]: the conjunction
    [(HasComponent<Ts>(entity) && ...)], left to right, stopping at the
    first [false]. *)
Fixpoint HasComponents (r : t) (keys : list type_index) (entity : EntityID)
    : option bool :=
  match keys with
  | [] => Some true
  | key :: keys' =>
      h ← HasComponent r key entity;
      if (h : bool) then HasComponents r keys' entity else Some false
  end.

(** [std::tuple<Ts&...> GetComponents<Ts...>(EntityID entity)]; the tuple
    is a list here since all values live in [T]. *)
Definition GetComponents (r : t) (keys : list type_index) (entity : EntityID)
    : option (list T) :=
  mapM (λ key, GetComponent r key entity) keys.

(** [SparseSet<T>& Iterate<T>()] *)
Definition Iterate (r : t) (key : type_index) : SparseSet.t T * t :=
  GetOrCreatePool r key.

(** The number of dense entries of the pool of type [key]; 0 when the
    registry has no such pool. *)
Definition pool_size (r : t) (key : type_index) : Z :=
  match TryGetPool r key with
  | Some pool => vec_size (SparseSet.m_DenseSet pool)
  | None => 0
  end.

(** *** Calls on a registry, and runs of calls *)

Inductive call : Type :=
| CallCreateEntity
| CallDeleteEntity (entity : EntityID)
| CallAddComponent (key : type_index) (entity : EntityID) (v : T)
| CallRemoveComponent (key : type_index) (entity : EntityID).

Definition is_component_call (c : call) : Prop :=
  match c with
  | CallAddComponent _ _ _ | CallRemoveComponent _ _ => True
  | CallCreateEntity | CallDeleteEntity _ => False
  end.

(** The entity argument of the call, if it has one, is at least 0 and
    below [bound]. *)
Definition ids_below (bound : Z) (c : call) : Prop :=
  match c with
  | CallCreateEntity => True
  | CallDeleteEntity e | CallAddComponent _ e _ | CallRemoveComponent _ e =>
      0 ≤ e < bound
  end.

(** The call is not an [AddComponent] on entity [e]. *)
Definition no_add_to (e : EntityID) (c : call) : Prop :=
  match c with
  | CallAddComponent _ e' _ => e' ≠ e
  | CallCreateEntity | CallDeleteEntity _ | CallRemoveComponent _ _ => True
  end.

(** One call: the IDs it returned (one for [CreateEntity], none
    otherwise) and the registry after it. *)
Definition step (r : t) (c : call) : option (list EntityID * t) :=
  match c with
  | CallCreateEntity => '(id, r') ← CreateEntity r; Some ([id], r')
  | CallDeleteEntity e => r' ← DeleteEntity r e; Some ([], r')
  | CallAddComponent k e v => '(_, r') ← AddComponent r k e v; Some ([], r')
  | CallRemoveComponent k e => '(_, r') ← RemoveComponent r k e; Some ([], r')
  end.

(** A run of calls: the IDs [CreateEntity] returned, in order, and the
    final registry. *)
Fixpoint run (r : t) (cs : list call) : option (list EntityID * t) :=
  match cs with
  | [] => Some ([], r)
  | c :: cs' =>
      '(ids, r') ← step r c;
      '(ids', r'') ← run r' cs';
      Some (ids ++ ids', r'')
  end.

(** [n] calls of [CreateEntity] in a row. *)
Definition create_n (r : t) (n : nat) : option (list EntityID * t) :=
  run r (replicate n CallCreateEntity).

(** The calls of a run use an entity ID properly when [DeleteEntity] is
    only given IDs that [CreateEntity] returned earlier in the run
    ([issued] holds the IDs returned so far). *)
Fixpoint deletes_issued (r : t) (issued : list EntityID) (cs : list call) : Prop :=
  match cs with
  | [] => True
  | c :: cs' =>
      match c with CallDeleteEntity e => e ∈ issued | _ => True end ∧
      match step r c with
      | Some (ids, r') => deletes_issued r' (issued ++ ids) cs'
      | None => True
      end
  end.

(** The number of live entities: IDs issued from the high-water mark
    that are not waiting in the free list. *)
Definition live_count (r : t) : Z :=
  m_NextEntity r - vec_size (m_FreeEntities r).

(** *** Invariant *)

Record wf (r : t) : Prop := Wf {
  wf_max : 0 ≤ m_MaxEntities r < unsigned_int_modulus;
  wf_next : 0 ≤ m_NextEntity r ≤ m_MaxEntities r;
  wf_pools : ∀ key pool, m_ComponentPools r !! key = Some pool →
               SparseSet.wf pool ∧ SparseSet.m_MaxEntities pool = m_MaxEntities r
}.

(** Bookkeeping of a registry whose free list holds only IDs below
    [max - 1]; [issued] are the IDs handed out so far. *)
Record ids_ok (max : Z) (r : t) (issued : list EntityID) : Prop := IdsOk {
  io_max : m_MaxEntities r = max;
  io_next : 0 ≤ m_NextEntity r ≤ max;
  io_free : Forall (λ x, 0 ≤ x < max - 1) (m_FreeEntities r);
  io_issued : Forall (λ x, 0 ≤ x < max - 1) issued
}.

(** Every pool of the registry was only given entity IDs below
    [maxEntities - 1]. *)
Definition pools_below_sentinel (r : t) : Prop :=
  ∀ key pool, m_ComponentPools r !! key = Some pool → SparseSet.below_sentinel pool.

(** *** Live entities *)

(** The entities that are live after a call that returned [ids], given
    those that were live before it: [CreateEntity] adds the ID it
    returned, [DeleteEntity(e)] takes [e] away. *)
Definition live_step (live : list EntityID) (c : call) (ids : list EntityID)
    : list EntityID :=
  match c with
  | CallDeleteEntity e => filter (λ x, x ≠ e) live
  | _ => live ++ ids
  end.

(** The live entities after a run (up to the call that failed, if one
    did). *)
Fixpoint live_after (r : t) (live : list EntityID) (cs : list call) : list EntityID :=
  match cs with
  | [] => live
  | c :: cs' =>
      match step r c with
      | Some (ids, r') => live_after r' (live_step live c ids) cs'
      | None => live
      end
  end.

(** [DeleteEntity] is only given entities that are live at the time. *)
Fixpoint deletes_live (r : t) (live : list EntityID) (cs : list call) : Prop :=
  match cs with
  | [] => True
  | c :: cs' =>
      match c with CallDeleteEntity e => e ∈ live | _ => True end ∧
      match step r c with
      | Some (ids, r') => deletes_live r' (live_step live c ids) cs'
      | None => True
      end
  end.

(** The bookkeeping of the registry agrees with the live entities: live
    and free IDs are all below the high-water mark, no ID is twice in
    either list or in both, and together they are all the IDs below the
    high-water mark. *)
Record live_ok (r : t) (live : list EntityID) : Prop := LiveOk {
  lo_max : 0 ≤ m_MaxEntities r < unsigned_int_modulus;
  lo_next : 0 ≤ m_NextEntity r ≤ m_MaxEntities r;
  lo_live : NoDup live;
  lo_free : NoDup (m_FreeEntities r);
  lo_disjoint : ∀ x, x ∈ live → x ∉ m_FreeEntities r;
  lo_live_below : ∀ x, x ∈ live → 0 ≤ x < m_NextEntity r;
  lo_free_below : ∀ x, x ∈ m_FreeEntities r → 0 ≤ x < m_NextEntity r;
  lo_count : vec_size live + vec_size (m_FreeEntities r) = m_NextEntity r
}.
End Defs.

Arguments t _ {_ _} _.
Arguments call : clear implicits.
End ECSInstance.

(** ** Scenarios *)

(** The component type of the scenarios, a position [{x, y}], and its
    [type_index]. *)
Abbreviation Position := (Z * Z)%type.
Definition PositionKey : positive := 1%positive.

(** A registry of capacity 4: entities 0, 1, 2 are created and given the
    positions [{1,1}], [{2,2}], [{3,3}]. *)
Definition three_positions : list (ECSInstance.call positive Position) :=
  [ECSInstance.CallCreateEntity; ECSInstance.CallCreateEntity;
   ECSInstance.CallCreateEntity;
   ECSInstance.CallAddComponent PositionKey 0 (1, 1);
   ECSInstance.CallAddComponent PositionKey 1 (2, 2);
   ECSInstance.CallAddComponent PositionKey 2 (3, 3)].

(** The pool of positions after these calls, and the registry. *)
Definition position_pool : SparseSet.t Position :=
  SparseSet.Make 4 [0; 1; 2; 3]
    [SparseSet.Entry 0 (1, 1); SparseSet.Entry 1 (2, 2); SparseSet.Entry 2 (3, 3)].

Definition position_registry : ECSInstance.t positive Position :=
  ECSInstance.Make 4 3 [] {[ PositionKey := position_pool ]}.

(** The same registry after [RemoveComponent<Position>(1)]: the entry of
    entity 2 has moved into dense slot 1. *)
Definition position_registry_less_1 : ECSInstance.t positive Position :=
  ECSInstance.Make 4 3 []
    {[ PositionKey :=
         SparseSet.Make 4 [0; 3; 1; 3]
           [SparseSet.Entry 0 (1, 1); SparseSet.Entry 2 (3, 3)] ]}.

(** A new registry of capacity 4. *)
Definition empty_registry : ECSInstance.t positive Position := ECSInstance.new 4.

(** The same pool built by calls on the pool itself. *)
Definition three_adds : list (SparseSet.call Position) :=
  [SparseSet.CallAdd 0 (1, 1); SparseSet.CallAdd 1 (2, 2); SparseSet.CallAdd 2 (3, 3)].

(** A pool of capacity 2 that is given entity 1 twice, after entity 0. *)
Definition overfull_adds : list (SparseSet.call Position) :=
  [SparseSet.CallAdd 0 (1, 1); SparseSet.CallAdd 1 (2, 2); SparseSet.CallAdd 1 (3, 3)].

Definition overfull_pool : SparseSet.t Position :=
  SparseSet.Make 2 [0; 2]
    [SparseSet.Entry 0 (1, 1); SparseSet.Entry 1 (2, 2); SparseSet.Entry 1 (3, 3)].

(** A registry of capacity 2 in which entities 0 and 1 were given
    positions; entity 1 is not an ID that [CreateEntity] hands out. *)
Definition full_pool : SparseSet.t Position :=
  SparseSet.Make 2 [0; 1] [SparseSet.Entry 0 (1, 1); SparseSet.Entry 1 (2, 2)].

Definition full_registry : ECSInstance.t positive Position :=
  ECSInstance.Make 2 0 [] {[ PositionKey := full_pool ]}.

(** A registry of capacity 2 after its first [CreateEntity]. *)
Definition one_of_two : ECSInstance.t positive Position := ECSInstance.Make 2 1 [] ∅.

(** Create two entities, delete the first, create again. *)
Definition recycle_calls : list (ECSInstance.call positive Position) :=
  [ECSInstance.CallCreateEntity; ECSInstance.CallCreateEntity;
   ECSInstance.CallDeleteEntity 0; ECSInstance.CallCreateEntity].

(** A new registry of capacity 4 after [AddComponent<Position>(0, {1,1})]. *)
Definition one_position : ECSInstance.t positive Position :=
  ECSInstance.Make 4 0 []
    {[ PositionKey := SparseSet.Make 4 [0; 3; 3; 3] [SparseSet.Entry 0 (1, 1)] ]}.

(** The registry with three positions after [DeleteEntity(1)]. *)
Definition position_registry_deleted_1 : ECSInstance.t positive Position :=
  ECSInstance.Make 4 3 [1]
    {[ PositionKey :=
         SparseSet.Make 4 [0; 3; 1; 3]
           [SparseSet.Entry 0 (1, 1); SparseSet.Entry 2 (3, 3)] ]}.

(** The registry of capacity 4 after [recycle_calls]. *)
Definition recycled_registry : ECSInstance.t positive Position :=
  ECSInstance.Make 4 2 [] ∅.

(** Two entities with their positions, in the order they are added. *)
Definition two_positions : list (Z * Position) := [(2, (3, 3)); (0, (1, 1))].

(** The registry of capacity 2 after [AddComponent<Position>(0, {1,1})],
    before entity 1 is given its position. *)
Definition first_of_two : ECSInstance.t positive Position :=
  ECSInstance.Make 2 0 []
    {[ PositionKey := SparseSet.Make 2 [0; 1] [SparseSet.Entry 0 (1, 1)] ]}.

(** [full_registry] after a second [AddComponent<Position>(1, {3,3})]. *)
Definition overfull_registry : ECSInstance.t positive Position :=
  ECSInstance.Make 2 0 [] {[ PositionKey := overfull_pool ]}.

(** [full_registry] after [DeleteEntity(1)]. *)
Definition full_registry_deleted_1 : ECSInstance.t positive Position :=
  ECSInstance.Make 2 0 [1] {[ PositionKey := full_pool ]}.

(** A registry of capacity 3 on which [DeleteEntity] is given IDs that
    are not live, each followed by [CreateEntity]. *)
Definition stray_deletes : list (ECSInstance.call positive Position) :=
  [ECSInstance.CallDeleteEntity 0; ECSInstance.CallCreateEntity;
   ECSInstance.CallDeleteEntity 1; ECSInstance.CallCreateEntity].

Definition stray_registry : ECSInstance.t positive Position :=
  ECSInstance.Make 3 0 [] ∅.

(** The registry with three positions after [DeleteEntity(0)], and
    after the calls [RemoveComponent<Position>(0)] and
    [RemoveComponent<Position>(1)] that follow. *)
Definition position_registry_deleted_0 : ECSInstance.t positive Position :=
  ECSInstance.Make 4 3 [0]
    {[ PositionKey :=
         SparseSet.Make 4 [3; 1; 0; 3]
           [SparseSet.Entry 2 (3, 3); SparseSet.Entry 1 (2, 2)] ]}.

Definition two_removes : list (ECSInstance.call positive Position) :=
  [ECSInstance.CallRemoveComponent PositionKey 0;
   ECSInstance.CallRemoveComponent PositionKey 1].

Definition position_registry_only_2 : ECSInstance.t positive Position :=
  ECSInstance.Make 4 3 [0]
    {[ PositionKey := SparseSet.Make 4 [3; 3; 0; 3] [SparseSet.Entry 2 (3, 3)] ]}.

(** Create an entity, delete it, give the deleted ID a position, create
    again. *)
Definition revive_calls : list (ECSInstance.call positive Position) :=
  [ECSInstance.CallCreateEntity; ECSInstance.CallDeleteEntity 0;
   ECSInstance.CallAddComponent PositionKey 0 (1, 1);
   ECSInstance.CallCreateEntity].

Definition revived_registry : ECSInstance.t positive Position :=
  ECSInstance.Make 4 1 []
    {[ PositionKey := SparseSet.Make 4 [0; 3; 3; 3] [SparseSet.Entry 0 (1, 1)] ]}.

(** Capacity 3: entity 2 is stored at dense index 2 and deleted; removing
    the position of entity 0 then moves the entry of entity 2. *)
Definition resurface_calls : list (ECSInstance.call positive Position) :=
  [ECSInstance.CallAddComponent PositionKey 0 (1, 1);
   ECSInstance.CallAddComponent PositionKey 1 (2, 2);
   ECSInstance.CallAddComponent PositionKey 2 (3, 3);
   ECSInstance.CallDeleteEntity 2;
   ECSInstance.CallRemoveComponent PositionKey 0;
   ECSInstance.CallCreateEntity].

Definition resurfaced_registry : ECSInstance.t positive Position :=
  ECSInstance.Make 3 0 []
    {[ PositionKey :=
         SparseSet.Make 3 [2; 1; 0]
           [SparseSet.Entry 2 (3, 3); SparseSet.Entry 1 (2, 2)] ]}.

(** * Properties *)

(** ** Machine integers and vectors *)

Lemma wrap_small z : 0 ≤ z < size_t_modulus → wrap z = z.
Proof. intros Hz. unfold wrap. by apply Z.mod_small. Qed.

Lemma wrap_range z : 0 ≤ wrap z < size_t_modulus.
Proof. unfold wrap. apply Z.mod_pos_bound. reflexivity. Qed.

Lemma wrap_pred_zero : wrap (0 - 1) = size_t_modulus - 1.
Proof. reflexivity. Qed.

Section Vectors.
Context {A : Type}.
Implicit Types (v : list A) (i : Z) (x : A).

Lemma vec_at_Some v i x :
  vec_at v i = Some x ↔ 0 ≤ i ∧ v !! Z.to_nat i = Some x.
Proof.
  unfold vec_at. case_decide as Hi; split.
  - by intros Hl.
  - by intros [_ Hl].
  - done.
  - by intros [Hi' _].
Qed.

Lemma vec_at_nat v (n : nat) : vec_at v (Z.of_nat n) = v !! n.
Proof. unfold vec_at. case_decide; [by rewrite Nat2Z.id | lia]. Qed.

Lemma vec_at_bound v i x : vec_at v i = Some x → 0 ≤ i < vec_size v.
Proof.
  rewrite vec_at_Some. intros [Hi Hl]. apply lookup_lt_Some in Hl.
  unfold vec_size. lia.
Qed.

Lemma vec_at_is_Some v i : 0 ≤ i < vec_size v → is_Some (vec_at v i).
Proof.
  unfold vec_size, vec_at. intros Hi. case_decide; [|lia].
  apply lookup_lt_is_Some. lia.
Qed.

Lemma vec_at_elem_of v i x : vec_at v i = Some x → x ∈ v.
Proof. rewrite vec_at_Some. intros [_ Hl]. by eapply list_elem_of_lookup_2. Qed.

Lemma vec_set_Some v i x :
  0 ≤ i < vec_size v → vec_set v i x = Some (<[Z.to_nat i := x]> v).
Proof. intros Hi. unfold vec_set. by case_decide. Qed.

Lemma vec_set_inv v i x v' :
  vec_set v i x = Some v' → 0 ≤ i < vec_size v ∧ v' = <[Z.to_nat i := x]> v.
Proof. unfold vec_set. case_decide; [|done]. by intros [= <-]. Qed.

Lemma vec_size_insert v (n : nat) x : vec_size (<[n := x]> v) = vec_size v.
Proof. unfold vec_size. by rewrite length_insert. Qed.

Lemma vec_at_insert v j x i :
  0 ≤ j < vec_size v →
  vec_at (<[Z.to_nat j := x]> v) i = if decide (i = j) then Some x else vec_at v i.
Proof.
  intros Hj. unfold vec_at, vec_size in *. case_decide as Hi.
  - case_decide as Hij.
    + subst. apply list_lookup_insert_eq. lia.
    + apply list_lookup_insert_ne. lia.
  - case_decide; [lia | done].
Qed.

Lemma push_back_Some v x :
  vec_size v + 1 < size_t_modulus → push_back v x = Some (v ++ [x]).
Proof. intros Hv. unfold push_back. by case_decide. Qed.

Lemma push_back_inv v x v' :
  push_back v x = Some v' → vec_size v + 1 < size_t_modulus ∧ v' = v ++ [x].
Proof. unfold push_back. case_decide; [|done]. by intros [= <-]. Qed.

Lemma pop_back_Some v : v ≠ [] → pop_back v = Some (take (length v - 1)%nat v).
Proof. by destruct v. Qed.

Lemma pop_back_snoc v x : pop_back (v ++ [x]) = Some v.
Proof.
  rewrite pop_back_Some; [|by destruct v].
  rewrite length_app. simpl. f_equal.
  replace (length v + 1 - 1)%nat with (length v) by lia.
  by rewrite take_app_length.
Qed.

Lemma vec_size_app v x : vec_size (v ++ [x]) = vec_size v + 1.
Proof. unfold vec_size. rewrite length_app. simpl. lia. Qed.

Lemma back_snoc v x : back (v ++ [x]) = Some x.
Proof. apply last_snoc. Qed.
End Vectors.

(** ** The pool *)

Section SparseSetFacts.
Import SparseSet.
Context {T : Type}.
Implicit Types (s : SparseSet.t T) (e i : Z) (v : T) (d : DenseSetEntry T).

Lemma sentinel_range s : 0 ≤ sentinel s < size_t_modulus.
Proof. apply wrap_range. Qed.

Lemma sentinel_pos s :
  0 < m_MaxEntities s < size_t_modulus → sentinel s = m_MaxEntities s - 1.
Proof. intros Hc. unfold sentinel. apply wrap_small. lia. Qed.

(** The sentinel is never below [capacity - 1]; for capacity 0 it is the
    largest [size_t]. *)
Lemma sentinel_ge s :
  0 ≤ m_MaxEntities s < size_t_modulus → m_MaxEntities s - 1 ≤ sentinel s.
Proof.
  intros Hc. destruct (decide (m_MaxEntities s = 0)) as [H0|H0].
  - unfold sentinel. rewrite H0. rewrite wrap_pred_zero. unfold size_t_modulus. lia.
  - rewrite sentinel_pos; lia.
Qed.

Lemma wf_new c : 0 ≤ c < size_t_modulus → wf (new (T:=T) c).
Proof.
  intros Hc. split; simpl.
  - done.
  - unfold vec_size. rewrite length_replicate. lia.
  - done.
  - intros d Hd. by apply elem_of_nil in Hd.
  - intros e i He Hi. apply vec_at_Some in He as [_ He].
    apply lookup_replicate in He as [-> _]. done.
Qed.

Lemma sparse_at s e :
  wf s → 0 ≤ e < m_MaxEntities s → is_Some (vec_at (m_SparseSet s) e).
Proof. intros Hwf He. apply vec_at_is_Some. rewrite (wf_sparse _ Hwf). done. Qed.

Lemma Has_eq s e x :
  e < m_MaxEntities s → vec_at (m_SparseSet s) e = Some x →
  Has s e = Some (bool_decide (x ≠ sentinel s)).
Proof.
  intros He Hx. unfold Has, PECS_ASSERT. case_decide; [|done].
  rewrite Hx. done.
Qed.

Lemma Has_inv s e b :
  Has s e = Some b →
  0 ≤ e < m_MaxEntities s ∧
  ∃ x, vec_at (m_SparseSet s) e = Some x ∧ b = bool_decide (x ≠ sentinel s).
Proof.
  unfold Has, PECS_ASSERT. case_decide; [|done].
  destruct (vec_at (m_SparseSet s) e) as [x|] eqn:Hx; simpl; [|done].
  intros [= <-]. apply vec_at_bound in Hx as Hb.
  split; [lia|]. by exists x.
Qed.

(** [Has] answers for every entity in range. *)
Lemma Has_total s e :
  wf s → 0 ≤ e < m_MaxEntities s → is_Some (Has s e).
Proof.
  intros Hwf He. destruct (sparse_at s e Hwf He) as [x Hx].
  rewrite (Has_eq s e x); [done | lia | done].
Qed.

Lemma Get_eq s e x d :
  e < m_MaxEntities s → vec_at (m_SparseSet s) e = Some x → x ≠ sentinel s →
  vec_at (m_DenseSet s) x = Some d → Get s e = Some (data d).
Proof.
  intros He Hx Hs Hd. unfold Get, PECS_ASSERT. case_decide; [|done].
  rewrite (Has_eq s e x) by done. simpl.
  rewrite bool_decide_true by done. case_decide; [|done].
  rewrite Hx. simpl. rewrite Hd. done.
Qed.

(** *** [Add], case by case *)

Lemma Add_present s e v x d :
  e < m_MaxEntities s → vec_at (m_SparseSet s) e = Some x → x ≠ sentinel s →
  vec_at (m_DenseSet s) x = Some d → Add s e v = Some (data d, s).
Proof.
  intros He Hx Hs Hd. unfold Add, PECS_ASSERT. case_decide; [|done].
  rewrite (Has_eq s e x) by done. simpl.
  rewrite bool_decide_true by done. rewrite Hx. simpl. rewrite Hd. done.
Qed.

Lemma Add_absent s e v :
  e < m_MaxEntities s → vec_at (m_SparseSet s) e = Some (sentinel s) →
  vec_size (m_DenseSet s) + 1 < size_t_modulus →
  Add s e v = Some (v, added s e v).
Proof.
  intros He Hx Hsz. unfold added, Add, PECS_ASSERT. case_decide; [|done].
  rewrite (Has_eq s e (sentinel s)) by done. simpl.
  rewrite bool_decide_false by (by intros Hn; apply Hn).
  rewrite push_back_Some by done. simpl.
  apply vec_at_bound in Hx as Hb.
  rewrite vec_set_Some by done. simpl.
  rewrite back_snoc. simpl. rewrite vec_size_app.
  rewrite wrap_small; [|unfold vec_size in *; lia].
  repeat f_equal. lia.
Qed.

(** *** [Remove], case by case *)

Lemma Remove_absent s e : Has s e = Some false → Remove s e = Some (false, s).
Proof.
  intros Hh. unfold Remove, PECS_ASSERT.
  apply Has_inv in Hh as Hi. case_decide; [|lia]. rewrite Hh. done.
Qed.

Lemma Remove_present s e x :
  wf s → e < m_MaxEntities s →
  vec_at (m_SparseSet s) e = Some x → x ≠ sentinel s →
  ∃ lastEntry,
    m_DenseSet s !! (length (m_DenseSet s) - 1)%nat = Some lastEntry ∧
    Remove s e = Some (true, removed s e x lastEntry).
Proof.
  intros Hwf He Hx Hs.
  destruct (wf_fwd _ Hwf e x Hx Hs) as (d & Hd & Hde).
  apply vec_at_bound in Hd as Hxb. apply vec_at_bound in Hx as Heb.
  assert (Hn : (0 < length (m_DenseSet s))%nat) by (unfold vec_size in Hxb; lia).
  destruct (lookup_lt_is_Some_2 (m_DenseSet s) (length (m_DenseSet s) - 1)%nat)
    as [lastEntry Hl]; [lia|].
  exists lastEntry. split; [done|].
  pose proof (wf_dense _ Hwf lastEntry (list_elem_of_lookup_2 _ _ _ Hl)) as Hle.
  pose proof (wf_cap _ Hwf) as Hcap. pose proof (wf_sparse _ Hwf) as Hsp.
  unfold removed, Remove, PECS_ASSERT. case_decide; [|done].
  rewrite (Has_eq s e x) by done. simpl.
  rewrite bool_decide_true by done. simpl. rewrite Hx. simpl.
  assert (Hlast : vec_at (m_DenseSet s) (wrap (vec_size (m_DenseSet s) - 1))
                  = Some lastEntry).
  { assert (vec_size (m_DenseSet s) - 1 = Z.of_nat (length (m_DenseSet s) - 1)) as ->
      by (unfold vec_size; lia).
    rewrite wrap_small.
    - by rewrite vec_at_nat.
    - pose proof (wf_size _ Hwf). unfold vec_size in *. lia. }
  rewrite Hlast. simpl.
  rewrite (vec_set_Some (m_DenseSet s) x lastEntry) by lia. simpl.
  rewrite (vec_set_Some (m_SparseSet s) (entity lastEntry) x) by lia. simpl.
  rewrite pop_back_Some.
  2:{ intros Hnil. apply (f_equal length) in Hnil. rewrite length_insert in Hnil.
      simpl in Hnil. lia. }
  simpl. rewrite length_insert.
  rewrite vec_set_Some by (rewrite vec_size_insert; lia). done.
Qed.
(** *** The result of [Add] keeps the invariants *)

Lemma wf_added s e v :
  wf s → 0 ≤ e < m_MaxEntities s →
  vec_size (m_DenseSet s) + 1 < size_t_modulus → wf (added s e v).
Proof.
  intros Hwf He Hsz. pose proof (wf_sparse _ Hwf) as Hsp.
  split; simpl.
  - apply (wf_cap _ Hwf).
  - by rewrite vec_size_insert.
  - rewrite vec_size_app. lia.
  - intros d [Hd | ->%list_elem_of_singleton]%elem_of_app; [|done].
    by apply (wf_dense _ Hwf).
  - intros e' i Hi Hne. rewrite vec_at_insert in Hi by lia.
    case_decide as Hee.
    + injection Hi as <-. subst e'. exists (Entry e v). split; [|done].
      unfold vec_size. rewrite vec_at_nat.
      rewrite lookup_app_r by lia. by rewrite Nat.sub_diag.
    + destruct (wf_fwd _ Hwf e' i Hi Hne) as (d & Hd & Hde).
      exists d. split; [|done].
      apply vec_at_Some in Hd as [Hi0 Hd]. apply vec_at_Some. split; [done|].
      by apply lookup_app_l_Some.
Qed.

Lemma back_linked_added s e v :
  wf s → back_linked s → has_room s → 0 ≤ e < m_MaxEntities s →
  vec_at (m_SparseSet s) e = Some (sentinel s) → back_linked (added s e v).
Proof.
  intros Hwf Hback Hroom He Hx i d. simpl.
  pose proof (wf_sparse _ Hwf) as Hsp.
  intros [[_ Hd] | [Hi <-]]%lookup_snoc_Some.
  - pose proof (Hback i d Hd) as Hsd.
    rewrite vec_at_insert by lia. case_decide as Hee; [|done].
    rewrite Hee, Hx in Hsd. injection Hsd as Hsd.
    apply lookup_lt_Some in Hd. unfold has_room, vec_size in Hroom. lia.
  - simpl. rewrite vec_at_insert by lia. rewrite decide_True by done.
    unfold vec_size. by rewrite Hi.
Qed.

(** *** The result of [Remove] keeps the invariants *)

Section Removed.
Context (s : SparseSet.t T) (e x : Z) (lastEntry : DenseSetEntry T).
Context (Hwf : wf s) (He : 0 ≤ e < m_MaxEntities s).
Context (Hx : vec_at (m_SparseSet s) e = Some x) (Hs : x ≠ sentinel s).
Context (Hl : m_DenseSet s !! (length (m_DenseSet s) - 1)%nat = Some lastEntry).

Local Abbreviation n := (length (m_DenseSet s)).

Lemma removed_slot : ∃ d, vec_at (m_DenseSet s) x = Some d ∧ entity d = e.
Proof. by apply (wf_fwd _ Hwf). Qed.

Lemma removed_slot_bound : 0 ≤ x < Z.of_nat n.
Proof. destruct removed_slot as (d & Hd & _). by apply vec_at_bound in Hd. Qed.

Lemma removed_last_entity : 0 ≤ entity lastEntry < m_MaxEntities s.
Proof. apply (wf_dense _ Hwf). by eapply list_elem_of_lookup_2. Qed.

(** When the target is the last entry, its slot index is [n - 1]. *)
Lemma removed_last_is_target : x = Z.of_nat (n - 1) → entity lastEntry = e.
Proof.
  intros Hxl. destruct removed_slot as (d & Hd & Hde).
  rewrite Hxl, vec_at_nat in Hd. congruence.
Qed.

Lemma removed_dense_lookup (j : nat) :
  m_DenseSet (removed s e x lastEntry) !! j =
    if decide (j < n - 1)%nat
    then (if decide (j = Z.to_nat x) then Some lastEntry else m_DenseSet s !! j)
    else None.
Proof.
  pose proof removed_slot_bound as Hb. simpl.
  case_decide as Hj.
  - rewrite lookup_take_lt by done. case_decide as Hjx.
    + subst j. apply list_lookup_insert_eq. lia.
    + by apply list_lookup_insert_ne.
  - apply lookup_take_ge. lia.
Qed.

Lemma removed_sparse_at e' :
  vec_at (m_SparseSet (removed s e x lastEntry)) e' =
    if decide (e' = e) then Some (sentinel s)
    else if decide (e' = entity lastEntry) then Some x
    else vec_at (m_SparseSet s) e'.
Proof.
  pose proof removed_last_entity as Hle. pose proof (wf_sparse _ Hwf) as Hsp.
  simpl. rewrite vec_at_insert by (rewrite vec_size_insert; lia).
  case_decide; [done|]. by rewrite vec_at_insert by lia.
Qed.

Lemma removed_size :
  vec_size (m_DenseSet (removed s e x lastEntry)) = vec_size (m_DenseSet s) - 1.
Proof.
  pose proof removed_slot_bound as Hb. unfold vec_size. simpl.
  rewrite length_take, length_insert. lia.
Qed.

Lemma wf_removed : wf (removed s e x lastEntry).
Proof.
  pose proof removed_slot_bound as Hb. pose proof removed_last_entity as Hle.
  pose proof (wf_sparse _ Hwf) as Hsp.
  split.
  - apply (wf_cap _ Hwf).
  - simpl. by rewrite !vec_size_insert.
  - rewrite removed_size. pose proof (wf_size _ Hwf). lia.
  - intros d [j Hj]%list_elem_of_lookup. rewrite removed_dense_lookup in Hj.
    case_decide; [|done]. case_decide.
    + by injection Hj as <-.
    + apply (wf_dense _ Hwf). by eapply list_elem_of_lookup_2.
  - intros e' i Hi Hne. change (sentinel (removed s e x lastEntry)) with (sentinel s) in Hne.
    rewrite removed_sparse_at in Hi.
    case_decide as Hee; [congruence|].
    assert (Hxn : entity lastEntry = e' → x ≠ Z.of_nat (n - 1)).
    { intros Hy Hxl. apply removed_last_is_target in Hxl. congruence. }
    case_decide as Hey.
    + injection Hi as <-. exists lastEntry. split; [|done].
      apply vec_at_Some. split; [lia|]. rewrite removed_dense_lookup.
      rewrite decide_True by (specialize (Hxn (eq_sym Hey)); lia).
      by rewrite decide_True.
    + destruct (wf_fwd _ Hwf e' i Hi Hne) as (d & Hd & Hde).
      exists d. split; [|done].
      apply vec_at_Some in Hd as [Hi0 Hd]. apply vec_at_Some. split; [done|].
      rewrite removed_dense_lookup.
      apply lookup_lt_Some in Hd as Hlt.
      assert (Z.to_nat i ≠ (n - 1)%nat) by congruence.
      rewrite decide_True by lia.
      rewrite decide_False; [done|].
      intros Hix. destruct removed_slot as (d' & Hd' & Hde').
      apply vec_at_Some in Hd' as [_ Hd']. congruence.
Qed.

Lemma back_linked_removed : back_linked s → back_linked (removed s e x lastEntry).
Proof.
  intros Hback j d Hj. pose proof removed_slot_bound as Hb.
  rewrite removed_dense_lookup in Hj. rewrite removed_sparse_at.
  case_decide as Hjn; [|done].
  pose proof (Hback _ _ Hl) as Hsl.
  case_decide as Hjx.
  - injection Hj as <-.
    rewrite decide_False.
    2:{ intros Hy. rewrite Hy, Hx in Hsl. injection Hsl as Hsl. lia. }
    rewrite decide_True by done. f_equal. lia.
  - pose proof (Hback _ _ Hj) as Hsj.
    rewrite decide_False.
    2:{ intros Hy. rewrite Hy, Hx in Hsj. injection Hsj as Hsj. lia. }
    rewrite decide_False; [done|].
    intros Hy. rewrite Hy, Hsl in Hsj. injection Hsj as Hsj. lia.
Qed.

Lemma has_room_removed : has_room s → has_room (removed s e x lastEntry).
Proof.
  unfold has_room. rewrite removed_size.
  change (sentinel (removed s e x lastEntry)) with (sentinel s). lia.
Qed.

(** Entries of other entities are neither lost nor changed. *)
Lemma stored_removed e' v :
  e' ≠ e → stored (removed s e x lastEntry) e' v ↔ stored s e' v.
Proof.
  intros Hne. unfold stored. pose proof removed_slot_bound as Hb.
  destruct removed_slot as (dx & Hdx & Hdxe).
  apply vec_at_Some in Hdx as [_ Hdx]. split.
  - intros [j Hj]%list_elem_of_lookup. rewrite removed_dense_lookup in Hj.
    case_decide; [|done]. case_decide.
    + injection Hj as <-. by eapply list_elem_of_lookup_2.
    + by eapply list_elem_of_lookup_2.
  - intros [j Hj]%list_elem_of_lookup.
    assert (j ≠ Z.to_nat x) by (intros ->; rewrite Hdx in Hj; by injection Hj as ->).
    apply lookup_lt_Some in Hj as Hlt.
    destruct (decide (j = n - 1)%nat) as [->|Hjn].
    + apply list_elem_of_lookup. exists (Z.to_nat x).
      rewrite removed_dense_lookup. rewrite decide_True by lia.
      rewrite decide_True by done. congruence.
    + apply list_elem_of_lookup. exists j.
      rewrite removed_dense_lookup. rewrite decide_True by lia.
      by rewrite decide_False.
Qed.
End Removed.

(** *** What a call that returned has done *)

Lemma Add_inv s e v x s' :
  wf s → 0 ≤ e → Add s e v = Some (x, s') →
  e < m_MaxEntities s ∧
  ((Has s e = Some true ∧ s' = s ∧ Get s e = Some x) ∨
   (Has s e = Some false ∧ x = v ∧ s' = added s e v ∧
    vec_at (m_SparseSet s) e = Some (sentinel s) ∧
    vec_size (m_DenseSet s) + 1 < size_t_modulus)).
Proof.
  intros Hwf He0 Hadd.
  assert (He : e < m_MaxEntities s).
  { unfold Add, PECS_ASSERT in Hadd. by case_decide. }
  split; [done|].
  destruct (sparse_at s e Hwf) as [i Hi]; [lia|].
  destruct (decide (i = sentinel s)) as [->|Hne].
  - right. rewrite (Has_eq s e (sentinel s)) by done.
    rewrite bool_decide_false by (by intros Hn; apply Hn).
    destruct (decide (vec_size (m_DenseSet s) + 1 < size_t_modulus)) as [Hsz|Hsz].
    + rewrite Add_absent in Hadd by done. by injection Hadd as <- <-.
    + unfold Add, PECS_ASSERT, push_back in Hadd. rewrite decide_True in Hadd by done.
      rewrite (Has_eq s e (sentinel s)) in Hadd by done. simpl in Hadd.
      rewrite bool_decide_false in Hadd by (by intros Hn; apply Hn).
      by rewrite decide_False in Hadd.
  - left. destruct (wf_fwd _ Hwf e i Hi Hne) as (d & Hd & _).
    rewrite (Add_present s e v i d) in Hadd by done. injection Hadd as <- <-.
    rewrite (Has_eq s e i) by done. rewrite bool_decide_true by done.
    split_and!; [done..|]. by eapply Get_eq.
Qed.

Lemma Remove_inv s e b s' :
  wf s → 0 ≤ e → Remove s e = Some (b, s') →
  e < m_MaxEntities s ∧
  ((Has s e = Some false ∧ b = false ∧ s' = s) ∨
   (Has s e = Some true ∧ b = true ∧
    ∃ x lastEntry,
      vec_at (m_SparseSet s) e = Some x ∧ x ≠ sentinel s ∧
      m_DenseSet s !! (length (m_DenseSet s) - 1)%nat = Some lastEntry ∧
      s' = removed s e x lastEntry)).
Proof.
  intros Hwf He0 Hrem.
  assert (He : e < m_MaxEntities s).
  { unfold Remove, PECS_ASSERT in Hrem. by case_decide. }
  split; [done|].
  destruct (sparse_at s e Hwf) as [i Hi]; [lia|].
  rewrite (Has_eq s e i) by done.
  destruct (decide (i = sentinel s)) as [->|Hne].
  - left. rewrite bool_decide_false by (by intros Hn; apply Hn).
    rewrite Remove_absent in Hrem.
    + by injection Hrem as <- <-.
    + rewrite (Has_eq s e (sentinel s)) by done.
      by rewrite bool_decide_false by (by intros Hn; apply Hn).
  - right. rewrite bool_decide_true by done.
    destruct (Remove_present s e i Hwf He Hi Hne) as (lastEntry & Hl & Heq).
    rewrite Heq in Hrem. injection Hrem as <- <-.
    split_and!; [done..|]. by exists i, lastEntry.
Qed.

(** [Remove] returns for every entity in range. *)
Lemma Remove_total s e :
  wf s → 0 ≤ e < m_MaxEntities s → is_Some (Remove s e).
Proof.
  intros Hwf He. destruct (sparse_at s e Hwf He) as [i Hi].
  destruct (decide (i = sentinel s)) as [->|Hne].
  - rewrite Remove_absent; [done|].
    rewrite (Has_eq s e (sentinel s)) by (done || lia).
    by rewrite bool_decide_false by (by intros Hn; apply Hn).
  - destruct (Remove_present s e i) as (lastEntry & _ & ->); done || lia.
Qed.

(** [Add] returns for every entity in range unless the dense vector has
    reached the largest size of a vector. *)
Lemma Add_total s e v :
  wf s → 0 ≤ e < m_MaxEntities s →
  vec_size (m_DenseSet s) + 1 < size_t_modulus → is_Some (Add s e v).
Proof.
  intros Hwf He Hsz. destruct (sparse_at s e Hwf He) as [i Hi].
  destruct (decide (i = sentinel s)) as [->|Hne].
  - rewrite Add_absent; done || lia.
  - destruct (wf_fwd _ Hwf e i Hi Hne) as (d & Hd & _).
    rewrite (Add_present s e v i d); done || lia.
Qed.

Lemma Add_wf s e v x s' : wf s → 0 ≤ e → Add s e v = Some (x, s') → wf s'.
Proof.
  intros Hwf He Hadd.
  destruct (Add_inv _ _ _ _ _ Hwf He Hadd) as [Hlt [(_ & -> & _) | (_ & _ & -> & _ & Hsz)]].
  - done.
  - apply wf_added; done || lia.
Qed.

Lemma Remove_wf s e b s' : wf s → 0 ≤ e → Remove s e = Some (b, s') → wf s'.
Proof.
  intros Hwf He Hrem.
  destruct (Remove_inv _ _ _ _ Hwf He Hrem)
    as [Hlt [(_ & _ & ->) | (_ & _ & x & l & Hx & Hne & Hl & ->)]].
  - done.
  - apply wf_removed; done || lia.
Qed.

Lemma Add_max s e v x s' :
  Add s e v = Some (x, s') → m_MaxEntities s' = m_MaxEntities s.
Proof.
  unfold Add, PECS_ASSERT. intros Hadd. case_decide; [|done].
  destruct (Has s e) as [[]|]; simplify_option_eq; done.
Qed.

Lemma Remove_max s e b s' :
  Remove s e = Some (b, s') → m_MaxEntities s' = m_MaxEntities s.
Proof.
  unfold Remove, PECS_ASSERT. intros Hrem. case_decide; [|done].
  destruct (Has s e) as [[]|]; simplify_option_eq; done.
Qed.

(** *** Runs *)

Lemma step_wf s c s' : wf s → 0 ≤ call_entity c → step s c = Some s' → wf s'.
Proof.
  intros Hwf He Hstep. destruct c as [e v|e]; simpl in *.
  - destruct (Add s e v) as [[x s'']|] eqn:Hadd; simplify_eq/=. by eapply Add_wf.
  - destruct (Remove s e) as [[b s'']|] eqn:Hrem; simplify_eq/=. by eapply Remove_wf.
Qed.

Lemma step_max s c s' : step s c = Some s' → m_MaxEntities s' = m_MaxEntities s.
Proof.
  intros Hstep. destruct c as [e v|e]; simpl in *.
  - destruct (Add s e v) as [[x s'']|] eqn:Hadd; simplify_eq/=. by eapply Add_max.
  - destruct (Remove s e) as [[b s'']|] eqn:Hrem; simplify_eq/=. by eapply Remove_max.
Qed.

Lemma run_max cs : ∀ s s',
  run s cs = Some s' → m_MaxEntities s' = m_MaxEntities s.
Proof.
  induction cs as [|c cs IH]; intros s s' Hrun; simpl in Hrun.
  - by injection Hrun as <-.
  - destruct (step s c) as [s1|] eqn:Hstep; simplify_eq/=.
    rewrite (IH _ _ Hrun). by eapply step_max.
Qed.

Lemma run_wf cs : ∀ s s',
  wf s → Forall (λ c, 0 ≤ call_entity c) cs → run s cs = Some s' → wf s'.
Proof.
  induction cs as [|c cs IH]; intros s s' Hwf Hcs Hrun; simpl in Hrun.
  - by injection Hrun as <-.
  - apply Forall_cons_1 in Hcs as [Hc Hcs].
    destruct (step s c) as [s1|] eqn:Hstep; simplify_eq/=.
    eapply (IH s1); [|done..]. by eapply step_wf.
Qed.

(** A step that leaves room keeps the second half of the linking. *)
Lemma step_back_linked s c s' :
  wf s → back_linked s → has_room s → 0 ≤ call_entity c →
  step s c = Some s' → back_linked s'.
Proof.
  intros Hwf Hback Hroom He Hstep. destruct c as [e v|e]; simpl in *.
  - destruct (Add s e v) as [[x s'']|] eqn:Hadd; simplify_eq/=.
    destruct (Add_inv _ _ _ _ _ Hwf He Hadd)
      as [Hlt [(_ & -> & _) | (_ & _ & -> & Hx & Hsz)]]; [done|].
    apply back_linked_added; done || lia.
  - destruct (Remove s e) as [[b s'']|] eqn:Hrem; simplify_eq/=.
    destruct (Remove_inv _ _ _ _ Hwf He Hrem)
      as [Hlt [(_ & _ & ->) | (_ & _ & x & l & Hx & Hne & Hl & ->)]]; [done|].
    apply back_linked_removed; done || lia.
Qed.

Lemma peak_here s cs : vec_size (m_DenseSet s) ≤ peak s cs.
Proof. destruct cs as [|c cs]; simpl; [lia|]. destruct (step s c); lia. Qed.

Lemma run_back_linked cs : ∀ s s',
  wf s → back_linked s → Forall (λ c, 0 ≤ call_entity c) cs →
  peak s cs ≤ sentinel s → run s cs = Some s' → back_linked s'.
Proof.
  induction cs as [|c cs IH]; intros s s' Hwf Hback Hcs Hpeak Hrun; simpl in *.
  - by injection Hrun as <-.
  - apply Forall_cons_1 in Hcs as [Hc Hcs].
    destruct (step s c) as [s1|] eqn:Hstep; simplify_eq/=.
    assert (Hsent : sentinel s1 = sentinel s).
    { unfold sentinel. by rewrite (step_max _ _ _ Hstep). }
    eapply (IH s1); [by eapply step_wf| |done| |done].
    + eapply step_back_linked; [done..| |done|done]. unfold has_room. lia.
    + rewrite Hsent. lia.
Qed.

(** *** Counting dense entries *)

(** Under the second half of the linking, dense entries carry distinct
    entities, so there are no more of them than entity IDs to carry. *)
Lemma back_linked_NoDup s : back_linked s → NoDup (entity <$> m_DenseSet s).
Proof.
  intros Hback. apply NoDup_alt. intros i j a Hi Hj.
  apply list_lookup_fmap_Some in Hi as (di & -> & Hi).
  apply list_lookup_fmap_Some in Hj as (dj & Heq & Hj).
  apply Hback in Hi. apply Hback in Hj. rewrite <- Heq, Hi in Hj.
  injection Hj as Hj. lia.
Qed.

Lemma dense_count s m :
  back_linked s → 0 ≤ m → (∀ d, d ∈ m_DenseSet s → 0 ≤ entity d < m) →
  vec_size (m_DenseSet s) ≤ m.
Proof.
  intros Hback Hm Hd.
  assert (Hsub : (entity <$> m_DenseSet s) ⊆+ seqZ 0 m).
  { apply NoDup_submseteq; [by apply back_linked_NoDup|].
    intros a (d & -> & Hin)%list_elem_of_fmap. apply elem_of_seqZ.
    specialize (Hd d Hin). lia. }
  apply submseteq_length in Hsub. rewrite length_fmap, length_seqZ in Hsub.
  unfold vec_size. lia.
Qed.

Lemma below_sentinel_new c : 0 ≤ c < size_t_modulus → below_sentinel (new (T:=T) c).
Proof.
  intros Hc. split.
  - by apply wf_new.
  - intros i d Hd. done.
  - unfold has_room. simpl. apply sentinel_range.
  - intros d Hd. by apply elem_of_nil in Hd.
Qed.

Lemma below_sentinel_count s :
  below_sentinel s → 0 < m_MaxEntities s → vec_size (m_DenseSet s) ≤ m_MaxEntities s - 1.
Proof.
  intros [Hwf Hback Hroom Hids] Hc. apply dense_count; [done|lia|].
  intros d Hd. pose proof (wf_dense _ Hwf d Hd). specialize (Hids d Hd). lia.
Qed.

Lemma step_below_sentinel s c s' :
  below_sentinel s → 0 ≤ call_entity c < m_MaxEntities s - 1 →
  step s c = Some s' → below_sentinel s'.
Proof.
  intros Hbs He Hstep. pose proof Hbs as [Hwf Hback Hroom Hids].
  pose proof (wf_cap _ Hwf) as Hcap.
  assert (Hsent : sentinel s = m_MaxEntities s - 1) by (apply sentinel_pos; lia).
  destruct c as [e v|e]; simpl in *.
  - destruct (Add s e v) as [[x s'']|] eqn:Hadd; simplify_eq/=.
    destruct (Add_inv _ _ _ _ _ Hwf (proj1 He) Hadd)
      as [Hlt [(_ & -> & _) | (_ & _ & -> & Hx & Hsz)]]; [done|].
    assert (Hback' : back_linked (added s e v)) by (apply back_linked_added; done || lia).
    assert (Hids' : ∀ d, d ∈ m_DenseSet (added s e v) → entity d < m_MaxEntities s - 1).
    { simpl. intros d [Hd | ->%list_elem_of_singleton]%elem_of_app; [by apply Hids|].
      simpl. lia. }
    assert (Hwf' : wf (added s e v)) by (apply wf_added; done || lia).
    split; [done..| |done].
    unfold has_room. change (sentinel (added s e v)) with (sentinel s). rewrite Hsent.
    apply dense_count; [done|lia|].
    intros d Hd. pose proof (wf_dense _ Hwf' d Hd). specialize (Hids' d Hd).
    simpl in *. lia.
  - destruct (Remove s e) as [[b s'']|] eqn:Hrem; simplify_eq/=.
    destruct (Remove_inv _ _ _ _ Hwf (proj1 He) Hrem)
      as [Hlt [(_ & _ & ->) | (_ & _ & x & l & Hx & Hne & Hl & ->)]]; [done|].
    split.
    + apply wf_removed; done || lia.
    + apply back_linked_removed; done || lia.
    + apply has_room_removed; done || lia.
    + intros d [j Hj]%list_elem_of_lookup. change (m_MaxEntities (removed s e x l)) with (m_MaxEntities s).
      rewrite (removed_dense_lookup s e x l) in Hj by (done || lia).
      case_decide; [|done]. case_decide.
      * injection Hj as <-. apply Hids. by eapply list_elem_of_lookup_2.
      * apply Hids. by eapply list_elem_of_lookup_2.
Qed.

(** A step on such a pool always returns. *)
Lemma step_below_sentinel_total s c :
  below_sentinel s → 0 ≤ call_entity c < m_MaxEntities s - 1 → is_Some (step s c).
Proof.
  intros Hbs He. pose proof Hbs as [Hwf Hback Hroom Hids].
  pose proof (wf_cap _ Hwf) as Hcap.
  pose proof (below_sentinel_count s Hbs) as Hcount.
  destruct c as [e v|e]; simpl in *.
  - destruct (Add_total s e v) as [[x s'] ->]; [done|lia|lia|done].
  - destruct (Remove_total s e) as [[b s'] ->]; [done|lia|done].
Qed.

Lemma run_below_sentinel cs : ∀ s,
  below_sentinel s → Forall (λ c, 0 ≤ call_entity c < m_MaxEntities s - 1) cs →
  ∃ s', run s cs = Some s' ∧ below_sentinel s'.
Proof.
  induction cs as [|c cs IH]; intros s Hbs Hcs; simpl.
  - by exists s.
  - apply Forall_cons_1 in Hcs as [Hc Hcs].
    destruct (step_below_sentinel_total s c Hbs Hc) as [s1 Hstep].
    rewrite Hstep. simpl. apply IH.
    + by eapply step_below_sentinel.
    + by rewrite (step_max _ _ _ Hstep).
Qed.

Lemma peak_below_sentinel cs : ∀ s,
  below_sentinel s → Forall (λ c, 0 ≤ call_entity c < m_MaxEntities s - 1) cs →
  0 < m_MaxEntities s → peak s cs ≤ m_MaxEntities s - 1.
Proof.
  induction cs as [|c cs IH]; intros s Hbs Hcs Hpos; simpl.
  - by apply below_sentinel_count.
  - apply Forall_cons_1 in Hcs as [Hc Hcs].
    pose proof (below_sentinel_count s Hbs Hpos) as Hcount.
    destruct (step s c) as [s1|] eqn:Hstep; [|done].
    pose proof (step_max _ _ _ Hstep) as Hmax.
    apply Z.max_lub; [done|]. rewrite <- Hmax. apply IH.
    + by eapply step_below_sentinel.
    + by rewrite Hmax.
    + by rewrite Hmax.
Qed.

(** On a fully linked pool with room every stored entity is seen by
    [Has]. *)
Lemma stored_Has s e v :
  wf s → back_linked s → has_room s → stored s e v → Has s e = Some true.
Proof.
  intros Hwf Hback Hroom [i Hi]%list_elem_of_lookup.
  pose proof (wf_dense _ Hwf _ (list_elem_of_lookup_2 _ _ _ Hi)) as He.
  pose proof (Hback _ _ Hi) as Hs. simpl in *.
  rewrite (Has_eq s e (Z.of_nat i)) by (done || lia).
  rewrite bool_decide_true; [done|].
  apply lookup_lt_Some in Hi. unfold has_room, vec_size in Hroom. lia.
Qed.

(** *** Filling a pool to capacity *)

Lemma fill_cons v j n :
  0 < n → fill v j n = CallAdd j v :: fill v (j + 1) (n - 1).
Proof. intros Hn. unfold fill. by rewrite seqZ_cons by done. Qed.

Lemma seqZ_snoc j : 0 ≤ j → seqZ 0 (j + 1) = seqZ 0 j ++ [j].
Proof. intros Hj. rewrite seqZ_app by lia. reflexivity. Qed.

Lemma run_fill c v (n : nat) : ∀ j s,
  wf s → m_MaxEntities s = c → 0 ≤ j → j + Z.of_nat n = c →
  m_DenseSet s = (λ i, Entry i v) <$> seqZ 0 j →
  (∀ i, 0 ≤ i < j → vec_at (m_SparseSet s) i = Some i) →
  (∀ i, j ≤ i < c → vec_at (m_SparseSet s) i = Some (sentinel s)) →
  ∃ s', run s (fill v j (Z.of_nat n)) = Some s' ∧
        m_MaxEntities s' = c ∧
        m_DenseSet s' = (λ i, Entry i v) <$> seqZ 0 c ∧
        (∀ i, 0 ≤ i < c → vec_at (m_SparseSet s') i = Some i).
Proof.
  induction n as [|n IH]; intros j s Hwf Hc Hj Hjn Hdense Hlow Hhigh.
  - exists s. assert (j = c) as -> by lia. by rewrite Hdense.
  - rewrite fill_cons by lia.
    replace (Z.of_nat (S n) - 1) with (Z.of_nat n) by lia.
    pose proof (wf_cap _ Hwf) as Hcap. pose proof (wf_sparse _ Hwf) as Hsp.
    assert (Hsize : vec_size (m_DenseSet s) = j).
    { unfold vec_size. rewrite Hdense, length_fmap, length_seqZ. lia. }
    simpl. rewrite Add_absent by (try apply Hhigh; lia). simpl.
    apply IH.
    + apply wf_added; [done|lia|lia].
    + done.
    + lia.
    + lia.
    + simpl. rewrite Hdense, seqZ_snoc by done. by rewrite fmap_app.
    + intros i Hi. simpl. rewrite vec_at_insert by lia. rewrite Hsize.
      case_decide; [by subst | apply Hlow; lia].
    + intros i Hi. simpl. rewrite vec_at_insert by lia.
      rewrite decide_False by lia. apply Hhigh. lia.
Qed.

(** *** Values seen through [Get] *)

Lemma Get_stored s e v :
  wf s → back_linked s → Has s e = Some true → stored s e v → Get s e = Some v.
Proof.
  intros Hwf Hback Hhas [j Hj]%list_elem_of_lookup.
  apply Has_inv in Hhas as (He & x & Hx & Hb).
  apply eq_sym, bool_decide_eq_true in Hb.
  pose proof (Hback _ _ Hj) as Hs. simpl in Hs. rewrite Hx in Hs. injection Hs as ->.
  rewrite (Get_eq s e (Z.of_nat j) (Entry e v)); [done|lia|done|done|].
  by rewrite vec_at_nat.
Qed.

Lemma Get_inv s e v :
  wf s → Get s e = Some v → Has s e = Some true ∧ stored s e v.
Proof.
  intros Hwf Hget. unfold Get, PECS_ASSERT in Hget.
  case_decide as He; [|done].
  destruct (Has s e) as [[]|] eqn:Hhas; simpl in Hget; [|done..].
  split; [done|].
  apply Has_inv in Hhas as (_ & x & Hx & Hb).
  apply eq_sym, bool_decide_eq_true in Hb.
  destruct (wf_fwd _ Hwf e x Hx Hb) as (d & Hd & Hde).
  rewrite Hx in Hget. simpl in Hget. rewrite Hd in Hget. simpl in Hget.
  injection Hget as <-. apply vec_at_elem_of in Hd.
  unfold stored. by destruct d; simplify_eq/=.
Qed.

(** *** What [Has] and [Get] answer after a call *)

Lemma Has_new c e : 0 ≤ e < c → Has (new (T:=T) c) e = Some false.
Proof.
  intros He. rewrite (Has_eq _ e (sentinel (new (T:=T) c))); [|simpl; lia|].
  - rewrite bool_decide_false; [done|]. intros Hne. by apply Hne.
  - simpl. apply vec_at_Some. split; [lia|]. apply lookup_replicate_2. lia.
Qed.

Lemma added_Has s e v :
  wf s → 0 ≤ e < m_MaxEntities s → vec_size (m_DenseSet s) ≠ sentinel s →
  Has (added s e v) e = Some true.
Proof.
  intros Hwf He Hne. pose proof (wf_sparse _ Hwf) as Hsp.
  rewrite (Has_eq _ e (vec_size (m_DenseSet s))); [|simpl; lia|].
  - by rewrite bool_decide_true.
  - simpl. rewrite vec_at_insert by lia. by rewrite decide_True.
Qed.

Lemma added_Get s e v :
  wf s → 0 ≤ e < m_MaxEntities s → vec_size (m_DenseSet s) ≠ sentinel s →
  Get (added s e v) e = Some v.
Proof.
  intros Hwf He Hne. pose proof (wf_sparse _ Hwf) as Hsp.
  rewrite (Get_eq _ e (vec_size (m_DenseSet s)) (Entry e v)); [done|simpl; lia| |done|].
  - simpl. rewrite vec_at_insert by lia. by rewrite decide_True.
  - simpl. unfold vec_size. rewrite vec_at_nat.
    rewrite lookup_app_r by lia. by rewrite Nat.sub_diag.
Qed.

(** When the entity is seen after [Add], [Get] returns what [Add]
    returned. *)
Lemma Add_Get s e v x s' :
  wf s → 0 ≤ e → Add s e v = Some (x, s') → Has s' e = Some true →
  Get s' e = Some x.
Proof.
  intros Hwf He Hadd Hhas.
  destruct (Add_inv _ _ _ _ _ Hwf He Hadd)
    as [Hlt [(_ & -> & Hget) | (_ & -> & -> & Hx & Hsz)]]; [done|].
  apply added_Get; [done|lia|]. intros Heq.
  apply Has_inv in Hhas as (_ & i & Hi & Hb).
  apply eq_sym, bool_decide_eq_true in Hb. simpl in Hi.
  pose proof (wf_sparse _ Hwf) as Hsp.
  rewrite vec_at_insert in Hi by lia. rewrite decide_True in Hi by done.
  injection Hi as <-. by apply Hb.
Qed.

Lemma Remove_Has s e b s' :
  wf s → 0 ≤ e → Remove s e = Some (b, s') → Has s' e = Some false.
Proof.
  intros Hwf He Hrem.
  destruct (Remove_inv _ _ _ _ Hwf He Hrem)
    as [Hlt [(Hhas & _ & ->) | (_ & _ & x & l & Hx & Hne & Hl & ->)]]; [done|].
  rewrite (Has_eq _ e (sentinel s)); [|simpl; lia|].
  - rewrite bool_decide_false; [done|]. intros Hn. by apply Hn.
  - rewrite removed_sparse_at by (done || lia). by rewrite decide_True.
Qed.

Lemma Remove_back_linked s e b s' :
  wf s → back_linked s → 0 ≤ e → Remove s e = Some (b, s') → back_linked s'.
Proof.
  intros Hwf Hback He Hrem.
  destruct (Remove_inv _ _ _ _ Hwf He Hrem)
    as [Hlt [(_ & _ & ->) | (_ & _ & x & l & Hx & Hne & Hl & ->)]]; [done|].
  apply back_linked_removed; done || lia.
Qed.

Lemma Remove_has_room s e b s' :
  wf s → has_room s → 0 ≤ e → Remove s e = Some (b, s') → has_room s'.
Proof.
  intros Hwf Hroom He Hrem.
  destruct (Remove_inv _ _ _ _ Hwf He Hrem)
    as [Hlt [(_ & _ & ->) | (_ & _ & x & l & Hx & Hne & Hl & ->)]]; [done|].
  apply has_room_removed; done || lia.
Qed.

(** After [Remove] on a fully linked pool with room the entity has no
    dense entry left. *)
Lemma Remove_not_stored s e b s' v :
  wf s → back_linked s → has_room s → 0 ≤ e →
  Remove s e = Some (b, s') → ¬ stored s' e v.
Proof.
  intros Hwf Hback Hroom He Hrem Hst.
  pose proof (Remove_Has _ _ _ _ Hwf He Hrem) as Hhas.
  rewrite (stored_Has s' e v) in Hhas; [done| | | |done].
  - by eapply Remove_wf.
  - by eapply Remove_back_linked.
  - by eapply Remove_has_room.
Qed.

Lemma Remove_below_sentinel s e b s' :
  below_sentinel s → 0 ≤ e → Remove s e = Some (b, s') → below_sentinel s'.
Proof.
  intros [Hwf Hback Hroom Hids] He Hrem.
  destruct (Remove_inv _ _ _ _ Hwf He Hrem)
    as [Hlt [(_ & _ & ->) | (_ & _ & x & l & Hx & Hne & Hl & ->)]]; [done|].
  split.
  - apply wf_removed; done || lia.
  - apply back_linked_removed; done || lia.
  - apply has_room_removed; done || lia.
  - intros d [j Hj]%list_elem_of_lookup.
    change (m_MaxEntities (removed s e x l)) with (m_MaxEntities s).
    rewrite (removed_dense_lookup s e x l) in Hj by (done || lia).
    case_decide; [|done]. case_decide.
    + injection Hj as <-. apply Hids. by eapply list_elem_of_lookup_2.
    + apply Hids. by eapply list_elem_of_lookup_2.
Qed.

(** A call about another entity does not make the pool see an entity it
    did not see. *)
Lemma step_other_Has s c s' e :
  wf s → back_linked s → has_room s → Has s e = Some false →
  0 ≤ call_entity c → call_entity c ≠ e → step s c = Some s' →
  Has s' e = Some false.
Proof.
  intros Hwf Hback Hroom Hhas Hc Hne Hstep.
  pose proof Hhas as (He & i & Hi & Hb)%Has_inv.
  apply eq_sym, bool_decide_eq_false in Hb.
  assert (i = sentinel s) as -> by (by destruct (decide (i = sentinel s)); [|exfalso; auto]).
  pose proof (wf_sparse _ Hwf) as Hsp.
  destruct c as [e' v|e']; simpl in *.
  - destruct (Add s e' v) as [[x s'']|] eqn:Hadd; simplify_eq/=.
    destruct (Add_inv _ _ _ _ _ Hwf Hc Hadd)
      as [Hlt [(_ & -> & _) | (_ & _ & -> & Hx & Hsz)]]; [done|].
    rewrite (Has_eq _ e (sentinel s)); [|simpl; lia|].
    + by rewrite bool_decide_false by (by intros Hn; apply Hn).
    + simpl. rewrite vec_at_insert by lia. by rewrite decide_False by done.
  - destruct (Remove s e') as [[b s'']|] eqn:Hrem; simplify_eq/=.
    destruct (Remove_inv _ _ _ _ Hwf Hc Hrem)
      as [Hlt [(_ & _ & ->) | (_ & _ & x & l & Hx & Hnx & Hl & ->)]]; [done|].
    rewrite (Has_eq _ e (sentinel s)); [|simpl; lia|].
    + by rewrite bool_decide_false by (by intros Hn; apply Hn).
    + rewrite removed_sparse_at by (done || lia).
      rewrite decide_False by done. rewrite decide_False; [done|].
      intros ->. destruct l as [le lv]. simpl in *.
      rewrite (stored_Has s le lv) in Hhas; [done..|].
      by eapply list_elem_of_lookup_2.
Qed.

(** *** The claims about the pool, and the linking invariant *)

(** Claim C2.  For a pool of capacity [c] (at least 1) there is a sequence
    of [Add] calls, with distinct entity IDs all below [c], after which
    the component of some entity [e] sits at dense index [c - 1]; for
    that entity [Has] answers [false] although its entry is in the dense
    vector: its sparse slot holds the sentinel, exactly as for an entity
    that was never added. *)
Theorem sentinel_collision (c : Z) (v : T) :
  0 < c < size_t_modulus →
  ∃ (cs : list (call T)) (e : Z) (s : SparseSet.t T),
    Forall (λ call, is_add call ∧ 0 ≤ call_entity call < c) cs ∧
    NoDup (call_entity <$> cs) ∧
    run (new c) cs = Some s ∧
    vec_at (m_DenseSet s) (c - 1) = Some (Entry e v) ∧
    stored s e v ∧
    vec_at (m_SparseSet s) e = Some (sentinel s) ∧
    Has s e = Some false.
Proof.
  intros Hc.
  destruct (run_fill c v (Z.to_nat c) 0 (new c)) as (s & Hrun & Hmax & Hdense & Hsparse).
  - apply wf_new. lia.
  - done.
  - done.
  - lia.
  - done.
  - intros i Hi. lia.
  - intros i Hi. simpl. apply vec_at_Some. split; [lia|].
    apply lookup_replicate_2. lia.
  - rewrite Z2Nat.id in Hrun by lia.
    assert (Hsent : sentinel s = c - 1) by (rewrite <- Hmax; apply sentinel_pos; lia).
    assert (Hat : vec_at (m_DenseSet s) (c - 1) = Some (Entry (c - 1) v)).
    { apply vec_at_Some. split; [lia|]. rewrite Hdense, list_lookup_fmap.
      rewrite lookup_seqZ_lt by lia. simpl. do 2 f_equal. lia. }
    exists (fill v 0 c), (c - 1), s. split_and!.
    + unfold fill. apply Forall_fmap, Forall_seqZ. intros j Hj. simpl. lia.
    + unfold fill. rewrite <- list_fmap_compose.
      rewrite (list_fmap_ext _ id) by done. rewrite list_fmap_id. apply NoDup_seqZ.
    + done.
    + done.
    + by eapply vec_at_elem_of.
    + rewrite Hsent. apply Hsparse. lia.
    + rewrite (Has_eq s (c - 1) (c - 1)); [|lia|apply Hsparse; lia].
      rewrite bool_decide_false; [done|]. rewrite Hsent. by intros Hn; apply Hn.
Qed.

(** X17: what holds of the linking invariant.  In every pool reached
    from the empty pool by [Add] and [Remove] calls with entity IDs below
    the capacity, every sparse slot that is not the sentinel indexes a
    dense entry of that entity.  The converse direction, that every
    dense index is the sparse entry of its entity, holds as long as the
    dense vector has held fewer than [capacity] entries throughout the
    run, which is the case whenever all entity IDs are below
    [capacity - 1]. *)
Theorem linking_invariant (c : Z) (cs : list (call T)) (s : SparseSet.t T) :
  0 ≤ c < size_t_modulus →
  Forall (λ call, 0 ≤ call_entity call < c) cs →
  run (new c) cs = Some s →
  fwd_linked s ∧
  (peak (new c) cs < c → back_linked s) ∧
  (Forall (λ call, call_entity call < c - 1) cs →
     (0 < c → peak (new c) cs < c) ∧ back_linked s ∧ has_room s).
Proof.
  intros Hc Hcs Hrun.
  assert (Hcs0 : Forall (λ call : call T, 0 ≤ call_entity call) cs).
  { apply Forall_forall. intros call Hin.
    pose proof (proj1 (Forall_forall _ _) Hcs call Hin). simpl in *. lia. }
  assert (Hwf : wf s) by (eapply run_wf; [by apply wf_new|done..]).
  assert (Hpeak : peak (new c) cs < c → back_linked s).
  { intros Hpeak. eapply run_back_linked; [by apply wf_new| |done| |done].
    - intros i d Hd. done.
    - pose proof (sentinel_ge (new (T:=T) c) Hc). simpl in *. lia. }
  split_and!.
  - intros e i. apply (wf_fwd _ Hwf).
  - done.
  - intros Hlow.
    assert (Hlow' : Forall (λ call : call T,
               0 ≤ call_entity call < m_MaxEntities (new (T:=T) c) - 1) cs).
    { simpl. apply Forall_forall. intros call Hin.
      pose proof (proj1 (Forall_forall _ _) Hcs call Hin).
      pose proof (proj1 (Forall_forall _ _) Hlow call Hin). simpl in *. lia. }
    destruct (run_below_sentinel cs (new c)) as (s' & Hrun' & Hbs);
      [by apply below_sentinel_new|done|].
    rewrite Hrun in Hrun'. injection Hrun' as <-.
    split_and!; [|apply Hbs..].
    intros Hc0.
    pose proof (peak_below_sentinel cs (new c) (below_sentinel_new c Hc) Hlow' Hc0).
    simpl in *. lia.
Qed.

(** Claim C6.  On a pool that satisfies the linking invariant, removing
    an entity [e] that the pool has returns [true] and shortens the dense
    vector by exactly one; the entry that was last is written to the slot
    of [e] before the vector is shortened, so unless [e] was itself last
    that entry now sits in the former slot of [e] and its sparse entry
    names that slot; the sparse slot of [e] holds the sentinel; the
    invariant still holds; and every other entity keeps its entry and
    its value. *)
Theorem removal_compaction (s : SparseSet.t T) (e : Z) :
  wf s → back_linked s → Has s e = Some true →
  ∃ (index : Z) (lastEntry : DenseSetEntry T) (s' : SparseSet.t T),
    vec_at (m_SparseSet s) e = Some index ∧
    back (m_DenseSet s) = Some lastEntry ∧
    Remove s e = Some (true, s') ∧
    vec_size (m_DenseSet s') = vec_size (m_DenseSet s) - 1 ∧
    m_DenseSet s' = take (length (m_DenseSet s) - 1)%nat
                      (<[Z.to_nat index := lastEntry]> (m_DenseSet s)) ∧
    (index < vec_size (m_DenseSet s) - 1 →
       vec_at (m_DenseSet s') index = Some lastEntry ∧
       vec_at (m_SparseSet s') (entity lastEntry) = Some index) ∧
    vec_at (m_SparseSet s') e = Some (sentinel s') ∧
    Has s' e = Some false ∧
    wf s' ∧ linked s' ∧
    (∀ e' v, e' ≠ e → stored s' e' v ↔ stored s e' v) ∧
    (∀ e' v, e' ≠ e → Get s e' = Some v → Get s' e' = Some v).
Proof.
  intros Hwf Hback Hhas.
  apply Has_inv in Hhas as (He & x & Hx & Hb).
  apply eq_sym, bool_decide_eq_true in Hb.
  destruct (Remove_present s e x Hwf (proj2 He) Hx Hb) as (l & Hl & Hrem).
  pose proof (removed_slot_bound s e x Hwf Hx Hb) as Hxb.
  pose proof (wf_removed s e x l Hwf He Hx Hb Hl) as Hwf'.
  pose proof (back_linked_removed s e x l Hwf He Hx Hb Hl Hback) as Hback'.
  assert (Hse : vec_at (m_SparseSet (removed s e x l)) e = Some (sentinel s)).
  { rewrite removed_sparse_at by done. by rewrite decide_True. }
  exists x, l, (removed s e x l). split_and!.
  - done.
  - unfold back. rewrite last_lookup. rewrite <- Hl. f_equal. lia.
  - done.
  - by apply removed_size.
  - done.
  - intros Hlt. split.
    + apply vec_at_Some. split; [lia|]. rewrite removed_dense_lookup by done.
      rewrite decide_True by (unfold vec_size in Hlt; lia). by rewrite decide_True.
    + rewrite removed_sparse_at by done.
      rewrite decide_False.
      2:{ intros Hy. pose proof (Hback _ _ Hl) as Hsl. rewrite Hy, Hx in Hsl.
          injection Hsl as Hsl. unfold vec_size in Hlt. lia. }
      by rewrite decide_True.
  - done.
  - rewrite (Has_eq _ e (sentinel s)); [|simpl; lia|done].
    rewrite bool_decide_false; [done|]. intros Hne. by apply Hne.
  - done.
  - split; [|done]. intros e' i. apply (wf_fwd _ Hwf').
  - intros e' v Hne. by apply stored_removed.
  - intros e' v Hne Hget.
    apply Get_inv in Hget as [Hhas' Hst]; [|done].
    apply Get_stored; [done|done| |by apply stored_removed].
    apply Has_inv in Hhas' as (He' & i & Hi & Hbi).
    apply eq_sym, bool_decide_eq_true in Hbi.
    rewrite (Has_eq _ e' (if decide (e' = entity l) then x else i)); [|simpl; lia|].
    + rewrite bool_decide_true; [done|].
      change (sentinel (removed s e x l)) with (sentinel s). by case_decide.
    + rewrite removed_sparse_at by done. rewrite decide_False by done.
      by case_decide.
Qed.

End SparseSetFacts.

(** ** The registry *)

Section ForEachPool.
Context `{Countable K} {V : Type}.
Implicit Types (body : V → option V) (pools : gmap K V).

Lemma for_each_pool_total body pools :
  (∀ k pool, pools !! k = Some pool → is_Some (body pool)) →
  for_each_pool body pools = Some (omap body pools).
Proof. intros Hall. unfold for_each_pool. by rewrite decide_True. Qed.

Lemma for_each_pool_inv body pools pools' :
  for_each_pool body pools = Some pools' →
  (∀ k pool, pools !! k = Some pool → is_Some (body pool)) ∧
  ∀ k, pools' !! k = pools !! k ≫= body.
Proof.
  unfold for_each_pool. case_decide as Hall; [|done]. intros [= <-].
  split; [done|]. intros k. apply lookup_omap.
Qed.

Lemma for_each_pool_dom body pools pools' :
  for_each_pool body pools = Some pools' → dom pools' = dom pools.
Proof.
  intros [Hall Hlook]%for_each_pool_inv. apply set_eq. intros k.
  rewrite !elem_of_dom, Hlook. split.
  - intros [p' Hp']. destruct (pools !! k); [done|]. done.
  - intros [p Hp]. rewrite Hp. simpl. by eapply Hall.
Qed.
End ForEachPool.

Section ECSInstanceFacts.
Import ECSInstance.
Context `{Countable type_index} {T : Type}.
Implicit Types (r : ECSInstance.t type_index T) (key : type_index) (e : Z) (v : T).
Implicit Types (pool : SparseSet.t T).

Lemma registry_wf_new max :
  0 ≤ max < unsigned_int_modulus → wf (new max : ECSInstance.t type_index T).
Proof.
  intros Hmax. split; simpl; [done|lia|]. intros key pool Hp.
  by rewrite lookup_empty in Hp.
Qed.

Lemma wf_modulus r : wf r → 0 ≤ m_MaxEntities r < size_t_modulus.
Proof.
  intros Hwf. pose proof (wf_max _ Hwf). unfold unsigned_int_modulus, size_t_modulus in *.
  lia.
Qed.

(** The high-water mark stays far below [2^64]: its increment never
    wraps. *)
Lemma next_no_wrap r : wf r → wrap (m_NextEntity r + 1) = m_NextEntity r + 1.
Proof.
  intros Hwf. pose proof (wf_max _ Hwf). pose proof (wf_next _ Hwf).
  apply wrap_small. unfold unsigned_int_modulus, size_t_modulus in *. lia.
Qed.

Lemma with_pool_same r key pool :
  m_ComponentPools r !! key = Some pool → with_pool r key pool = r.
Proof. intros Hp. destruct r. unfold with_pool. simpl in *. by rewrite insert_id. Qed.

Lemma with_pool_twice r key pool pool' :
  with_pool (with_pool r key pool) key pool' = with_pool r key pool'.
Proof. unfold with_pool. simpl. by rewrite insert_insert_eq. Qed.

Lemma wf_with_pool r key pool :
  wf r → SparseSet.wf pool → SparseSet.m_MaxEntities pool = m_MaxEntities r →
  wf (with_pool r key pool).
Proof.
  intros Hwf Hp Hmax. split; simpl; [apply Hwf..|].
  intros key' pool' Hl. rewrite lookup_insert in Hl. case_decide.
  - by injection Hl as <-.
  - by apply (wf_pools _ Hwf key').
Qed.

(** The pool [GetOrCreatePool] hands out. *)
Lemma GetOrCreatePool_wf r key :
  wf r →
  SparseSet.wf (GetOrCreatePool r key).1 ∧
  SparseSet.m_MaxEntities (GetOrCreatePool r key).1 = m_MaxEntities r.
Proof.
  intros Hwf. unfold GetOrCreatePool.
  destruct (m_ComponentPools r !! key) as [pool|] eqn:Hp; simpl.
  - by apply (wf_pools _ Hwf key).
  - split; [|done]. apply wf_new. by apply wf_modulus.
Qed.

Lemma AddComponent_eq r key e v :
  AddComponent r key e v =
    PECS_ASSERT (e < m_MaxEntities r) (
      '(x, pool') ← SparseSet.Add (GetOrCreatePool r key).1 e v;
      Some (x, with_pool r key pool')).
Proof.
  unfold AddComponent, GetOrCreatePool, PECS_ASSERT. case_decide; [|done].
  destruct (m_ComponentPools r !! key) as [pool|]; simpl; [done|].
  destruct (SparseSet.Add _ e v) as [[x pool']|]; simpl; [|done].
  by rewrite with_pool_twice.
Qed.

Lemma AddComponent_inv r key e v x r' :
  AddComponent r key e v = Some (x, r') →
  e < m_MaxEntities r ∧
  ∃ pool', SparseSet.Add (GetOrCreatePool r key).1 e v = Some (x, pool') ∧
           r' = with_pool r key pool'.
Proof.
  rewrite AddComponent_eq. unfold PECS_ASSERT. case_decide; [|done].
  destruct (SparseSet.Add _ e v) as [[x' pool']|] eqn:Hadd; simpl; [|done].
  intros [= <- <-]. eauto.
Qed.

Lemma RemoveComponent_inv r key e b r' :
  RemoveComponent r key e = Some (b, r') →
  e < m_MaxEntities r ∧
  ((TryGetPool r key = None ∧ b = false ∧ r' = r) ∨
   ∃ pool pool', TryGetPool r key = Some pool ∧
                 SparseSet.Remove pool e = Some (b, pool') ∧
                 r' = with_pool r key pool').
Proof.
  unfold RemoveComponent, PECS_ASSERT. case_decide; [|done].
  destruct (TryGetPool r key) as [pool|]; simpl.
  - destruct (SparseSet.Remove pool e) as [[b' pool']|] eqn:Hrem; simpl; [|done].
    intros [= <- <-]. split; [done|]. right. eauto.
  - intros [= <- <-]. split; [done|]. by left.
Qed.

Lemma DeleteEntity_inv r e r' :
  DeleteEntity r e = Some r' →
  e < m_MaxEntities r ∧
  vec_size (m_FreeEntities r) + 1 < size_t_modulus ∧
  m_MaxEntities r' = m_MaxEntities r ∧
  m_NextEntity r' = m_NextEntity r ∧
  m_FreeEntities r' = m_FreeEntities r ++ [e] ∧
  for_each_pool (λ pool, snd <$> SparseSet.Remove pool e) (m_ComponentPools r)
    = Some (m_ComponentPools r').
Proof.
  unfold DeleteEntity, PECS_ASSERT. case_decide; [|done].
  destruct (push_back _ e) as [free|] eqn:Hpush; simpl; [|done].
  apply push_back_inv in Hpush as [Hsz ->].
  destruct (for_each_pool _ _) as [pools|]; simpl; [|done].
  by intros [= <-].
Qed.

(** [DeleteEntity] returns for every entity in range, unless the free
    list has reached the largest size of a vector. *)
Lemma DeleteEntity_total r e :
  wf r → 0 ≤ e < m_MaxEntities r →
  vec_size (m_FreeEntities r) + 1 < size_t_modulus →
  is_Some (DeleteEntity r e).
Proof.
  intros Hwf He Hsz. unfold DeleteEntity, PECS_ASSERT.
  rewrite decide_True by lia. rewrite push_back_Some by done. simpl.
  rewrite for_each_pool_total; [done|].
  intros key pool Hp. destruct (wf_pools _ Hwf key pool Hp) as [Hpwf Hmax].
  destruct (Remove_total pool e) as [[b pool'] ->]; [done|lia|done].
Qed.

Lemma CreateEntity_inv r id r' :
  CreateEntity r = Some (id, r') →
  m_MaxEntities r' = m_MaxEntities r ∧
  m_ComponentPools r' = m_ComponentPools r ∧
  ((m_FreeEntities r = [] ∧ id = m_NextEntity r ∧
    wrap (m_NextEntity r + 1) < m_MaxEntities r ∧
    m_NextEntity r' = wrap (m_NextEntity r + 1) ∧ m_FreeEntities r' = []) ∨
   (m_FreeEntities r = m_FreeEntities r' ++ [id] ∧ m_NextEntity r' = m_NextEntity r)).
Proof.
  unfold CreateEntity, PECS_ASSERT. case_decide as Hfree.
  - case_decide; [|done]. intros [= <- <-]. simpl. split_and!; [done..|]. by left.
  - destruct (back (m_FreeEntities r)) as [id'|] eqn:Hback; simpl; [|done].
    apply last_Some in Hback as [free Hfree'].
    rewrite Hfree', pop_back_snoc. simpl. intros [= <- <-]. simpl.
    split_and!; [done..|]. by right.
Qed.

(** *** The invariant is kept *)

Lemma AddComponent_wf r key e v x r' :
  wf r → 0 ≤ e → AddComponent r key e v = Some (x, r') → wf r'.
Proof.
  intros Hwf He (Hlt & pool' & Hadd & ->)%AddComponent_inv.
  destruct (GetOrCreatePool_wf r key Hwf) as [Hpwf Hmax].
  apply wf_with_pool; [done| |].
  - by eapply Add_wf.
  - by rewrite (Add_max _ _ _ _ _ Hadd).
Qed.

Lemma RemoveComponent_wf r key e b r' :
  wf r → 0 ≤ e → RemoveComponent r key e = Some (b, r') → wf r'.
Proof.
  intros Hwf He [Hlt [(_ & _ & ->) | (pool & pool' & Hp & Hrem & ->)]]%RemoveComponent_inv;
    [done|].
  destruct (wf_pools _ Hwf key pool Hp) as [Hpwf Hmax].
  apply wf_with_pool; [done| |].
  - by eapply Remove_wf.
  - by rewrite (Remove_max _ _ _ _ Hrem).
Qed.

Lemma DeleteEntity_wf r e r' : wf r → 0 ≤ e → DeleteEntity r e = Some r' → wf r'.
Proof.
  intros Hwf He (Hlt & _ & Hmax & Hnext & _ & Hpools)%DeleteEntity_inv.
  apply for_each_pool_inv in Hpools as [_ Hlook].
  split; rewrite ?Hmax, ?Hnext; [apply Hwf..|].
  intros key pool' Hp'. rewrite Hlook in Hp'.
  destruct (m_ComponentPools r !! key) as [pool|] eqn:Hp; simpl in Hp'; [|done].
  destruct (wf_pools _ Hwf key pool Hp) as [Hpwf Hpmax].
  destruct (SparseSet.Remove pool e) as [[b p']|] eqn:Hrem; simplify_eq/=.
  split.
  - by eapply Remove_wf.
  - by rewrite (Remove_max _ _ _ _ Hrem).
Qed.

Lemma CreateEntity_wf r id r' : wf r → CreateEntity r = Some (id, r') → wf r'.
Proof.
  intros Hwf (Hmax & Hpools & Hcase)%CreateEntity_inv.
  pose proof (wf_modulus r Hwf) as Hmod. pose proof (wf_next _ Hwf) as Hnext.
  split; rewrite ?Hmax, ?Hpools; [apply Hwf| |apply Hwf].
  destruct Hcase as [(_ & _ & Hlt & -> & _) | (_ & ->)]; [|done].
  rewrite next_no_wrap in * by done. lia.
Qed.

Lemma registry_step_wf r c ids r' bound :
  wf r → ids_below bound c → step r c = Some (ids, r') → wf r'.
Proof.
  intros Hwf He Hstep. destruct c as [|e|key e v|key e]; simpl in *.
  - destruct (CreateEntity r) as [[id r1]|] eqn:Hc; simplify_eq/=.
    by eapply CreateEntity_wf.
  - destruct (DeleteEntity r e) as [r1|] eqn:Hd; simplify_eq/=.
    eapply DeleteEntity_wf; [done| |done]. lia.
  - destruct (AddComponent r key e v) as [[x r1]|] eqn:Ha; simplify_eq/=.
    eapply AddComponent_wf; [done| |done]. lia.
  - destruct (RemoveComponent r key e) as [[b r1]|] eqn:Hr; simplify_eq/=.
    eapply RemoveComponent_wf; [done| |done]. lia.
Qed.

Lemma step_max_entities r c ids r' :
  step r c = Some (ids, r') → m_MaxEntities r' = m_MaxEntities r.
Proof.
  intros Hstep. destruct c as [|e|key e v|key e]; simpl in *.
  - destruct (CreateEntity r) as [[id r1]|] eqn:Hc; simplify_eq/=.
    by apply CreateEntity_inv in Hc as (? & _).
  - destruct (DeleteEntity r e) as [r1|] eqn:Hd; simplify_eq/=.
    by apply DeleteEntity_inv in Hd as (_ & _ & ? & _).
  - destruct (AddComponent r key e v) as [[x r1]|] eqn:Ha; simplify_eq/=.
    by apply AddComponent_inv in Ha as (_ & pool' & _ & ->).
  - destruct (RemoveComponent r key e) as [[b r1]|] eqn:Hr; simplify_eq/=.
    by apply RemoveComponent_inv in Hr as [_ [(_ & _ & ->) | (? & ? & _ & _ & ->)]].
Qed.

(** Every registry reached from a new one satisfies the invariant. *)
Lemma registry_run_wf cs bound : ∀ r ids r',
  wf r → Forall (ids_below bound) cs → run r cs = Some (ids, r') → wf r'.
Proof.
  induction cs as [|c cs IH]; intros r ids r' Hwf Hcs Hrun; simpl in Hrun.
  - by injection Hrun as <- <-.
  - apply Forall_cons_1 in Hcs as [Hc Hcs].
    destruct (step r c) as [[ids1 r1]|] eqn:Hstep; simpl in Hrun; [|done].
    destruct (run r1 cs) as [[ids2 r2]|] eqn:Hrun1; simplify_eq/=.
    eapply (IH r1); [|done..]. by eapply registry_step_wf.
Qed.
(** *** Component queries after a pool was changed *)

Lemma TryGetPool_with_pool r key pool : TryGetPool (with_pool r key pool) key = Some pool.
Proof. unfold TryGetPool, with_pool. simpl. apply lookup_insert_eq. Qed.

Lemma HasComponent_with_pool r key pool e :
  e < m_MaxEntities r → HasComponent (with_pool r key pool) key e = SparseSet.Has pool e.
Proof.
  intros He. unfold HasComponent, PECS_ASSERT. rewrite TryGetPool_with_pool.
  simpl. by rewrite decide_True.
Qed.

Lemma GetComponent_with_pool r key pool e :
  e < m_MaxEntities r → SparseSet.Has pool e = Some true →
  GetComponent (with_pool r key pool) key e = SparseSet.Get pool e.
Proof.
  intros He Hhas. unfold GetComponent, PECS_ASSERT. rewrite TryGetPool_with_pool.
  simpl. rewrite decide_True by done. rewrite Hhas. done.
Qed.

Lemma HasComponent_inv r key e b :
  HasComponent r key e = Some b →
  e < m_MaxEntities r ∧
  ((TryGetPool r key = None ∧ b = false) ∨
   ∃ pool, TryGetPool r key = Some pool ∧ SparseSet.Has pool e = Some b).
Proof.
  unfold HasComponent, PECS_ASSERT. case_decide; [|done].
  destruct (TryGetPool r key) as [pool|].
  - intros Hhas. split; [done|]. right. eauto.
  - intros [= <-]. split; [done|]. by left.
Qed.

(** The pool [GetOrCreatePool] hands out has the entity exactly when
    [HasComponent] says so. *)
Lemma GetOrCreatePool_Has r key e b :
  0 ≤ e → HasComponent r key e = Some b →
  SparseSet.Has (GetOrCreatePool r key).1 e = Some b.
Proof.
  intros He0 [He [[Hnone ->] | (pool & Hp & Hhas)]]%HasComponent_inv;
    unfold GetOrCreatePool, TryGetPool in *.
  - rewrite Hnone. simpl. apply Has_new. lia.
  - by rewrite Hp.
Qed.

Lemma GetOrCreatePool_size r key :
  vec_size (SparseSet.m_DenseSet (GetOrCreatePool r key).1) = pool_size r key.
Proof.
  unfold GetOrCreatePool, pool_size, TryGetPool.
  by destruct (m_ComponentPools r !! key).
Qed.

Lemma RemoveComponent_Has r key e b r' :
  wf r → 0 ≤ e → RemoveComponent r key e = Some (b, r') →
  HasComponent r' key e = Some false.
Proof.
  intros Hwf He [Hlt [(Hnone & _ & ->) | (pool & pool' & Hp & Hrem & ->)]]%RemoveComponent_inv.
  - unfold HasComponent, PECS_ASSERT. rewrite Hnone. by rewrite decide_True.
  - rewrite HasComponent_with_pool by done.
    destruct (wf_pools _ Hwf key pool Hp) as [Hpwf _]. by eapply Remove_Has.
Qed.

(** *** Creating entities in a row *)

Lemma CreateEntity_fresh r :
  wf r → m_FreeEntities r = [] → m_NextEntity r + 1 < m_MaxEntities r →
  CreateEntity r = Some (m_NextEntity r,
                         {| m_MaxEntities := m_MaxEntities r;
                            m_NextEntity := m_NextEntity r + 1;
                            m_FreeEntities := [];
                            m_ComponentPools := m_ComponentPools r |}).
Proof.
  intros Hwf Hfree Hlt. unfold CreateEntity, PECS_ASSERT.
  rewrite decide_True by done. rewrite next_no_wrap by done.
  rewrite decide_True by done. by rewrite Hfree.
Qed.

Lemma CreateEntity_full r :
  wf r → m_FreeEntities r = [] → m_MaxEntities r ≤ m_NextEntity r + 1 →
  CreateEntity r = None.
Proof.
  intros Hwf Hfree Hge. unfold CreateEntity, PECS_ASSERT.
  rewrite decide_True by done. rewrite next_no_wrap by done.
  by rewrite decide_False by lia.
Qed.

Lemma create_n_fresh (n : nat) : ∀ r,
  wf r → m_FreeEntities r = [] →
  (n = 0%nat ∨ m_NextEntity r + Z.of_nat n < m_MaxEntities r) →
  create_n r n = Some (seqZ (m_NextEntity r) (Z.of_nat n),
                       {| m_MaxEntities := m_MaxEntities r;
                          m_NextEntity := m_NextEntity r + Z.of_nat n;
                          m_FreeEntities := [];
                          m_ComponentPools := m_ComponentPools r |}).
Proof.
  unfold create_n. induction n as [|n IH]; intros r Hwf Hfree Hn.
  - simpl. rewrite Z.add_0_r. destruct r; simpl in *. by subst.
  - destruct Hn as [|Hn]; [done|]. simpl.
    pose proof (CreateEntity_fresh r Hwf Hfree) as Hc.
    rewrite Hc by lia. simpl.
    rewrite IH; simpl.
    + rewrite (seqZ_cons _ (Z.of_nat (S n))) by lia.
      replace (Z.pred (Z.of_nat (S n))) with (Z.of_nat n) by lia.
      replace (Z.succ (m_NextEntity r)) with (m_NextEntity r + 1) by lia.
      do 3 f_equal. lia.
    + eapply CreateEntity_wf; [done|]. by apply Hc; lia.
    + done.
    + right. lia.
Qed.

(** *** Live entities *)

Lemma filter_ne_fresh (x : Z) (l : list Z) : x ∉ l → filter (λ y, y ≠ x) l = l.
Proof.
  induction l as [|y l IH]; intros Hx; [done|].
  apply not_elem_of_cons in Hx as [Hxy Hx].
  rewrite filter_cons_True by done. by rewrite IH.
Qed.

Lemma length_filter_ne (x : Z) (l : list Z) :
  NoDup l → x ∈ l → (length (filter (λ y, y ≠ x) l) + 1 = length l)%nat.
Proof.
  induction l as [|y l IH]; intros Hnd Hx; [by apply elem_of_nil in Hx|].
  apply NoDup_cons in Hnd as [Hy Hnd].
  destruct (decide (y = x)) as [->|Hne].
  - rewrite filter_cons_False by (intros Hn; by apply Hn).
    rewrite filter_ne_fresh by done. simpl. lia.
  - rewrite filter_cons_True by done. simpl.
    apply elem_of_cons in Hx as [?|Hx]; [congruence|].
    rewrite <- (IH Hnd Hx). lia.
Qed.

Lemma CreateEntity_recycle r (free : list Z) id :
  m_FreeEntities r = free ++ [id] →
  CreateEntity r = Some (id, {| m_MaxEntities := m_MaxEntities r;
                                m_NextEntity := m_NextEntity r;
                                m_FreeEntities := free;
                                m_ComponentPools := m_ComponentPools r |}).
Proof.
  intros Hf. unfold CreateEntity.
  rewrite decide_False by (rewrite Hf; by destruct free).
  rewrite Hf. unfold back. rewrite last_snoc. simpl.
  by rewrite pop_back_snoc.
Qed.

Lemma live_ok_new max :
  0 ≤ max < unsigned_int_modulus → live_ok (new max : ECSInstance.t type_index T) [].
Proof.
  intros Hmax. split; simpl.
  - done.
  - lia.
  - constructor.
  - constructor.
  - intros x Hx. by apply elem_of_nil in Hx.
  - intros x Hx. by apply elem_of_nil in Hx.
  - intros x Hx. by apply elem_of_nil in Hx.
  - reflexivity.
Qed.

(** An ID that [CreateEntity] returns is not live. *)
Lemma CreateEntity_not_live r live id r' :
  live_ok r live → CreateEntity r = Some (id, r') → id ∉ live.
Proof.
  intros Hok (_ & _ & Hcase)%CreateEntity_inv Hin.
  destruct Hcase as [(_ & -> & _) | (Hf & _)].
  - pose proof (lo_live_below _ _ Hok _ Hin). lia.
  - apply (lo_disjoint _ _ Hok _ Hin). rewrite Hf.
    apply elem_of_app. right. by apply list_elem_of_singleton.
Qed.

Lemma step_live_ok r live c ids r' :
  live_ok r live →
  match c with CallDeleteEntity e => e ∈ live | _ => True end →
  step r c = Some (ids, r') → live_ok r' (live_step live c ids).
Proof.
  intros Hok Hc Hstep. pose proof Hok as [Hmax Hnext Hlive Hfree Hdisj Hlb Hfb Hcount].
  destruct c as [|e|key e v|key e]; simpl in *.
  - destruct (CreateEntity r) as [[id r1]|] eqn:Hcr; simplify_eq/=.
    pose proof (CreateEntity_not_live _ _ _ _ Hok Hcr) as Hfresh.
    apply CreateEntity_inv in Hcr as (Hm' & _ & Hcase).
    assert (Hlive' : NoDup (live ++ [id])).
    { apply NoDup_app. split_and!; [done| |apply NoDup_singleton].
      intros x Hx ->%list_elem_of_singleton. done. }
    destruct Hcase as [(Hf & -> & Hlt & Hn' & Hf') | (Hf & Hn')].
    + rewrite wrap_small in Hlt, Hn'
        by (unfold unsigned_int_modulus, size_t_modulus in *; lia).
      split; rewrite ?Hm', ?Hn', ?Hf'; try done.
      * lia.
      * constructor.
      * intros x _ Hx. by apply elem_of_nil in Hx.
      * intros x [Hx | ->%list_elem_of_singleton]%elem_of_app;
          [specialize (Hlb x Hx)|]; lia.
      * intros x Hx. by apply elem_of_nil in Hx.
      * rewrite Hf in Hcount. rewrite vec_size_app. unfold vec_size in *.
        simpl in *. lia.
    + rewrite Hf in *. apply NoDup_app in Hfree as (Hfree' & Hnot & _).
      split; rewrite ?Hm', ?Hn'; try done.
      * intros x [Hx | ->%list_elem_of_singleton]%elem_of_app Hxf.
        -- apply (Hdisj x Hx). apply elem_of_app. by left.
        -- apply (Hnot _ Hxf). by apply list_elem_of_singleton.
      * intros x [Hx | ->%list_elem_of_singleton]%elem_of_app.
        -- by apply Hlb.
        -- apply Hfb. apply elem_of_app. right. by apply list_elem_of_singleton.
      * intros x Hx. apply Hfb. apply elem_of_app. by left.
      * rewrite !vec_size_app in *. lia.
  - destruct (DeleteEntity r e) as [r1|] eqn:Hd; simplify_eq/=.
    apply DeleteEntity_inv in Hd as (_ & _ & Hm' & Hn' & Hf' & _).
    split; rewrite ?Hm', ?Hn', ?Hf'; try done.
    + by apply NoDup_filter.
    + apply NoDup_app. split_and!; [done| |apply NoDup_singleton].
      intros x Hx ->%list_elem_of_singleton. by apply (Hdisj _ Hc).
    + intros x [Hne Hx]%list_elem_of_filter [Hxf | ->%list_elem_of_singleton]%elem_of_app.
      * by apply (Hdisj x Hx).
      * done.
    + intros x [_ Hx]%list_elem_of_filter. by apply Hlb.
    + intros x [Hx | ->%list_elem_of_singleton]%elem_of_app; [by apply Hfb|by apply Hlb].
    + pose proof (length_filter_ne e live Hlive Hc) as Hlen.
      rewrite vec_size_app. unfold vec_size in *. lia.
  - destruct (AddComponent r key e v) as [[x r1]|] eqn:Ha; simplify_eq/=.
    apply AddComponent_inv in Ha as (_ & pool' & _ & ->).
    rewrite app_nil_r. by split.
  - destruct (RemoveComponent r key e) as [[b r1]|] eqn:Hr; simplify_eq/=.
    rewrite app_nil_r.
    apply RemoveComponent_inv in Hr as [_ [(_ & _ & ->) | (? & ? & _ & _ & ->)]];
      by split.
Qed.

Lemma run_live_ok cs : ∀ r live ids r',
  live_ok r live → deletes_live r live cs → run r cs = Some (ids, r') →
  live_ok r' (live_after r live cs).
Proof.
  induction cs as [|c cs IH]; intros r live ids r' Hok Hdel Hrun; simpl in *.
  - by injection Hrun as <- <-.
  - destruct Hdel as [Hc Hdel].
    destruct (step r c) as [[ids1 r1]|] eqn:Hstep; simpl in Hrun; [|done].
    destruct (run r1 cs) as [[ids2 r2]|] eqn:Hrun1; simplify_eq/=.
    eapply (IH r1); [|done|done]. by eapply step_live_ok.
Qed.

(** *** The claims about entity creation and single components *)

(** Claim C1, as amended.  With an empty free list [CreateEntity]
    returns the high-water mark, and advances it, exactly when
    [nextEntity + 1 < maxEntities]; otherwise the assertion fails.  In a
    registry reached from a new one by calls in which [DeleteEntity] is
    only given live entities, an empty free list means that the live
    entities are as many as the high-water mark says: there
    [CreateEntity] returns exactly when fewer than [maxEntities - 1]
    entities are live, and the ID it returns is not that of a live
    entity.  So on a new registry of capacity [maxEntities] the first
    [maxEntities - 1] calls return 0, 1, ..., [maxEntities - 2], and the
    call after them fails. *)
Theorem create_entity_capacity (r : ECSInstance.t type_index T) (max : Z) :
  wf r → m_FreeEntities r = [] → 0 ≤ max < unsigned_int_modulus →
  (m_NextEntity r + 1 < m_MaxEntities r →
     ∃ r', CreateEntity r = Some (m_NextEntity r, r') ∧
           m_NextEntity r' = m_NextEntity r + 1 ∧
           m_FreeEntities r' = [] ∧
           m_ComponentPools r' = m_ComponentPools r) ∧
  (m_MaxEntities r ≤ m_NextEntity r + 1 → CreateEntity r = None) ∧
  (∀ cs ids live,
     run (new (m_MaxEntities r)) cs = Some (ids, r) →
     deletes_live (new (m_MaxEntities r)) [] cs →
     live = live_after (new (m_MaxEntities r) : ECSInstance.t type_index T) [] cs →
     NoDup live ∧
     vec_size live = m_NextEntity r ∧
     live_count r = vec_size live ∧
     (m_NextEntity r ∉ live) ∧
     (vec_size live < m_MaxEntities r - 1 ↔
        ∃ r', CreateEntity r = Some (m_NextEntity r, r')) ∧
     (m_MaxEntities r - 1 ≤ vec_size live ↔ CreateEntity r = None)) ∧
  ∃ r' : ECSInstance.t type_index T,
    create_n (new max) (Z.to_nat (max - 1)) = Some (seqZ 0 (max - 1), r') ∧
    CreateEntity r' = None.
Proof.
  intros Hwf Hfree Hmax. split_and!.
  - intros Hlt. rewrite CreateEntity_fresh by done. eexists. by split_and!.
  - intros Hge. by apply CreateEntity_full.
  - intros cs ids live Hrun Hdel ->.
    pose proof (run_live_ok cs (new (m_MaxEntities r)) [] ids r
                  (live_ok_new _ (wf_max _ Hwf)) Hdel Hrun) as Hok.
    pose proof (lo_count _ _ Hok) as Hcount. rewrite Hfree in Hcount.
    change (vec_size (A:=Z) []) with 0 in Hcount.
    split_and!.
    + apply (lo_live _ _ Hok).
    + lia.
    + unfold live_count. rewrite Hfree. change (vec_size (A:=Z) []) with 0. lia.
    + intros Hin. pose proof (lo_live_below _ _ Hok _ Hin). lia.
    + split.
      * intros Hlt. rewrite CreateEntity_fresh by (done || lia). by eexists.
      * intros [r' Hr']. destruct (decide (m_NextEntity r + 1 < m_MaxEntities r)); [lia|].
        rewrite CreateEntity_full in Hr' by (done || lia). done.
    + split.
      * intros Hge. apply CreateEntity_full; [done..|lia].
      * intros Hnone. destruct (decide (m_NextEntity r + 1 < m_MaxEntities r)); [|lia].
        rewrite CreateEntity_fresh in Hnone by done. done.
  - pose proof (registry_wf_new max Hmax) as Hnew.
    exists {| m_MaxEntities := max;
              m_NextEntity := Z.of_nat (Z.to_nat (max - 1));
              m_FreeEntities := [];
              m_ComponentPools := ∅ |}.
    split.
    + rewrite create_n_fresh; [|done|done|simpl; lia].
      simpl. f_equal. f_equal.
      unfold seqZ. by rewrite Nat2Z.id.
    + unfold CreateEntity, PECS_ASSERT. simpl.
      rewrite wrap_small by (unfold unsigned_int_modulus, size_t_modulus in *; lia).
      by rewrite decide_False by lia.
Qed.

(** [AddComponent] on an entity for which [HasComponent] is true
    returns the value that is stored, the one [GetComponent] returns,
    and leaves the registry as it was.  If the entity came to hold the
    component through an earlier [AddComponent], the value returned is
    the one that earlier call returned. *)
Lemma AddComponent_present (r : ECSInstance.t type_index T)
    (key : type_index) (e : Z) (v2 : T) :
  wf r → HasComponent r key e = Some true →
  ∃ x pool,
    TryGetPool r key = Some pool ∧
    GetComponent r key e = Some x ∧
    SparseSet.stored pool e x ∧
    SparseSet.Add pool e v2 = Some (x, pool) ∧
    AddComponent r key e v2 = Some (x, r) ∧
    ∀ r0 v1 x1, wf r0 → AddComponent r0 key e v1 = Some (x1, r) → x1 = x.
Proof.
  intros Hwf [He [[_ ?] | (pool & Hp & Hhas)]]%HasComponent_inv; [done|].
  destruct (wf_pools _ Hwf key pool Hp) as [Hpwf Hmax].
  pose proof Hhas as (He0 & i & Hi & Hb)%Has_inv.
  apply eq_sym, bool_decide_eq_true in Hb.
  destruct (SparseSet.wf_fwd _ Hpwf e i Hi Hb) as (d & Hd & Hde).
  assert (Hget : SparseSet.Get pool e = Some (SparseSet.data d)).
  { eapply Get_eq; [lia|done..]. }
  assert (Hadd : SparseSet.Add pool e v2 = Some (SparseSet.data d, pool)).
  { eapply Add_present; [lia|done..]. }
  exists (SparseSet.data d), pool. split_and!.
  - done.
  - unfold GetComponent, PECS_ASSERT. rewrite decide_True by done.
    rewrite Hp, Hhas. simpl. done.
  - by apply Get_inv in Hget as [_ ?].
  - done.
  - rewrite AddComponent_eq. unfold PECS_ASSERT. rewrite decide_True by done.
    unfold GetOrCreatePool. unfold TryGetPool in Hp. rewrite Hp. simpl.
    rewrite Hadd. simpl. by rewrite with_pool_same.
  - intros r0 v1 x1 Hwf0 (Hlt0 & pool' & Hadd0 & Hr)%AddComponent_inv.
    assert (pool' = pool) as ->.
    { unfold TryGetPool in Hp. rewrite Hr in Hp. simpl in Hp.
      rewrite lookup_insert_eq in Hp. by injection Hp. }
    destruct (GetOrCreatePool_wf r0 key Hwf0) as [Hpwf0 _].
    pose proof (Add_Get _ _ _ _ _ Hpwf0 (proj1 He0) Hadd0 Hhas) as Hget1.
    congruence.
Qed.

(** Claim C5, as amended.  When entity [e] below [maxEntities] does not
    hold a component of the type yet, and the pool of the type has fewer
    than [maxEntities - 1] dense entries, [AddComponent(e, v)] returns
    [v]; right after it [GetComponent(e)] returns [v] and
    [HasComponent(e)] is true; a [RemoveComponent(e)] that follows
    returns [true], and right after it [HasComponent(e)] is false. *)
Theorem component_round_trip (r : ECSInstance.t type_index T)
    (key : type_index) (e : Z) (v : T) :
  wf r → 0 ≤ e < m_MaxEntities r →
  HasComponent r key e = Some false →
  pool_size r key < m_MaxEntities r - 1 →
  ∃ r1 r2,
    AddComponent r key e v = Some (v, r1) ∧
    GetComponent r1 key e = Some v ∧
    HasComponent r1 key e = Some true ∧
    RemoveComponent r1 key e = Some (true, r2) ∧
    HasComponent r2 key e = Some false.
Proof.
  intros Hwf He Hhas Hsize.
  destruct (GetOrCreatePool_wf r key Hwf) as [Hpwf Hmax].
  pose proof (GetOrCreatePool_Has r key e false (proj1 He) Hhas) as Hphas.
  pose proof (GetOrCreatePool_size r key) as Hpsize.
  set (pool := (GetOrCreatePool r key).1) in *.
  pose proof (wf_modulus r Hwf) as Hmod.
  assert (Hsent : SparseSet.sentinel pool = m_MaxEntities r - 1).
  { rewrite <- Hmax. apply sentinel_pos. lia. }
  pose proof Hphas as (_ & i & Hi & Hb)%Has_inv.
  apply eq_sym, bool_decide_eq_false in Hb.
  assert (i = SparseSet.sentinel pool) as -> by (by destruct (decide (i = SparseSet.sentinel pool)); [|exfalso; auto]).
  assert (Hadd : SparseSet.Add pool e v = Some (v, SparseSet.added pool e v)).
  { apply Add_absent; [lia|done|]. unfold vec_size in *. lia. }
  assert (Hhas1 : SparseSet.Has (SparseSet.added pool e v) e = Some true).
  { apply added_Has; [done|lia|lia]. }
  assert (Hwf1 : SparseSet.wf (SparseSet.added pool e v)).
  { apply wf_added; [done|lia|unfold vec_size in *; lia]. }
  destruct (Remove_total (SparseSet.added pool e v) e) as [[b pool2] Hrem];
    [done|simpl; lia|].
  assert (b = true) as ->.
  { destruct (Remove_inv _ _ _ _ Hwf1 (proj1 He) Hrem) as [_ [(Hf & _) | (_ & -> & _)]];
      [congruence|done]. }
  exists (with_pool r key (SparseSet.added pool e v)),
         (with_pool r key pool2). split_and!.
  - rewrite AddComponent_eq. unfold PECS_ASSERT. rewrite decide_True by lia.
    fold pool. rewrite Hadd. done.
  - rewrite GetComponent_with_pool by (done || lia).
    apply added_Get; [done|lia|lia].
  - rewrite HasComponent_with_pool by lia. done.
  - unfold RemoveComponent, PECS_ASSERT. simpl. rewrite decide_True by lia.
    rewrite TryGetPool_with_pool. rewrite Hrem. simpl.
    by rewrite with_pool_twice.
  - rewrite HasComponent_with_pool by lia.
    eapply Remove_Has; [exact Hwf1|lia|exact Hrem].
Qed.

(** Claim C8.  [Remove] on an entity the pool does not have returns
    [false] and leaves the pool as it was.  [RemoveComponent] returns
    [false] when [HasComponent] is false, that is when the registry has
    no pool of the type or the pool does not have the entity, and leaves
    the registry as it was: no pool is created and nothing is changed. *)
Theorem remove_absent_noop (s : SparseSet.t T) (e : Z)
    (r : ECSInstance.t type_index T) (key : type_index) (e' : Z) :
  (SparseSet.Has s e = Some false → SparseSet.Remove s e = Some (false, s)) ∧
  (e' < m_MaxEntities r → TryGetPool r key = None →
     RemoveComponent r key e' = Some (false, r)) ∧
  (HasComponent r key e' = Some false →
     RemoveComponent r key e' = Some (false, r)).
Proof.
  split_and!.
  - apply Remove_absent.
  - intros He Hnone. unfold RemoveComponent, PECS_ASSERT.
    rewrite decide_True by done. by rewrite Hnone.
  - intros [He [[Hnone _] | (pool & Hp & Hhas)]]%HasComponent_inv;
      unfold RemoveComponent, PECS_ASSERT; rewrite decide_True by done.
    + by rewrite Hnone.
    + rewrite Hp. rewrite (Remove_absent pool e') by done. simpl.
      by rewrite with_pool_same.
Qed.

(** *** Deleting an entity *)

Lemma DeleteEntity_lookup r e r' key :
  DeleteEntity r e = Some r' →
  m_ComponentPools r' !! key =
    m_ComponentPools r !! key ≫= λ pool, snd <$> SparseSet.Remove pool e.
Proof.
  intros (_ & _ & _ & _ & _ & Hpools)%DeleteEntity_inv.
  by apply for_each_pool_inv in Hpools as [_ Hlook].
Qed.

Lemma DeleteEntity_pool r e r' key pool' :
  DeleteEntity r e = Some r' → m_ComponentPools r' !! key = Some pool' →
  ∃ pool b, m_ComponentPools r !! key = Some pool ∧
            SparseSet.Remove pool e = Some (b, pool').
Proof.
  intros Hdel Hp'. rewrite (DeleteEntity_lookup _ _ _ _ Hdel) in Hp'.
  destruct (m_ComponentPools r !! key) as [pool|]; simpl in Hp'; [|done].
  destruct (SparseSet.Remove pool e) as [[b p']|] eqn:Hrem; simplify_eq/=.
  eauto.
Qed.

Lemma DeleteEntity_Has r e r' key :
  wf r → 0 ≤ e → DeleteEntity r e = Some r' → HasComponent r' key e = Some false.
Proof.
  intros Hwf He Hdel. pose proof Hdel as (Hlt & _ & Hmax & _)%DeleteEntity_inv.
  unfold HasComponent, PECS_ASSERT, TryGetPool. rewrite decide_True by lia.
  destruct (m_ComponentPools r' !! key) as [pool'|] eqn:Hp'; [|done].
  destruct (DeleteEntity_pool _ _ _ _ _ Hdel Hp') as (pool & b & Hp & Hrem).
  destruct (wf_pools _ Hwf key pool Hp) as [Hpwf _]. by eapply Remove_Has.
Qed.

Lemma DeleteEntity_dom r e r' :
  DeleteEntity r e = Some r' → dom (m_ComponentPools r') = dom (m_ComponentPools r).
Proof.
  intros (_ & _ & _ & _ & _ & Hpools)%DeleteEntity_inv.
  by eapply for_each_pool_dom.
Qed.

(** *** Registries that were only given entity IDs below
    [maxEntities - 1] *)

Lemma step_pools_below_sentinel r c ids r' :
  wf r → pools_below_sentinel r → ids_below (m_MaxEntities r - 1) c →
  step r c = Some (ids, r') → pools_below_sentinel r'.
Proof.
  intros Hwf Hbs He Hstep. destruct c as [|e|key e v|key e]; simpl in *.
  - destruct (CreateEntity r) as [[id r1]|] eqn:Hc; simplify_eq/=.
    apply CreateEntity_inv in Hc as (_ & Hpools & _).
    unfold pools_below_sentinel. by rewrite Hpools.
  - destruct (DeleteEntity r e) as [r1|] eqn:Hd; simplify_eq/=.
    intros key pool' Hp'.
    destruct (DeleteEntity_pool _ _ _ _ _ Hd Hp') as (pool & b & Hp & Hrem).
    destruct (wf_pools _ Hwf key pool Hp) as [_ Hmax].
    apply (step_below_sentinel pool (SparseSet.CallRemove e)); simpl.
    + by eapply Hbs.
    + by rewrite Hmax.
    + by rewrite Hrem.
  - destruct (AddComponent r key e v) as [[x r1]|] eqn:Ha; simplify_eq/=.
    apply AddComponent_inv in Ha as (_ & pool' & Hadd & ->).
    destruct (GetOrCreatePool_wf r key Hwf) as [_ Hmax].
    intros key' pool Hp. simpl in Hp. rewrite lookup_insert in Hp. case_decide.
    + injection Hp as <-.
      apply (step_below_sentinel (GetOrCreatePool r key).1 (SparseSet.CallAdd e v)); simpl.
      * unfold GetOrCreatePool.
        destruct (m_ComponentPools r !! key) as [p|] eqn:Hpk; simpl.
        -- by eapply Hbs.
        -- apply below_sentinel_new. by apply wf_modulus.
      * by rewrite Hmax.
      * by rewrite Hadd.
    + by eapply Hbs.
  - destruct (RemoveComponent r key e) as [[b r1]|] eqn:Hr; simplify_eq/=.
    apply RemoveComponent_inv in Hr as [_ [(_ & _ & ->) | (pool & pool' & Hp & Hrem & ->)]];
      [done|].
    destruct (wf_pools _ Hwf key pool Hp) as [_ Hmax].
    intros key' p Hpk. simpl in Hpk. rewrite lookup_insert in Hpk. case_decide.
    + injection Hpk as <-.
      apply (step_below_sentinel pool (SparseSet.CallRemove e)); simpl.
      * by eapply Hbs.
      * by rewrite Hmax.
      * by rewrite Hrem.
    + by eapply Hbs.
Qed.

Lemma run_pools_below_sentinel cs : ∀ r ids r',
  wf r → pools_below_sentinel r → Forall (ids_below (m_MaxEntities r - 1)) cs →
  run r cs = Some (ids, r') → pools_below_sentinel r'.
Proof.
  induction cs as [|c cs IH]; intros r ids r' Hwf Hbs Hcs Hrun; simpl in Hrun.
  - by injection Hrun as <- <-.
  - apply Forall_cons_1 in Hcs as [Hc Hcs].
    destruct (step r c) as [[ids1 r1]|] eqn:Hstep; simpl in Hrun; [|done].
    destruct (run r1 cs) as [[ids2 r2]|] eqn:Hrun1; simplify_eq/=.
    pose proof (step_max_entities _ _ _ _ Hstep) as Hmax.
    eapply (IH r1); [| |by rewrite Hmax|done].
    + by eapply registry_step_wf.
    + by eapply step_pools_below_sentinel.
Qed.

(** Calls on components leave the entity bookkeeping alone. *)
Lemma component_run_keeps cs : ∀ r ids r',
  Forall is_component_call cs → run r cs = Some (ids, r') →
  ids = [] ∧ m_FreeEntities r' = m_FreeEntities r ∧
  m_NextEntity r' = m_NextEntity r ∧ m_MaxEntities r' = m_MaxEntities r.
Proof.
  induction cs as [|c cs IH]; intros r ids r' Hcs Hrun; simpl in Hrun.
  - by injection Hrun as <- <-.
  - apply Forall_cons_1 in Hcs as [Hc Hcs].
    destruct (step r c) as [[ids1 r1]|] eqn:Hstep; simpl in Hrun; [|done].
    destruct (run r1 cs) as [[ids2 r2]|] eqn:Hrun1; simplify_eq/=.
    destruct (IH _ _ _ Hcs Hrun1) as (-> & -> & -> & ->).
    destruct c as [|e|key e v|key e]; simpl in *; [done|done| |].
    + destruct (AddComponent r key e v) as [[x r1']|] eqn:Ha; simplify_eq/=.
      by apply AddComponent_inv in Ha as (_ & pool' & _ & ->).
    + destruct (RemoveComponent r key e) as [[b r1']|] eqn:Hr; simplify_eq/=.
      by apply RemoveComponent_inv in Hr as [_ [(_ & _ & ->) | (? & ? & _ & _ & ->)]].
Qed.

Lemma DeleteEntity_pools_below_sentinel r e r' :
  wf r → pools_below_sentinel r → 0 ≤ e → DeleteEntity r e = Some r' →
  pools_below_sentinel r'.
Proof.
  intros Hwf Hbs He Hdel key pool' Hp'.
  destruct (DeleteEntity_pool _ _ _ _ _ Hdel Hp') as (pool & b & Hp & Hrem).
  eapply Remove_below_sentinel; [by eapply Hbs|done|done].
Qed.

(** In a registry whose pools were only given IDs below
    [maxEntities - 1], an entity that has no component gets one only
    through an [AddComponent] on that entity: calls on the components
    of other entities, and [RemoveComponent] on the entity itself, leave
    it without. *)
Lemma component_step_keeps_absent r c ids r' e :
  wf r → pools_below_sentinel r → 0 ≤ e →
  (∀ key, HasComponent r key e = Some false) →
  is_component_call c → ids_below (m_MaxEntities r - 1) c → no_add_to e c →
  step r c = Some (ids, r') → ∀ key, HasComponent r' key e = Some false.
Proof.
  intros Hwf Hbs He Hnone Hcomp Hids Havoid Hstep key.
  pose proof (Hnone key) as Hkey. pose proof Hkey as [Hlt _]%HasComponent_inv.
  destruct c as [|e'|key' e' v|key' e']; simpl in *; [done|done| |].
  - destruct (AddComponent r key' e' v) as [[x r1]|] eqn:Ha; simplify_eq/=.
    apply AddComponent_inv in Ha as (_ & pool' & Hadd & ->).
    destruct (decide (key = key')) as [->|Hk].
    + rewrite HasComponent_with_pool by done.
      pose proof (GetOrCreatePool_Has r key' e false He Hkey) as Hpool.
      assert (Hpbs : SparseSet.below_sentinel (GetOrCreatePool r key').1).
      { unfold GetOrCreatePool.
        destruct (m_ComponentPools r !! key') as [p|] eqn:Hpk; simpl.
        - by eapply Hbs.
        - apply below_sentinel_new. by apply wf_modulus. }
      destruct Hpbs as [Hpwf Hpback Hproom _].
      eapply (step_other_Has _ (SparseSet.CallAdd e' v)); simpl;
        [done..|lia|done|by rewrite Hadd].
    + rewrite <- Hkey. unfold HasComponent, TryGetPool. simpl.
      by rewrite lookup_insert_ne.
  - destruct (RemoveComponent r key' e') as [[b r1]|] eqn:Hr; simplify_eq/=.
    destruct (decide (key = key')) as [->|Hk].
    + destruct (decide (e' = e)) as [->|Hne].
      { by eapply RemoveComponent_Has. }
      apply RemoveComponent_inv in Hr
        as [_ [(_ & _ & ->) | (pool & pool' & Hp & Hrem & ->)]]; [done|].
      rewrite HasComponent_with_pool by done.
      destruct (Hbs key' pool Hp) as [Hpwf Hpback Hproom _].
      assert (Hpool : SparseSet.Has pool e = Some false).
      { apply HasComponent_inv in Hkey as [_ [[Hn _] | (p & Hp' & Hh)]]; congruence. }
      eapply (step_other_Has _ (SparseSet.CallRemove e')); simpl;
        [done..|lia|done|by rewrite Hrem].
    + apply RemoveComponent_inv in Hr
        as [_ [(_ & _ & ->) | (pool & pool' & Hp & Hrem & ->)]]; [done|].
      rewrite <- Hkey. unfold HasComponent, TryGetPool. simpl.
      by rewrite lookup_insert_ne.
Qed.

Lemma component_run_keeps_absent cs : ∀ r ids r' e,
  wf r → pools_below_sentinel r → 0 ≤ e →
  (∀ key, HasComponent r key e = Some false) →
  Forall (λ c, is_component_call c ∧ ids_below (m_MaxEntities r - 1) c ∧
               no_add_to e c) cs →
  run r cs = Some (ids, r') → ∀ key, HasComponent r' key e = Some false.
Proof.
  induction cs as [|c cs IH]; intros r ids r' e Hwf Hbs He Hnone Hcs Hrun; simpl in Hrun.
  - by injection Hrun as <- <-.
  - apply Forall_cons_1 in Hcs as [(Hcomp & Hids & Havoid) Hcs].
    destruct (step r c) as [[ids1 r1]|] eqn:Hstep; simpl in Hrun; [|done].
    destruct (run r1 cs) as [[ids2 r2]|] eqn:Hrun1; simplify_eq/=.
    pose proof (step_max_entities _ _ _ _ Hstep) as Hmax.
    eapply (IH r1); [| |done| |by rewrite Hmax|done].
    + by eapply registry_step_wf.
    + by eapply step_pools_below_sentinel.
    + by eapply component_step_keeps_absent.
Qed.

(** *** The claims about deleting and recycling *)

(** X18: what [DeleteEntity] does to the components.
    [DeleteEntity(e)] with [e] below [maxEntities] returns (unless the
    free list is as long as a vector can be); after it [HasComponent(e)]
    is false for every component type, and the registry has the same
    pools as before: none is created.  No dense entry of [e] is left in
    a pool that was fully linked with room left, which is every pool of
    a registry that was only given entity IDs below [maxEntities - 1]. *)
Theorem cascade_delete (r : ECSInstance.t type_index T) (e : Z) :
  wf r → 0 ≤ e < m_MaxEntities r →
  vec_size (m_FreeEntities r) + 1 < size_t_modulus →
  ∃ r',
    DeleteEntity r e = Some r' ∧
    m_FreeEntities r' = m_FreeEntities r ++ [e] ∧
    dom (m_ComponentPools r') = dom (m_ComponentPools r) ∧
    (∀ key, HasComponent r' key e = Some false) ∧
    (∀ key pool pool' v,
       m_ComponentPools r !! key = Some pool →
       m_ComponentPools r' !! key = Some pool' →
       SparseSet.back_linked pool → SparseSet.has_room pool →
       ¬ SparseSet.stored pool' e v) ∧
    (∀ r0 cs ids,
       wf r0 → m_ComponentPools r0 = ∅ →
       Forall (ids_below (m_MaxEntities r0 - 1)) cs →
       run r0 cs = Some (ids, r) →
       ∀ key pool' v, m_ComponentPools r' !! key = Some pool' →
                      ¬ SparseSet.stored pool' e v).
Proof.
  intros Hwf He Hsz.
  destruct (DeleteEntity_total r e Hwf He Hsz) as [r' Hdel].
  assert (Hclean : ∀ key pool pool' v,
    m_ComponentPools r !! key = Some pool →
    m_ComponentPools r' !! key = Some pool' →
    SparseSet.back_linked pool → SparseSet.has_room pool →
    ¬ SparseSet.stored pool' e v).
  { intros key pool pool' v Hp Hp' Hback Hroom.
    destruct (DeleteEntity_pool _ _ _ _ _ Hdel Hp') as (pool0 & b & Hp0 & Hrem).
    assert (pool0 = pool) as -> by congruence.
    destruct (wf_pools _ Hwf key pool Hp) as [Hpwf _].
    eapply Remove_not_stored; [done..|lia|done]. }
  exists r'. split_and!.
  - done.
  - by apply DeleteEntity_inv in Hdel as (_ & _ & _ & _ & ? & _).
  - by apply DeleteEntity_dom in Hdel.
  - intros key. eapply DeleteEntity_Has; [done| |done]. lia.
  - done.
  - intros r0 cs ids Hwf0 Hempty Hcs Hrun key pool' v Hp'.
    destruct (DeleteEntity_pool _ _ _ _ _ Hdel Hp') as (pool & b & Hp & Hrem).
    assert (Hbs : SparseSet.below_sentinel pool).
    { eapply (run_pools_below_sentinel cs r0); [done| |done|done|done].
      intros k p Hk. by rewrite Hempty, lookup_empty in Hk. }
    eapply Hclean; [done|done|apply Hbs..].
Qed.

(** Claim C9, as amended.  Right after [DeleteEntity(e)], and also after
    any calls on components in between (no other [DeleteEntity], no
    [CreateEntity]), [CreateEntity] returns [e], the ID freed last; it
    leaves the pools alone and takes [e] off the free list again.  When
    [CreateEntity] follows at once, the entity it returns has no
    component: [HasComponent(e)] is false for every component type.  In
    a registry that was only given entity IDs below [maxEntities - 1]
    the same holds after calls on components in between, provided none
    of them is an [AddComponent] on [e] itself.  In particular, deleting
    entity 0 and then creating an entity returns 0. *)
Theorem lifo_recycling (r : ECSInstance.t type_index T) (e : Z) :
  wf r → 0 ≤ e < m_MaxEntities r →
  vec_size (m_FreeEntities r) + 1 < size_t_modulus →
  ∃ r1 r2,
    DeleteEntity r e = Some r1 ∧
    CreateEntity r1 = Some (e, r2) ∧
    m_FreeEntities r2 = m_FreeEntities r ∧
    m_NextEntity r2 = m_NextEntity r ∧
    m_ComponentPools r2 = m_ComponentPools r1 ∧
    (∀ key, HasComponent r2 key e = Some false) ∧
    (∀ cs ids r1',
       Forall is_component_call cs → run r1 cs = Some (ids, r1') →
       ∃ r2', CreateEntity r1' = Some (e, r2') ∧
              m_FreeEntities r2' = m_FreeEntities r ∧
              m_ComponentPools r2' = m_ComponentPools r1' ∧
              (pools_below_sentinel r →
               Forall (λ c, ids_below (m_MaxEntities r - 1) c ∧ no_add_to e c) cs →
               ∀ key, HasComponent r2' key e = Some false)).
Proof.
  intros Hwf He Hsz.
  destruct (DeleteEntity_total r e Hwf He Hsz) as [r1 Hdel].
  pose proof Hdel as (_ & _ & Hmax & Hnext & Hfree & _)%DeleteEntity_inv.
  eexists r1, _. split_and!.
  - done.
  - by apply (CreateEntity_recycle r1 (m_FreeEntities r)).
  - done.
  - done.
  - done.
  - intros key. pose proof (DeleteEntity_Has r e r1 key Hwf (proj1 He) Hdel) as Hhas.
    unfold HasComponent, TryGetPool in *. simpl. done.
  - intros cs ids r1' Hcs Hrun.
    destruct (component_run_keeps _ _ _ _ Hcs Hrun) as (_ & Hf & _ & _).
    eexists. split_and!;
      [apply (CreateEntity_recycle r1' (m_FreeEntities r)); congruence|done..|].
    intros Hbs Hcs' key.
    assert (Hhas : HasComponent r1' key e = Some false).
    { eapply (component_run_keeps_absent cs r1); [| |exact (proj1 He)| | |exact Hrun].
      - eapply (DeleteEntity_wf r e r1); [done|lia|done].
      - eapply (DeleteEntity_pools_below_sentinel r e r1); [done|done|lia|done].
      - intros key'. eapply (DeleteEntity_Has r e r1); [done|lia|done].
      - rewrite Hmax. apply Forall_forall. intros c Hin.
        pose proof (proj1 (Forall_forall _ _) Hcs c Hin).
        pose proof (proj1 (Forall_forall _ _) Hcs' c Hin) as [? ?]. done. }
    unfold HasComponent, TryGetPool in *. simpl. done.
Qed.

(** *** Which IDs are issued *)

Lemma step_ids_ok max r issued c ids r' :
  0 ≤ max < unsigned_int_modulus → ids_ok max r issued →
  match c with CallDeleteEntity e => e ∈ issued | _ => True end →
  step r c = Some (ids, r') →
  Forall (λ x, 0 ≤ x < max - 1) ids ∧ ids_ok max r' (issued ++ ids).
Proof.
  intros Hmax [Hm Hnext Hfree Hissued] Hc Hstep.
  destruct c as [|e|key e v|key e]; simpl in *.
  - destruct (CreateEntity r) as [[id r1]|] eqn:Hcr; simplify_eq/=.
    apply CreateEntity_inv in Hcr as (Hm' & _ & Hcase).
    assert (Hid : 0 ≤ id < m_MaxEntities r - 1 ∧
                  0 ≤ m_NextEntity r' ≤ m_MaxEntities r ∧
                  Forall (λ x, 0 ≤ x < m_MaxEntities r - 1) (m_FreeEntities r')).
    { destruct Hcase as [(_ & -> & Hlt & -> & ->) | (Hf & ->)].
      - rewrite wrap_small in *
          by (unfold unsigned_int_modulus, size_t_modulus in *; lia).
        split_and!; [lia..|done].
      - rewrite Hf in Hfree. apply Forall_app in Hfree as [Hfree' Hid].
        apply (proj1 (Forall_singleton _ _)) in Hid. simpl in Hid.
        split_and!; [lia..|done]. }
    destruct Hid as (Hid & Hnext' & Hfree').
    split; [by apply Forall_singleton|].
    split; [done..|]. apply Forall_app. split; [done|]. by apply Forall_singleton.
  - destruct (DeleteEntity r e) as [r1|] eqn:Hd; simplify_eq/=.
    apply DeleteEntity_inv in Hd as (_ & _ & Hm' & Hn' & Hf' & _).
    split; [done|]. rewrite app_nil_r.
    split; rewrite ?Hm', ?Hn', ?Hf'; [reflexivity|exact Hnext| |exact Hissued].
    apply Forall_app. split; [done|]. apply Forall_singleton.
    exact (proj1 (Forall_forall _ _) Hissued e Hc).
  - destruct (AddComponent r key e v) as [[x r1]|] eqn:Ha; simplify_eq/=.
    apply AddComponent_inv in Ha as (_ & pool' & _ & ->).
    split; [done|]. by rewrite app_nil_r.
  - destruct (RemoveComponent r key e) as [[b r1]|] eqn:Hr; simplify_eq/=.
    split; [done|]. rewrite app_nil_r.
    by apply RemoveComponent_inv in Hr as [_ [(_ & _ & ->) | (? & ? & _ & _ & ->)]].
Qed.

Lemma run_ids_ok max cs : ∀ r issued ids r',
  0 ≤ max < unsigned_int_modulus → ids_ok max r issued →
  deletes_issued r issued cs → run r cs = Some (ids, r') →
  Forall (λ x, 0 ≤ x < max - 1) ids.
Proof.
  induction cs as [|c cs IH]; intros r issued ids r' Hmax Hok Hdel Hrun; simpl in *.
  - by injection Hrun as <- <-.
  - destruct Hdel as [Hc Hdel].
    destruct (step r c) as [[ids1 r1]|] eqn:Hstep; simpl in Hrun; [|done].
    destruct (run r1 cs) as [[ids2 r2]|] eqn:Hrun1; simplify_eq/=.
    destruct (step_ids_ok max r issued c ids1 r1 Hmax Hok Hc Hstep) as [Hids1 Hok1].
    apply Forall_app. split; [done|]. by eapply (IH r1).
Qed.

(** No more distinct IDs than there are values to choose from. *)
Lemma distinct_count (bound : Z) (ids : list Z) :
  Forall (λ x, 0 ≤ x < bound) ids →
  Z.of_nat (length (remove_dups ids)) ≤ Z.max 0 bound.
Proof.
  intros Hids.
  assert (Hsub : remove_dups ids ⊆+ seqZ 0 bound).
  { apply NoDup_submseteq; [apply NoDup_remove_dups|].
    intros x Hx. apply (proj1 (elem_of_remove_dups _ _)) in Hx. apply elem_of_seqZ.
    pose proof (proj1 (Forall_forall _ _) Hids x Hx). simpl in *. lia. }
  apply submseteq_length in Hsub. rewrite length_seqZ in Hsub. lia.
Qed.

(** Claim C10, as amended.  In a run of calls on a new registry in which
    [DeleteEntity] is given only IDs that [CreateEntity] returned
    earlier, every ID that [CreateEntity] returns is below
    [maxEntities - 1].  So [maxEntities - 1] is never issued, at most
    [maxEntities - 1] distinct IDs are issued, and a pool of that
    capacity that is only given issued IDs never holds an entry at
    dense index [maxEntities - 1]: it stays fully linked with room, and
    [Has] sees every stored entity. *)
Theorem issued_ids_below_sentinel (max : Z) (cs : list (call type_index T))
    (ids : list Z) (r : ECSInstance.t type_index T) :
  0 ≤ max < unsigned_int_modulus →
  deletes_issued (new max) [] cs →
  run (new max) cs = Some (ids, r) →
  Forall (λ id, 0 ≤ id < max - 1) ids ∧
  (max - 1 ∉ ids) ∧
  Z.of_nat (length (remove_dups ids)) ≤ Z.max 0 (max - 1) ∧
  ∀ (pcs : list (SparseSet.call T)) (s : SparseSet.t T),
    Forall (λ c, SparseSet.call_entity c ∈ ids) pcs →
    SparseSet.run (SparseSet.new max) pcs = Some s →
    vec_at (SparseSet.m_DenseSet s) (max - 1) = None ∧
    SparseSet.linked s ∧ SparseSet.has_room s ∧
    ∀ e v, SparseSet.stored s e v → SparseSet.Has s e = Some true.
Proof.
  intros Hmax Hdel Hrun.
  assert (Hids : Forall (λ id, 0 ≤ id < max - 1) ids).
  { eapply (run_ids_ok max cs (new max) []); [done| |done|done].
    split; simpl; [done|lia|done|done]. }
  assert (Hmod : 0 ≤ max < size_t_modulus).
  { unfold unsigned_int_modulus, size_t_modulus in *. lia. }
  split_and!.
  - done.
  - intros Hin. pose proof (proj1 (Forall_forall _ _) Hids _ Hin). simpl in *. lia.
  - by apply distinct_count.
  - intros pcs s Hpcs Hprun.
    destruct (run_below_sentinel pcs (SparseSet.new max)) as (s' & Hprun' & Hbs).
    { by apply below_sentinel_new. }
    { simpl. apply Forall_forall. intros c Hc.
      pose proof (proj1 (Forall_forall _ _) Hpcs c Hc) as Hin. simpl in Hin.
      by apply (proj1 (Forall_forall _ _) Hids). }
    rewrite Hprun in Hprun'. injection Hprun' as <-.
    destruct Hbs as [Hwf Hback Hroom Hbelow].
    split_and!.
    + destruct (decide (max = 0)) as [->|Hne]; [done|].
      apply run_max in Hprun as Hcap. simpl in Hcap.
      unfold SparseSet.has_room in Hroom.
      rewrite sentinel_pos in Hroom by lia.
      unfold vec_at. rewrite decide_True by lia.
      apply lookup_ge_None. unfold vec_size in Hroom. lia.
    + split; [|done]. intros e i. apply (SparseSet.wf_fwd _ Hwf).
    + done.
    + intros e v. by apply stored_Has.
Qed.

End ECSInstanceFacts.

(** ** More about the pool: [Get], iteration, and what a call leaves alone *)

Section SparseSetMore.
Import SparseSet.
Context {T : Type}.
Implicit Types (s : SparseSet.t T) (e i : Z) (v : T) (d : DenseSetEntry T).

Lemma Get_total s e : wf s → Has s e = Some true → is_Some (Get s e).
Proof.
  intros Hwf Hhas. pose proof Hhas as (He & x & Hx & Hb)%Has_inv.
  apply eq_sym, bool_decide_eq_true in Hb.
  destruct (wf_fwd _ Hwf e x Hx Hb) as (d & Hd & _).
  rewrite (Get_eq s e x d); [done|lia|done..].
Qed.

Lemma Get_None s e : Has s e ≠ Some true → Get s e = None.
Proof.
  intros Hhas. unfold Get, PECS_ASSERT. case_decide; [|done].
  destruct (Has s e) as [[]|]; simpl; done.
Qed.

(** [Get] is decided by [Has] and by the dense entry the sparse slot
    names. *)
Lemma Get_unfold s e :
  Get s e = match Has s e with
            | Some true => i ← vec_at (m_SparseSet s) e;
                           d ← vec_at (m_DenseSet s) i; Some (data d)
            | _ => None
            end.
Proof.
  unfold Get, PECS_ASSERT.
  destruct (Has s e) as [[]|] eqn:Hhas; simpl.
  - apply Has_inv in Hhas as (He & _). by rewrite decide_True by lia.
  - by case_decide.
  - by case_decide.
Qed.

(** [Add] leaves what the pool answers about other entities as it was. *)
Lemma Add_frame s e v x s' e' :
  wf s → 0 ≤ e → 0 ≤ e' → e' ≠ e → Add s e v = Some (x, s') →
  Has s' e' = Has s e' ∧ Get s' e' = Get s e'.
Proof.
  intros Hwf He He' Hne Hadd.
  destruct (Add_inv _ _ _ _ _ Hwf He Hadd)
    as [Hlt [(_ & -> & _) | (_ & _ & -> & Hx & Hsz)]]; [done|].
  pose proof (wf_sparse _ Hwf) as Hsp.
  assert (Hsparse : vec_at (m_SparseSet (added s e v)) e' = vec_at (m_SparseSet s) e').
  { simpl. rewrite vec_at_insert by lia. by rewrite decide_False. }
  assert (Hhas : Has (added s e v) e' = Has s e').
  { unfold Has. by rewrite Hsparse. }
  split; [done|].
  rewrite !Get_unfold, Hhas, Hsparse.
  destruct (Has s e') as [[]|] eqn:Hh; [|done..].
  apply Has_inv in Hh as (_ & i & Hi & Hb).
  apply eq_sym, bool_decide_eq_true in Hb.
  destruct (wf_fwd _ Hwf e' i Hi Hb) as (d & Hd & _).
  rewrite Hi. simpl. rewrite Hd.
  apply vec_at_Some in Hd as [Hi0 Hd].
  assert (vec_at (m_DenseSet s ++ [Entry e v]) i = Some d) as ->; [|done].
  apply vec_at_Some. split; [done|]. by apply lookup_app_l_Some.
Qed.

(** On a fully linked pool with room, [Remove] leaves what the pool
    answers about other entities as it was. *)
Lemma Remove_frame s e b s' e' :
  wf s → back_linked s → has_room s → 0 ≤ e → 0 ≤ e' → e' ≠ e →
  Remove s e = Some (b, s') →
  Has s' e' = Has s e' ∧ Get s' e' = Get s e'.
Proof.
  intros Hwf Hback Hroom He He' Hne Hrem.
  pose proof (Remove_wf _ _ _ _ Hwf He Hrem) as Hwf'.
  pose proof (Remove_back_linked _ _ _ _ Hwf Hback He Hrem) as Hback'.
  pose proof (Remove_has_room _ _ _ _ Hwf Hroom He Hrem) as Hroom'.
  pose proof (Remove_max _ _ _ _ Hrem) as Hmax.
  destruct (Has s e') as [[]|] eqn:Hhas.
  - destruct (Get_total s e' Hwf Hhas) as [w Hget]. rewrite Hget.
    apply Get_inv in Hget as [_ Hst]; [|done].
    assert (Hst' : stored s' e' w).
    { destruct (Remove_inv _ _ _ _ Hwf He Hrem)
        as [Hlt [(_ & _ & ->) | (_ & _ & x & l & Hx & Hnx & Hl & ->)]]; [done|].
      apply stored_removed; done || lia. }
    pose proof (stored_Has s' e' w Hwf' Hback' Hroom' Hst') as Hhas'.
    split; [done|]. by apply Get_stored.
  - assert (Hhas' : Has s' e' = Some false).
    { eapply (step_other_Has s (CallRemove e)); simpl; [done..|by rewrite Hrem]. }
    split; [done|]. rewrite !Get_None; [done|congruence..].
  - assert (Hhas' : Has s' e' = None).
    { destruct (Has s' e') as [b'|] eqn:Hh; [|done].
      apply Has_inv in Hh as (Hr & _).
      destruct (Has_total s e' Hwf) as [b0 Hb0]; [lia|congruence]. }
    split; [done|]. rewrite !Get_None; [done|congruence..].
Qed.

(** X1: on every pool reached from the constructor by [Add] and [Remove]
    calls with entity IDs below the capacity, [Get(e)] returns exactly when
    [Has(e)] is true, and what it returns is the value of a dense entry
    that carries the entity [e]. *)
Theorem get_iff_has (c : Z) (cs : list (call T)) (s : SparseSet.t T) (e : Z) :
  0 ≤ c < size_t_modulus →
  Forall (λ call, 0 ≤ call_entity call < c) cs →
  run (new c) cs = Some s →
  (is_Some (Get s e) ↔ Has s e = Some true) ∧
  (∀ v, Get s e = Some v → Entry e v ∈ entries s).
Proof.
  intros Hc Hcs Hrun.
  assert (Hwf : wf s).
  { eapply run_wf; [by apply wf_new| |done].
    apply Forall_forall. intros call Hin.
    pose proof (proj1 (Forall_forall _ _) Hcs call Hin). simpl in *. lia. }
  split.
  - split.
    + intros [v Hget]. by apply Get_inv in Hget as [? _].
    + by apply Get_total.
  - intros v Hget. by apply Get_inv in Hget as [_ ?].
Qed.

(** X2: on every pool reached from the constructor by [Add] and [Remove]
    calls with entity IDs below the capacity, no call with an entity ID
    below the capacity reads or writes a vector out of range, also after
    entries were lost to the sentinel: [Has] and [Remove] return, [Get]
    returns when [Has] is true, and [Add] returns unless the dense vector
    has the largest size a vector can have. *)
Theorem pool_calls_in_range (c : Z) (cs : list (call T)) (s : SparseSet.t T) (e : Z) :
  0 ≤ c < size_t_modulus →
  Forall (λ call, 0 ≤ call_entity call < c) cs →
  run (new c) cs = Some s →
  0 ≤ e < c →
  m_MaxEntities s = c ∧
  vec_size (m_SparseSet s) = c ∧
  is_Some (Has s e) ∧
  is_Some (Remove s e) ∧
  (Has s e = Some true → is_Some (Get s e)) ∧
  (∀ v, vec_size (m_DenseSet s) + 1 < size_t_modulus → is_Some (Add s e v)).
Proof.
  intros Hc Hcs Hrun He.
  assert (Hwf : wf s).
  { eapply run_wf; [by apply wf_new| |done].
    apply Forall_forall. intros call Hin.
    pose proof (proj1 (Forall_forall _ _) Hcs call Hin). simpl in *. lia. }
  pose proof (run_max _ _ _ Hrun) as Hmax. simpl in Hmax.
  split_and!.
  - done.
  - rewrite <- Hmax. apply (wf_sparse _ Hwf).
  - apply Has_total; [done|lia].
  - apply Remove_total; [done|lia].
  - by apply Get_total.
  - intros v Hsz. apply Add_total; [done|lia|done].
Qed.

(** X3: a [for] loop over a pool that was only given entity IDs below
    [capacity - 1] visits every entity the pool has exactly once, with the
    value [Get] returns for it, and visits nothing else. *)
Theorem iteration_matches_get (c : Z) (cs : list (call T)) (s : SparseSet.t T) :
  0 ≤ c < size_t_modulus →
  Forall (λ call, 0 ≤ call_entity call < c - 1) cs →
  run (new c) cs = Some s →
  NoDup (entity <$> entries s) ∧
  (∀ e v, Entry e v ∈ entries s ↔ Get s e = Some v) ∧
  (∀ e, Has s e = Some true ↔ e ∈ entity <$> entries s).
Proof.
  intros Hc Hcs Hrun.
  destruct (run_below_sentinel cs (new c)) as (s' & Hrun' & Hbs);
    [by apply below_sentinel_new|done|].
  rewrite Hrun in Hrun'. injection Hrun' as <-.
  destruct Hbs as [Hwf Hback Hroom _].
  assert (Hiff : ∀ e v, Entry e v ∈ entries s ↔ Get s e = Some v).
  { intros e v. split.
    - intros Hst. apply Get_stored; [done..| |done]. by eapply stored_Has.
    - intros Hget. by apply Get_inv in Hget as [_ ?]. }
  split_and!.
  - by apply back_linked_NoDup.
  - done.
  - intros e. split.
    + intros Hhas. destruct (Get_total s e Hwf Hhas) as [v Hget].
      apply Hiff in Hget. apply list_elem_of_fmap. by exists (Entry e v).
    + intros (d & -> & Hd)%list_elem_of_fmap. destruct d as [e v].
      by eapply stored_Has.
Qed.
Lemma run_add_all (l : list (Z * T)) : ∀ s,
  below_sentinel s →
  (∀ p, p ∈ l → 0 ≤ p.1 < m_MaxEntities s - 1) →
  NoDup l.*1 →
  (∀ p d, p ∈ l → d ∈ m_DenseSet s → entity d ≠ p.1) →
  ∃ s', run s (add_all l) = Some s' ∧
        m_DenseSet s' = m_DenseSet s ++ ((λ p, Entry p.1 p.2) <$> l).
Proof.
  induction l as [|[e v] l IH]; intros s Hbs Hrange Hnd Hfresh; simpl.
  - exists s. by rewrite app_nil_r.
  - pose proof Hbs as [Hwf Hback Hroom Hids].
    assert (He : 0 ≤ e < m_MaxEntities s - 1).
    { apply (Hrange (e, v)). apply list_elem_of_here. }
    pose proof (wf_cap _ Hwf) as Hcap.
    pose proof (below_sentinel_count s Hbs) as Hcount.
    destruct (sparse_at s e Hwf) as [i Hi]; [lia|].
    assert (i = sentinel s) as ->.
    { destruct (decide (i = sentinel s)) as [|Hne]; [done|].
      destruct (wf_fwd _ Hwf e i Hi Hne) as (d & Hd & Hde).
      exfalso. apply (Hfresh (e, v) d); [apply list_elem_of_here| |done].
      by eapply vec_at_elem_of. }
    rewrite Add_absent by (done || lia). simpl.
    apply NoDup_cons in Hnd as [Hel Hnd]. simpl in Hel.
    destruct (IH (added s e v)) as (s' & Hrun & Hdense).
    + apply (step_below_sentinel s (CallAdd e v)); simpl; [done|done|].
      by rewrite Add_absent by (done || lia).
    + intros p Hp. simpl. apply Hrange. by apply list_elem_of_further.
    + done.
    + intros p d Hp [Hd | ->%list_elem_of_singleton]%elem_of_app.
      * apply (Hfresh p d); [by apply list_elem_of_further|done].
      * simpl. intros ->. apply Hel. apply list_elem_of_fmap. by exists p.
    + exists s'. split; [done|]. rewrite Hdense. simpl. by rewrite <- app_assoc.
Qed.

(** X15: as long as nothing is removed, a [for] loop over the pool walks
    the entities in the order in which they were added: after [Add]
    calls for distinct entities below [capacity - 1] on a new pool, the
    dense vector holds exactly these entities with their values, in the
    order of the calls. *)
Theorem insertion_order (c : Z) (l : list (Z * T)) :
  0 ≤ c < size_t_modulus →
  NoDup l.*1 →
  Forall (λ p, 0 ≤ p.1 < c - 1) l →
  ∃ s, run (new c) (add_all l) = Some s ∧
       entries s = (λ p, Entry p.1 p.2) <$> l.
Proof.
  intros Hc Hnd Hl.
  destruct (run_add_all l (new c)) as (s & Hrun & Hdense).
  - by apply below_sentinel_new.
  - intros p Hp. simpl. by apply (proj1 (Forall_forall _ _) Hl).
  - done.
  - intros p d _ Hd. by apply elem_of_nil in Hd.
  - exists s. split; [done|]. unfold entries. by rewrite Hdense.
Qed.
End SparseSetMore.

(** ** More about the registry: queries, iteration, what a call leaves
    alone, live entities *)

Section ECSInstanceMore.
Import ECSInstance.
Context `{Countable type_index} {T : Type}.
Implicit Types (r : ECSInstance.t type_index T) (key : type_index) (e : Z) (v : T).
Implicit Types (pool : SparseSet.t T).

(** The body of the loop in [DeleteEntity] is the wrapper's
    [RemoveEntity], whose result the loop drops. *)
Lemma DeleteEntity_loop_body pool e :
  snd <$> RemoveEntity pool e = snd <$> SparseSet.Remove pool e.
Proof. reflexivity. Qed.

Lemma HasComponent_total r key e :
  wf r → 0 ≤ e < m_MaxEntities r → is_Some (HasComponent r key e).
Proof.
  intros Hwf He. unfold HasComponent, PECS_ASSERT. rewrite decide_True by lia.
  destruct (TryGetPool r key) as [pool|] eqn:Hp; [|done].
  destruct (wf_pools _ Hwf key pool Hp) as [Hpwf Hmax].
  apply Has_total; [done|lia].
Qed.

(** [GetComponent] is [Get] on the pool, when there is one. *)
Lemma GetComponent_eq r key e :
  GetComponent r key e =
    PECS_ASSERT (e < m_MaxEntities r) (
      match TryGetPool r key with
      | Some pool => SparseSet.Get pool e
      | None => None
      end).
Proof.
  unfold GetComponent, PECS_ASSERT. case_decide; [|done].
  destruct (TryGetPool r key) as [pool|]; [|done].
  destruct (SparseSet.Has pool e) as [[]|] eqn:Hhas; simpl.
  - done.
  - symmetry. apply Get_None. congruence.
  - symmetry. apply Get_None. congruence.
Qed.

(** Both queries can be read off the pool [GetOrCreatePool] would hand
    out: a missing pool answers like an empty one. *)
Lemma HasComponent_pool r key e :
  0 ≤ e →
  HasComponent r key e =
    PECS_ASSERT (e < m_MaxEntities r) (SparseSet.Has (GetOrCreatePool r key).1 e).
Proof.
  intros He. unfold HasComponent, GetOrCreatePool, TryGetPool, PECS_ASSERT.
  case_decide; [|done].
  destruct (m_ComponentPools r !! key); simpl; [done|].
  rewrite Has_new; [done|lia].
Qed.

Lemma GetComponent_pool r key e :
  0 ≤ e →
  GetComponent r key e =
    PECS_ASSERT (e < m_MaxEntities r) (SparseSet.Get (GetOrCreatePool r key).1 e).
Proof.
  intros He. rewrite GetComponent_eq.
  unfold GetOrCreatePool, TryGetPool, PECS_ASSERT. case_decide; [|done].
  destruct (m_ComponentPools r !! key); simpl; [done|].
  symmetry. apply Get_None. rewrite Has_new; [done|lia].
Qed.

Lemma HasComponent_after r key pool e :
  HasComponent (with_pool r key pool) key e =
    PECS_ASSERT (e < m_MaxEntities r) (SparseSet.Has pool e).
Proof. unfold HasComponent. by rewrite TryGetPool_with_pool. Qed.

Lemma GetComponent_after r key pool e :
  GetComponent (with_pool r key pool) key e =
    PECS_ASSERT (e < m_MaxEntities r) (SparseSet.Get pool e).
Proof. rewrite GetComponent_eq. by rewrite TryGetPool_with_pool. Qed.

Lemma queries_other_key r key pool key' e :
  key' ≠ key →
  HasComponent (with_pool r key pool) key' e = HasComponent r key' e ∧
  GetComponent (with_pool r key pool) key' e = GetComponent r key' e.
Proof.
  intros Hne. unfold HasComponent, GetComponent, TryGetPool. simpl.
  by rewrite lookup_insert_ne.
Qed.

Lemma GetComponent_is_Some r key e :
  wf r → is_Some (GetComponent r key e) ↔ HasComponent r key e = Some true.
Proof.
  intros Hwf. rewrite GetComponent_eq. unfold HasComponent, PECS_ASSERT.
  case_decide; [|split; [by intros [? ?]|done]].
  destruct (TryGetPool r key) as [pool|] eqn:Hp; [|split; [by intros [? ?]|done]].
  destruct (wf_pools _ Hwf key pool Hp) as [Hpwf _]. split.
  - intros [v Hget]. by apply Get_inv in Hget as [? _].
  - by apply Get_total.
Qed.

(** X4: [GetComponent<T>(e)] returns exactly when [HasComponent<T>(e)] is
    true; it fails when the registry has no pool of the type; and what it
    returns is the value of an entry of entity [e] in the pool of the
    type. *)
Theorem get_component_iff_has (r : ECSInstance.t type_index T)
    (key : type_index) (e : Z) :
  wf r →
  (is_Some (GetComponent r key e) ↔ HasComponent r key e = Some true) ∧
  (TryGetPool r key = None → GetComponent r key e = None) ∧
  (∀ v, GetComponent r key e = Some v →
     ∃ pool, TryGetPool r key = Some pool ∧
             SparseSet.Entry e v ∈ SparseSet.entries pool).
Proof.
  intros Hwf. split; [by apply GetComponent_is_Some|].
  rewrite GetComponent_eq. unfold PECS_ASSERT. split.
  - intros ->. by case_decide.
  - intros v. case_decide; [|done].
    destruct (TryGetPool r key) as [pool|] eqn:Hp; [|done].
    destruct (wf_pools _ Hwf key pool Hp) as [Hpwf _].
    intros Hget. apply Get_inv in Hget as [_ Hst]; [|done]. by exists pool.
Qed.

(** X5: for an entity below [maxEntities], [HasComponents<Ts...>(e)]
    returns, and returns [true] exactly when [HasComponent<T>(e)] is true
    for every type of the list.  For the empty list it is [true] without
    any check of the entity; for a non-empty list and an entity that is
    not below [maxEntities] the assertion fails. *)
Theorem has_components_all (r : ECSInstance.t type_index T)
    (keys : list type_index) (e : Z) :
  wf r →
  (0 ≤ e < m_MaxEntities r →
   ∃ b, HasComponents r keys e = Some b ∧
        (b = true ↔ Forall (λ key, HasComponent r key e = Some true) keys)) ∧
  (keys = [] → HasComponents r keys e = Some true) ∧
  (keys ≠ [] → ¬ e < m_MaxEntities r → HasComponents r keys e = None).
Proof.
  intros Hwf. split_and!.
  - intros He. induction keys as [|key keys IH]; simpl.
    + exists true. split; [done|]. split; [by constructor|done].
    + destruct (HasComponent_total r key e Hwf He) as [[] Hh]; rewrite Hh; simpl.
      * destruct IH as (b & Hb & Hiff). exists b. split; [done|].
        rewrite Hiff. split.
        -- intros Hall. by constructor.
        -- intros Hall. by apply Forall_cons_1 in Hall as [_ ?].
      * exists false. split; [done|]. split; [done|].
        intros Hall. apply Forall_cons_1 in Hall as [Hk _]. congruence.
  - by intros ->.
  - intros Hne Hge. destruct keys as [|key keys]; [done|]. simpl.
    unfold HasComponent, PECS_ASSERT. by rewrite decide_False.
Qed.

(** X6: for an entity below [maxEntities], [GetComponents<Ts...>(e)]
    returns exactly when [HasComponents<Ts...>(e)] is true, and then it
    returns, type by type and in order, what [GetComponent<T>(e)]
    returns. *)
Theorem get_components_guarded (r : ECSInstance.t type_index T)
    (keys : list type_index) (e : Z) :
  wf r → 0 ≤ e < m_MaxEntities r →
  (is_Some (GetComponents r keys e) ↔ HasComponents r keys e = Some true) ∧
  (∀ vs, GetComponents r keys e = Some vs →
     Forall2 (λ key v, GetComponent r key e = Some v) keys vs).
Proof.
  intros Hwf He. split.
  - unfold GetComponents. rewrite mapM_is_Some.
    induction keys as [|key keys IH]; simpl.
    + split; [done|]. intros _. by constructor.
    + rewrite Forall_cons. simpl.
      pose proof (GetComponent_is_Some r key e Hwf) as Hiff.
      destruct (HasComponent_total r key e Hwf He) as [[] Hh]; rewrite Hh; simpl.
      * rewrite <- IH. split; [by intros [_ ?]|]. intros Hall. split; [|done].
        apply Hiff. done.
      * split; [|done]. intros [Hs _]. apply Hiff in Hs. congruence.
  - intros vs Hvs. by apply mapM_Some in Hvs.
Qed.
(** X7: [Iterate<T>()] hands out the pool of the type.  When the registry
    has it already nothing changes; when not, an empty pool of capacity
    [maxEntities] is created.  Either way [HasComponent] and
    [GetComponent] answer afterwards as before, for every type and every
    entity, and a second [Iterate<T>()] hands out the same pool and
    changes nothing. *)
Theorem iterate_spec (r : ECSInstance.t type_index T) (key : type_index) :
  wf r →
  wf (Iterate r key).2 ∧
  TryGetPool (Iterate r key).2 key = Some (Iterate r key).1 ∧
  (∀ pool, TryGetPool r key = Some pool → Iterate r key = (pool, r)) ∧
  (TryGetPool r key = None →
     SparseSet.entries (Iterate r key).1 = [] ∧
     SparseSet.m_MaxEntities (Iterate r key).1 = m_MaxEntities r) ∧
  (∀ key' e, 0 ≤ e →
     HasComponent (Iterate r key).2 key' e = HasComponent r key' e ∧
     GetComponent (Iterate r key).2 key' e = GetComponent r key' e) ∧
  Iterate (Iterate r key).2 key = Iterate r key.
Proof.
  intros Hwf. unfold Iterate, GetOrCreatePool, TryGetPool.
  destruct (m_ComponentPools r !! key) as [pool|] eqn:Hp; simpl.
  - rewrite Hp. split_and!; try done.
    intros pool' [= <-]. done.
  - rewrite lookup_insert_eq. split_and!; try done.
    + apply wf_with_pool; [done| |done]. apply wf_new. by apply wf_modulus.
    + intros key' e He. destruct (decide (key' = key)) as [->|Hne].
      * rewrite HasComponent_after, GetComponent_after.
        rewrite (HasComponent_pool r key e He), (GetComponent_pool r key e He).
        unfold GetOrCreatePool. by rewrite Hp.
      * by apply queries_other_key.
Qed.

(** X8: in a registry that was only given entity IDs below
    [maxEntities - 1], a [for] loop over [Iterate<T>()] visits every
    entity that has a component of the type exactly once, with the value
    [GetComponent<T>] returns for it, and visits nothing else. *)
Theorem registry_iteration (max : Z) (cs : list (call type_index T))
    (ids : list Z) (r : ECSInstance.t type_index T) (key : type_index) :
  0 ≤ max < unsigned_int_modulus →
  Forall (ids_below (max - 1)) cs →
  run (new max) cs = Some (ids, r) →
  NoDup (SparseSet.entity <$> SparseSet.entries (Iterate r key).1) ∧
  (∀ e v, SparseSet.Entry e v ∈ SparseSet.entries (Iterate r key).1 ↔
          GetComponent r key e = Some v) ∧
  (∀ e, 0 ≤ e →
        (HasComponent r key e = Some true ↔
         e ∈ SparseSet.entity <$> SparseSet.entries (Iterate r key).1)).
Proof.
  intros Hmax Hcs Hrun.
  pose proof (registry_wf_new (type_index:=type_index) (T:=T) max Hmax) as Hnew.
  assert (Hwf : wf r) by (eapply registry_run_wf; [exact Hnew|exact Hcs|exact Hrun]).
  assert (Hbs : pools_below_sentinel r).
  { eapply (run_pools_below_sentinel cs (new max)); [done| |done|done].
    intros k p Hk. simpl in Hk. by rewrite lookup_empty in Hk. }
  destruct (GetOrCreatePool_wf r key Hwf) as [Hpwf Hpmax].
  assert (Hpbs : SparseSet.below_sentinel (GetOrCreatePool r key).1).
  { unfold GetOrCreatePool.
    destruct (m_ComponentPools r !! key) as [p|] eqn:Hpk; simpl.
    - by eapply Hbs.
    - apply below_sentinel_new. by apply wf_modulus. }
  unfold Iterate. set (pool := (GetOrCreatePool r key).1) in *.
  destruct Hpbs as [_ Hback Hroom _].
  assert (Hiff : ∀ e v, SparseSet.Entry e v ∈ SparseSet.entries pool ↔
                        GetComponent r key e = Some v).
  { intros e v. split.
    - intros Hst.
      pose proof (SparseSet.wf_dense _ Hpwf _ Hst) as He. simpl in He.
      rewrite GetComponent_pool by lia. unfold PECS_ASSERT.
      rewrite decide_True by lia. fold pool.
      apply Get_stored; [done..| |done]. by eapply stored_Has.
    - intros Hget. pose proof Hget as Hget'.
      rewrite GetComponent_eq in Hget. unfold PECS_ASSERT in Hget.
      case_decide; [|done].
      destruct (TryGetPool r key) as [p|] eqn:Hp; [|done].
      assert (pool = p) as ->.
      { unfold pool, GetOrCreatePool. unfold TryGetPool in Hp. by rewrite Hp. }
      by apply Get_inv in Hget as [_ ?]. }
  split_and!.
  - by apply back_linked_NoDup.
  - done.
  - intros e He. rewrite <- GetComponent_is_Some by done. split.
    + intros [v Hget]. apply Hiff in Hget.
      apply list_elem_of_fmap. by exists (SparseSet.Entry e v).
    + intros (d & -> & Hd)%list_elem_of_fmap. destruct d as [e' v].
      exists v. by apply Hiff.
Qed.

(** X9: [AddComponent<T>(e, ...)] changes nothing that [HasComponent] and
    [GetComponent] answer about any other type or any other entity, and
    leaves the entity bookkeeping alone. *)
Theorem add_component_frame (r : ECSInstance.t type_index T) (key : type_index)
    (e : Z) (v x : T) (r' : ECSInstance.t type_index T) (key' : type_index) (e' : Z) :
  wf r → 0 ≤ e → 0 ≤ e' →
  AddComponent r key e v = Some (x, r') →
  key' ≠ key ∨ e' ≠ e →
  HasComponent r' key' e' = HasComponent r key' e' ∧
  GetComponent r' key' e' = GetComponent r key' e' ∧
  m_NextEntity r' = m_NextEntity r ∧
  m_FreeEntities r' = m_FreeEntities r ∧
  m_MaxEntities r' = m_MaxEntities r.
Proof.
  intros Hwf He He' (Hlt & pool' & Hadd & ->)%AddComponent_inv Hother.
  split_and!; [| |done..].
  - destruct (decide (key' = key)) as [->|Hk]; [|by apply queries_other_key].
    destruct Hother as [?|Hne]; [done|].
    destruct (GetOrCreatePool_wf r key Hwf) as [Hpwf _].
    rewrite HasComponent_after, (HasComponent_pool r key e' He').
    by destruct (Add_frame _ _ _ _ _ e' Hpwf He He' Hne Hadd) as [-> _].
  - destruct (decide (key' = key)) as [->|Hk]; [|by apply queries_other_key].
    destruct Hother as [?|Hne]; [done|].
    destruct (GetOrCreatePool_wf r key Hwf) as [Hpwf _].
    rewrite GetComponent_after, (GetComponent_pool r key e' He').
    by destruct (Add_frame _ _ _ _ _ e' Hpwf He He' Hne Hadd) as [_ ->].
Qed.

(** X10: in a registry whose pools were only given entity IDs below
    [maxEntities - 1], [RemoveComponent<T>(e)] changes nothing that
    [HasComponent] and [GetComponent] answer about any other type or any
    other entity, although it moves the last entry of the pool. *)
Theorem remove_component_frame (r : ECSInstance.t type_index T) (key : type_index)
    (e : Z) (b : bool) (r' : ECSInstance.t type_index T) (key' : type_index) (e' : Z) :
  wf r → pools_below_sentinel r → 0 ≤ e → 0 ≤ e' →
  RemoveComponent r key e = Some (b, r') →
  key' ≠ key ∨ e' ≠ e →
  HasComponent r' key' e' = HasComponent r key' e' ∧
  GetComponent r' key' e' = GetComponent r key' e'.
Proof.
  intros Hwf Hbs He He'
    [Hlt [(_ & _ & ->) | (pool & pool' & Hp & Hrem & ->)]]%RemoveComponent_inv Hother;
    [done|].
  destruct (decide (key' = key)) as [->|Hk]; [|by apply queries_other_key].
  destruct Hother as [?|Hne]; [done|].
  destruct (Hbs key pool Hp) as [Hpwf Hback Hroom _].
  destruct (Remove_frame _ _ _ _ e' Hpwf Hback Hroom He He' Hne Hrem) as [Hh Hg].
  rewrite HasComponent_after, GetComponent_after, Hh, Hg.
  rewrite GetComponent_eq. unfold HasComponent. by rewrite Hp.
Qed.
(** X11: in a run of calls on a new registry in which [DeleteEntity] is
    only given entities that are live at the time, no two live entities
    have the same ID: the live IDs are pairwise distinct, none of them is
    in the free list, the free list has no ID twice, the number of live
    entities is [nextEntity] minus the length of the free list, and the
    next [CreateEntity] returns an ID that is not live. *)
Theorem live_entities_distinct (max : Z) (cs : list (call type_index T))
    (ids : list Z) (r : ECSInstance.t type_index T) :
  0 ≤ max < unsigned_int_modulus →
  deletes_live (new max) [] cs →
  run (new max) cs = Some (ids, r) →
  NoDup (live_after (new max : ECSInstance.t type_index T) [] cs) ∧
  NoDup (m_FreeEntities r) ∧
  (∀ x, x ∈ live_after (new max : ECSInstance.t type_index T) [] cs →
        (x ∉ m_FreeEntities r) ∧ 0 ≤ x < m_NextEntity r) ∧
  live_count r = vec_size (live_after (new max : ECSInstance.t type_index T) [] cs) ∧
  (∀ id r', CreateEntity r = Some (id, r') →
            id ∉ live_after (new max : ECSInstance.t type_index T) [] cs).
Proof.
  intros Hmax Hdel Hrun.
  pose proof (run_live_ok cs (new max) [] ids r (live_ok_new max Hmax) Hdel Hrun) as Hok.
  split_and!.
  - apply (lo_live _ _ Hok).
  - apply (lo_free _ _ Hok).
  - intros x Hx. split; [by apply (lo_disjoint _ _ Hok)|by apply (lo_live_below _ _ Hok)].
  - unfold live_count. pose proof (lo_count _ _ Hok). lia.
  - intros id r' Hcr. by eapply CreateEntity_not_live.
Qed.

(** X12: [DeleteEntity] does not check that the entity is live: deleting
    the same ID twice puts it on the free list twice, and the next two
    [CreateEntity] calls both return it. *)
Theorem double_delete (r : ECSInstance.t type_index T) (e : Z) :
  wf r → 0 ≤ e < m_MaxEntities r →
  vec_size (m_FreeEntities r) + 2 < size_t_modulus →
  ∃ r1 r2 r3 r4,
    DeleteEntity r e = Some r1 ∧
    DeleteEntity r1 e = Some r2 ∧
    m_FreeEntities r2 = m_FreeEntities r ++ [e; e] ∧
    CreateEntity r2 = Some (e, r3) ∧
    CreateEntity r3 = Some (e, r4) ∧
    m_FreeEntities r4 = m_FreeEntities r ∧
    m_NextEntity r4 = m_NextEntity r.
Proof.
  intros Hwf He Hsz.
  destruct (DeleteEntity_total r e Hwf He) as [r1 Hd1]; [lia|].
  pose proof Hd1 as (_ & _ & Hm1 & Hn1 & Hf1 & _)%DeleteEntity_inv.
  assert (Hwf1 : wf r1) by (eapply (DeleteEntity_wf r e r1); [done|lia|done]).
  destruct (DeleteEntity_total r1 e Hwf1) as [r2 Hd2].
  { by rewrite Hm1. }
  { rewrite Hf1, vec_size_app. lia. }
  pose proof Hd2 as (_ & _ & Hm2 & Hn2 & Hf2 & _)%DeleteEntity_inv.
  assert (Hf2' : m_FreeEntities r2 = (m_FreeEntities r ++ [e]) ++ [e]) by by rewrite Hf2, Hf1.
  eexists r1, r2, _, _. split_and!.
  - done.
  - done.
  - by rewrite Hf2', <- app_assoc.
  - by apply CreateEntity_recycle.
  - by apply CreateEntity_recycle.
  - done.
  - simpl. congruence.
Qed.

(** *** Replacing a component *)

(** [AddComponent] on an entity without the component, in a pool with
    room below the sentinel index. *)
Lemma AddComponent_absent r key e v :
  wf r → 0 ≤ e < m_MaxEntities r →
  HasComponent r key e = Some false →
  pool_size r key < m_MaxEntities r - 1 →
  ∃ r1, AddComponent r key e v = Some (v, r1) ∧
        GetComponent r1 key e = Some v ∧
        HasComponent r1 key e = Some true.
Proof.
  intros Hwf He Hhas Hsize.
  destruct (GetOrCreatePool_wf r key Hwf) as [Hpwf Hmax].
  pose proof (GetOrCreatePool_Has r key e false (proj1 He) Hhas) as Hphas.
  pose proof (GetOrCreatePool_size r key) as Hpsize.
  set (pool := (GetOrCreatePool r key).1) in *.
  pose proof (wf_modulus r Hwf) as Hmod.
  assert (Hsent : SparseSet.sentinel pool = m_MaxEntities r - 1).
  { rewrite <- Hmax. apply sentinel_pos. lia. }
  pose proof Hphas as (_ & i & Hi & Hb)%Has_inv.
  apply eq_sym, bool_decide_eq_false in Hb.
  assert (i = SparseSet.sentinel pool) as ->
    by (by destruct (decide (i = SparseSet.sentinel pool)); [|exfalso; auto]).
  assert (Hadd : SparseSet.Add pool e v = Some (v, SparseSet.added pool e v)).
  { apply Add_absent; [lia|done|]. unfold vec_size in *. lia. }
  exists (with_pool r key (SparseSet.added pool e v)). split_and!.
  - rewrite AddComponent_eq. unfold PECS_ASSERT. rewrite decide_True by lia.
    fold pool. rewrite Hadd. done.
  - rewrite GetComponent_after. unfold PECS_ASSERT. rewrite decide_True by lia.
    apply added_Get; [done|lia|lia].
  - rewrite HasComponent_after. unfold PECS_ASSERT. rewrite decide_True by lia.
    apply added_Has; [done|lia|lia].
Qed.

(** X19: adding twice.  In a registry whose pools were only given entity
    IDs below [maxEntities - 1], [AddComponent<T>(e, v1)] on an entity
    [e] below [maxEntities - 1] returns; it returns [v1] when the entity
    had no [T], and changes nothing when it had one.  After it
    [HasComponent<T>(e)] is true, and a second [AddComponent<T>(e, v2)]
    returns the value the first call returned, the one
    [GetComponent<T>(e)] returns, and leaves the registry as the first
    call left it. *)
Theorem add_component_twice (r : ECSInstance.t type_index T) (key : type_index)
    (e : Z) (v1 v2 : T) :
  wf r → pools_below_sentinel r → 0 ≤ e < m_MaxEntities r - 1 →
  ∃ x r1,
    AddComponent r key e v1 = Some (x, r1) ∧
    (HasComponent r key e = Some false → x = v1) ∧
    (HasComponent r key e = Some true → r1 = r) ∧
    HasComponent r1 key e = Some true ∧
    GetComponent r1 key e = Some x ∧
    AddComponent r1 key e v2 = Some (x, r1).
Proof.
  intros Hwf Hbs He.
  assert (Hfirst : ∃ x r1,
    AddComponent r key e v1 = Some (x, r1) ∧
    (HasComponent r key e = Some false → x = v1) ∧
    (HasComponent r key e = Some true → r1 = r) ∧
    HasComponent r1 key e = Some true ∧ GetComponent r1 key e = Some x).
  { destruct (HasComponent_total r key e Hwf) as [[|] Hhas]; [lia| |].
    - destruct (AddComponent_present r key e v1 Hwf Hhas)
        as (x & pool & _ & Hget & _ & _ & Hadd & _).
      exists x, r. split_and!; [done|congruence|done..].
    - destruct (GetOrCreatePool_wf r key Hwf) as [Hpwf Hmax].
      pose proof (GetOrCreatePool_Has r key e false (proj1 He) Hhas) as Hphas.
      assert (Hpbs : SparseSet.below_sentinel (GetOrCreatePool r key).1).
      { unfold GetOrCreatePool.
        destruct (m_ComponentPools r !! key) as [p|] eqn:Hpk; simpl.
        - by eapply Hbs.
        - apply below_sentinel_new. by apply wf_modulus. }
      assert (Hsize : pool_size r key < m_MaxEntities r - 1).
      { rewrite <- GetOrCreatePool_size.
        set (pool := (GetOrCreatePool r key).1) in *.
        destruct (step_below_sentinel_total pool (SparseSet.CallAdd e v1) Hpbs)
          as [pool1 Hstep]; [simpl; lia|].
        pose proof (step_below_sentinel pool (SparseSet.CallAdd e v1) pool1 Hpbs) as Hbs1.
        simpl in Hstep, Hbs1.
        destruct (SparseSet.Add pool e v1) as [[x s1]|] eqn:Hadd; simplify_eq/=.
        destruct (Add_inv _ _ _ _ _ Hpwf (proj1 He) Hadd)
          as [_ [(Ht & _) | (_ & _ & -> & _)]]; [congruence|].
        destruct Hbs1 as [_ _ Hroom _]; [lia|done|].
        unfold SparseSet.has_room in Hroom.
        change (SparseSet.sentinel (SparseSet.added pool e v1))
          with (SparseSet.sentinel pool) in Hroom.
        pose proof (wf_modulus r Hwf) as Hmod.
        rewrite sentinel_pos in Hroom by lia. simpl in Hroom.
        rewrite vec_size_app in Hroom. lia. }
      assert (He' : 0 ≤ e < m_MaxEntities r) by lia.
      destruct (AddComponent_absent r key e v1 Hwf He' Hhas Hsize)
        as (r1 & Hadd & Hget & Hhas1).
      exists v1, r1. split_and!; [done|done|congruence|done|done]. }
  destruct Hfirst as (x & r1 & Hadd & Hx & Hr & Hhas1 & Hget).
  exists x, r1. split_and!; [done..|].
  assert (Hwf1 : wf r1) by (apply (AddComponent_wf r key e v1 x r1); [done|lia|done]).
  destruct (AddComponent_present r1 key e v2 Hwf1 Hhas1)
    as (x' & pool & _ & Hget' & _ & _ & Hadd' & _).
  congruence.
Qed.

(** X13: [AddComponent] never overwrites, but in a registry whose pools
    were only given entity IDs below [maxEntities - 1] a component can
    always be replaced by removing it and adding the new value:
    [RemoveComponent<T>(e)] returns [true], the [AddComponent<T>(e, v)]
    after it returns [v], and then [GetComponent<T>(e)] returns [v]. *)
Theorem replace_component (r : ECSInstance.t type_index T) (key : type_index)
    (e : Z) (v : T) :
  wf r → pools_below_sentinel r →
  HasComponent r key e = Some true →
  ∃ r1 r2,
    RemoveComponent r key e = Some (true, r1) ∧
    HasComponent r1 key e = Some false ∧
    AddComponent r1 key e v = Some (v, r2) ∧
    GetComponent r2 key e = Some v ∧
    HasComponent r2 key e = Some true.
Proof.
  intros Hwf Hbs [Hlt [[_ ?] | (pool & Hp & Hhas)]]%HasComponent_inv; [done|].
  destruct (Hbs key pool Hp) as [Hpwf Hback Hroom _].
  destruct (wf_pools _ Hwf key pool Hp) as [_ Hpmax].
  pose proof Hhas as (He & _)%Has_inv.
  destruct (Remove_total pool e Hpwf He) as [[b pool1] Hrem].
  destruct (Remove_inv _ _ _ _ Hpwf (proj1 He) Hrem)
    as [_ [(Hf & _) | (_ & -> & x & l & Hx & Hnx & Hl & ->)]]; [congruence|].
  set (r1 := with_pool r key (SparseSet.removed pool e x l)).
  assert (Hrc : RemoveComponent r key e = Some (true, r1)).
  { unfold RemoveComponent, PECS_ASSERT. rewrite decide_True by done.
    rewrite Hp, Hrem. done. }
  assert (Hwf1 : wf r1).
  { eapply (RemoveComponent_wf r key e true r1); [done|lia|done]. }
  assert (Hh1 : HasComponent r1 key e = Some false).
  { eapply (RemoveComponent_Has r key e true r1); [done|lia|done]. }
  destruct (AddComponent_absent r1 key e v) as (r2 & Hadd & Hget & Hh2).
  - done.
  - simpl. lia.
  - done.
  - unfold pool_size, r1. rewrite TryGetPool_with_pool.
    change (m_MaxEntities (with_pool r key (SparseSet.removed pool e x l)))
      with (m_MaxEntities r).
    rewrite (removed_size pool e x l) by (done || lia).
    unfold SparseSet.has_room in Hroom.
    pose proof (wf_modulus r Hwf) as Hmod.
    rewrite sentinel_pos in Hroom by lia. lia.
  - by exists r1, r2.
Qed.

(** *** Calls on a reachable registry stay in range *)

Lemma run_max_entities cs : ∀ r ids r',
  run r cs = Some (ids, r') → m_MaxEntities r' = m_MaxEntities r.
Proof.
  induction cs as [|c cs IH]; intros r ids r' Hrun; simpl in Hrun.
  - by injection Hrun as <- <-.
  - destruct (step r c) as [[ids1 r1]|] eqn:Hstep; simpl in Hrun; [|done].
    destruct (run r1 cs) as [[ids2 r2]|] eqn:Hrun1; simplify_eq/=.
    rewrite (IH _ _ _ Hrun1). by eapply step_max_entities.
Qed.

(** X14: in every registry reached from a new one, every pool has the
    capacity [maxEntities] of the registry, so that for an entity below
    [maxEntities] no assertion of a pool fails and no vector is read or
    written out of range: [HasComponent] and [RemoveComponent] return for
    every type, and [DeleteEntity] returns unless the free list has the
    largest size a vector can have. *)
Theorem registry_calls_in_range (max : Z) (cs : list (call type_index T))
    (ids : list Z) (r : ECSInstance.t type_index T) (key : type_index) (e : Z) :
  0 ≤ max < unsigned_int_modulus →
  Forall (ids_below size_t_modulus) cs →
  run (new max) cs = Some (ids, r) →
  0 ≤ e < max →
  m_MaxEntities r = max ∧
  0 ≤ m_NextEntity r ≤ max ∧
  (∀ key' pool, TryGetPool r key' = Some pool →
     SparseSet.m_MaxEntities pool = max ∧
     vec_size (SparseSet.m_SparseSet pool) = max) ∧
  is_Some (HasComponent r key e) ∧
  is_Some (RemoveComponent r key e) ∧
  (vec_size (m_FreeEntities r) + 1 < size_t_modulus → is_Some (DeleteEntity r e)).
Proof.
  intros Hmax Hcs Hrun He.
  pose proof (registry_wf_new (type_index:=type_index) (T:=T) max Hmax) as Hnew.
  assert (Hwf : wf r) by (eapply registry_run_wf; [exact Hnew|exact Hcs|exact Hrun]).
  pose proof (run_max_entities _ _ _ _ Hrun) as Hm. simpl in Hm.
  pose proof (wf_next _ Hwf) as Hnext.
  split; [done|]. split; [lia|]. split_and!.
  - intros key' pool Hp. destruct (wf_pools _ Hwf key' pool Hp) as [Hpwf Hpmax].
    split; [congruence|]. rewrite (SparseSet.wf_sparse _ Hpwf). congruence.
  - apply HasComponent_total; [done|lia].
  - unfold RemoveComponent, PECS_ASSERT. rewrite decide_True by lia.
    destruct (TryGetPool r key) as [pool|] eqn:Hp; [|done].
    destruct (wf_pools _ Hwf key pool Hp) as [Hpwf Hpmax].
    destruct (Remove_total pool e Hpwf) as [[b pool'] ->]; [lia|done].
  - intros Hsz. apply DeleteEntity_total; [done|lia|done].
Qed.
(** X16: in a registry whose pools were only given entity IDs below
    [maxEntities - 1], [DeleteEntity(e)] takes nothing from any other
    entity: [HasComponent] and [GetComponent] answer for every other
    entity and every type as before. *)
Theorem delete_entity_frame (r : ECSInstance.t type_index T) (e : Z)
    (r' : ECSInstance.t type_index T) (key : type_index) (e' : Z) :
  wf r → pools_below_sentinel r → 0 ≤ e → 0 ≤ e' → e' ≠ e →
  DeleteEntity r e = Some r' →
  HasComponent r' key e' = HasComponent r key e' ∧
  GetComponent r' key e' = GetComponent r key e'.
Proof.
  intros Hwf Hbs He He' Hne Hdel.
  pose proof Hdel as (_ & _ & Hmax & _)%DeleteEntity_inv.
  pose proof (DeleteEntity_lookup _ _ _ key Hdel) as Hlook.
  rewrite !GetComponent_eq. unfold HasComponent, TryGetPool. rewrite Hmax, Hlook.
  destruct (m_ComponentPools r !! key) as [pool|] eqn:Hp; simpl; [|done].
  destruct (Hbs key pool Hp) as [Hpwf Hback Hroom _].
  destruct (wf_pools _ Hwf key pool Hp) as [_ Hpmax].
  destruct (SparseSet.Remove pool e) as [[b pool']|] eqn:Hrem; simpl.
  - by destruct (Remove_frame _ _ _ _ e' Hpwf Hback Hroom He He' Hne Hrem) as [-> ->].
  - exfalso. pose proof Hdel as (Hlt & _)%DeleteEntity_inv.
    destruct (Remove_total pool e Hpwf) as [? ?]; [lia|congruence].
Qed.
End ECSInstanceMore.

(** ** Scenarios *)

Section Scenarios.
Import ECSInstance.

Lemma three_positions_run :
  run (new 4) three_positions = Some ([0; 1; 2], position_registry).
Proof. vm_compute. reflexivity. Qed.

Lemma three_adds_run : SparseSet.run (SparseSet.new 4) three_adds = Some position_pool.
Proof. vm_compute. reflexivity. Qed.

Lemma overfull_adds_run :
  SparseSet.run (SparseSet.new 2) overfull_adds = Some overfull_pool.
Proof. vm_compute. reflexivity. Qed.

Lemma full_registry_run :
  run (new 2) [CallAddComponent PositionKey 0 (1, 1);
               CallAddComponent PositionKey 1 (2, 2)] = Some ([], full_registry).
Proof. vm_compute. reflexivity. Qed.

Lemma position_pool_wf : SparseSet.wf position_pool.
Proof.
  eapply (run_wf three_adds (SparseSet.new 4)); [by apply wf_new| |apply three_adds_run].
  repeat constructor; simpl; lia.
Qed.

Lemma position_pool_back_linked : SparseSet.back_linked position_pool.
Proof.
  eapply (run_back_linked three_adds (SparseSet.new 4));
    [by apply wf_new| | | |apply three_adds_run].
  - intros i d Hd. done.
  - repeat constructor; simpl; lia.
  - vm_compute. by intros.
Qed.

Lemma position_registry_wf : wf position_registry.
Proof.
  eapply (registry_run_wf three_positions 4 (new 4));
    [by apply registry_wf_new| |apply three_positions_run].
  repeat constructor; simpl; lia.
Qed.

Lemma position_registry_below : pools_below_sentinel position_registry.
Proof.
  eapply (run_pools_below_sentinel three_positions (new 4));
    [by apply registry_wf_new| | |apply three_positions_run].
  - intros k p Hk. simpl in Hk. by rewrite lookup_empty in Hk.
  - repeat constructor; simpl; lia.
Qed.

(** The scenario of the specification: after [RemoveComponent<Position>(1)]
    entity 1 has no position and entity 2 still has [{3,3}]. *)
Lemma position_removed :
  RemoveComponent position_registry PositionKey 1
    = Some (true, position_registry_less_1) ∧
  HasComponent position_registry_less_1 PositionKey 1 = Some false ∧
  GetComponent position_registry_less_1 PositionKey 0 = Some (1, 1) ∧
  GetComponent position_registry_less_1 PositionKey 2 = Some (3, 3).
Proof.
  split_and!.
  - vm_compute. reflexivity.
  - vm_compute. reflexivity.
  - vm_compute. reflexivity.
  - vm_compute. reflexivity.
Qed.

(** Capacity 4: after two entities were created, the first deleted and
    its ID handed out again, two entities are live and a third can be
    created; on a new registry three entities can be created, the fourth
    call fails. *)
Lemma create_entity_capacity_witness :
  wf recycled_registry ∧
  m_FreeEntities recycled_registry = [] ∧
  run (new 4) recycle_calls = Some ([0; 1; 0], recycled_registry) ∧
  deletes_live (new 4 : ECSInstance.t positive Position) [] recycle_calls ∧
  live_after (new 4 : ECSInstance.t positive Position) [] recycle_calls = [1; 0] ∧
  (∃ r', CreateEntity recycled_registry = Some (2, r')) ∧
  ∃ r' : ECSInstance.t positive Position,
    create_n (new 4) 3 = Some ([0; 1; 2], r') ∧ CreateEntity r' = None.
Proof.
  assert (Hwf : wf recycled_registry).
  { split; simpl; [done|lia|]. intros key pool Hp. by rewrite lookup_empty in Hp. }
  assert (Hrun : run (new 4) recycle_calls = Some ([0; 1; 0], recycled_registry))
    by (vm_compute; reflexivity).
  assert (Hdel : deletes_live (new 4 : ECSInstance.t positive Position) [] recycle_calls).
  { vm_compute. repeat split. apply list_elem_of_here. }
  destruct (create_entity_capacity recycled_registry 4 Hwf eq_refl ltac:(done))
    as (_ & _ & Hlive & r' & Hfull & Hfail).
  destruct (Hlive recycle_calls [0; 1; 0] [1; 0] Hrun Hdel eq_refl)
    as (_ & _ & _ & _ & Hsome & _).
  split_and!; [exact Hwf|reflexivity|exact Hrun|exact Hdel|reflexivity| |].
  - apply Hsome. vm_compute. reflexivity.
  - exists r'. split; [exact Hfull|exact Hfail].
Defined.

(** Capacity 2: after one entity no more can be created, although the
    free list is empty and one live entity is fewer than two. *)
Lemma create_entity_capacity_counterexample :
  create_n (new 2) 1 = Some ([0], one_of_two) ∧
  m_FreeEntities one_of_two = [] ∧
  live_count one_of_two < m_MaxEntities one_of_two ∧
  CreateEntity one_of_two = None ∧
  create_n (new 2 : ECSInstance.t positive Position) 2 = None.
Proof.
  split_and!.
  - vm_compute. reflexivity.
  - reflexivity.
  - vm_compute. reflexivity.
  - vm_compute. reflexivity.
  - vm_compute. reflexivity.
Qed.

(** Capacity 3, with [DeleteEntity] given IDs that are not live: the
    free list is empty and two entities are live, as many as
    [maxEntities - 1], yet [CreateEntity] returns, and with the ID of a
    live entity. *)
Lemma stray_deletes_reissue :
  run (new 3) stray_deletes = Some ([0; 1], stray_registry) ∧
  ¬ deletes_live (new 3 : ECSInstance.t positive Position) [] stray_deletes ∧
  live_after (new 3 : ECSInstance.t positive Position) [] stray_deletes = [0; 1] ∧
  m_FreeEntities stray_registry = [] ∧
  CreateEntity stray_registry = Some (0, ECSInstance.Make 3 1 [] ∅).
Proof.
  split_and!.
  - vm_compute. reflexivity.
  - intros [Hin _]. by apply elem_of_nil in Hin.
  - reflexivity.
  - reflexivity.
  - vm_compute. reflexivity.
Qed.

(** Capacity 3: entities 0, 1, 2 are added; entity 2 is stored at dense
    index 2 and not seen. *)
Lemma sentinel_collision_witness :
  0 < 3 < size_t_modulus ∧
  ∃ (cs : list (SparseSet.call Position)) (e : Z) (s : SparseSet.t Position),
    Forall (λ call, SparseSet.is_add call ∧ 0 ≤ SparseSet.call_entity call < 3) cs ∧
    NoDup (SparseSet.call_entity <$> cs) ∧
    SparseSet.run (SparseSet.new 3) cs = Some s ∧
    vec_at (SparseSet.m_DenseSet s) (3 - 1) = Some (SparseSet.Entry e (1, 1)) ∧
    SparseSet.stored s e (1, 1) ∧
    vec_at (SparseSet.m_SparseSet s) e = Some (SparseSet.sentinel s) ∧
    SparseSet.Has s e = Some false.
Proof. split; [done|]. apply (sentinel_collision 3 (1, 1)). done. Defined.

Lemma linking_invariant_witness :
  SparseSet.run (SparseSet.new 4) three_adds = Some position_pool ∧
  SparseSet.fwd_linked position_pool ∧ SparseSet.back_linked position_pool.
Proof.
  split; [apply three_adds_run|].
  destruct (linking_invariant 4 three_adds position_pool) as (Hfwd & Hback & _).
  - done.
  - repeat constructor; simpl; lia.
  - apply three_adds_run.
  - split; [exact Hfwd|]. apply Hback. vm_compute. reflexivity.
Defined.

(** Claim C3.  The linking invariant does not hold in every pool
    reached by [Add] calls with entity IDs below the capacity.
    Capacity 2: after [Add(0)] and [Add(1)] the entry of entity 1 sits
    at dense index 1, which is also the value that marks a sparse slot
    as absent, so [Has(1)] is false; a second [Add(1)] therefore does
    not find the entry, appends another entry of entity 1 and points
    sparse slot 1 at it.  Dense index 1 then holds an entry of entity 1
    while sparse slot 1 holds 2: the pool is not linked, and entity 1
    has two entries. *)
Theorem sentinel_breaks_linking :
  Forall (λ call, 0 ≤ SparseSet.call_entity call < 2) overfull_adds ∧
  SparseSet.run (SparseSet.new 2) (take 2 overfull_adds) = Some full_pool ∧
  SparseSet.Has full_pool 1 = Some false ∧
  SparseSet.Add full_pool 1 (3, 3) = Some ((3, 3), overfull_pool) ∧
  SparseSet.run (SparseSet.new 2) overfull_adds = Some overfull_pool ∧
  vec_at (SparseSet.m_DenseSet overfull_pool) 1 = Some (SparseSet.Entry 1 (2, 2)) ∧
  vec_at (SparseSet.m_SparseSet overfull_pool) 1 = Some 2 ∧
  SparseSet.stored overfull_pool 1 (2, 2) ∧
  SparseSet.stored overfull_pool 1 (3, 3) ∧
  ¬ SparseSet.back_linked overfull_pool ∧
  ¬ SparseSet.linked overfull_pool.
Proof.
  assert (Hnot : ¬ SparseSet.back_linked overfull_pool).
  { intros Hback. specialize (Hback 1%nat (SparseSet.Entry 1 (2, 2)) eq_refl).
    vm_compute in Hback. done. }
  split_and!.
  - repeat constructor; simpl; lia.
  - vm_compute. reflexivity.
  - vm_compute. reflexivity.
  - vm_compute. reflexivity.
  - apply overfull_adds_run.
  - reflexivity.
  - reflexivity.
  - unfold SparseSet.stored, overfull_pool. simpl.
    apply list_elem_of_further, list_elem_of_here.
  - unfold SparseSet.stored, overfull_pool. simpl.
    do 2 apply list_elem_of_further. apply list_elem_of_here.
  - exact Hnot.
  - intros [_ Hback]. by apply Hnot.
Qed.

(** Claim C4.  A second [AddComponent] on the same entity does not
    always return the value of the first and leave the pool alone.
    Capacity 2: [AddComponent<Position>(1, {2,2})], after entity 0 was
    given a position, returns [{2,2}] and stores the entry of entity 1
    at dense index 1, the value that marks a sparse slot as absent;
    [HasComponent<Position>(1)] is false.  The second call,
    [AddComponent<Position>(1, {3,3})], constructs a new component from
    its arguments and returns [{3,3}]; the dense vector has grown and
    sparse slot 1 has changed. *)
Theorem sentinel_breaks_idempotence :
  AddComponent (new 2) PositionKey 0 (1, 1) = Some ((1, 1), first_of_two) ∧
  AddComponent first_of_two PositionKey 1 (2, 2) = Some ((2, 2), full_registry) ∧
  HasComponent full_registry PositionKey 1 = Some false ∧
  GetComponent full_registry PositionKey 1 = None ∧
  AddComponent full_registry PositionKey 1 (3, 3) = Some ((3, 3), overfull_registry) ∧
  (3, 3) ≠ ((2, 2) : Position) ∧
  SparseSet.m_DenseSet overfull_pool
    = SparseSet.m_DenseSet full_pool ++ [SparseSet.Entry 1 (3, 3)] ∧
  SparseSet.m_SparseSet full_pool = [0; 1] ∧
  SparseSet.m_SparseSet overfull_pool = [0; 2] ∧
  GetComponent overfull_registry PositionKey 1 = Some (3, 3).
Proof.
  split_and!.
  - vm_compute. reflexivity.
  - vm_compute. reflexivity.
  - vm_compute. reflexivity.
  - vm_compute. reflexivity.
  - vm_compute. reflexivity.
  - done.
  - reflexivity.
  - reflexivity.
  - reflexivity.
  - vm_compute. reflexivity.
Qed.

Lemma component_round_trip_witness :
  HasComponent empty_registry PositionKey 0 = Some false ∧
  ∃ r1 r2 : ECSInstance.t positive Position,
    AddComponent empty_registry PositionKey 0 (1, 1) = Some ((1, 1), r1) ∧
    GetComponent r1 PositionKey 0 = Some (1, 1) ∧
    HasComponent r1 PositionKey 0 = Some true ∧
    RemoveComponent r1 PositionKey 0 = Some (true, r2) ∧
    HasComponent r2 PositionKey 0 = Some false.
Proof.
  split; [reflexivity|].
  apply (component_round_trip empty_registry PositionKey 0 (1, 1)).
  - by apply registry_wf_new.
  - simpl. lia.
  - reflexivity.
  - vm_compute. reflexivity.
Defined.

(** Entity 0 already has the position [{1,1}]: adding [{9,9}] and reading
    back does not give [{9,9}]. *)
Lemma component_round_trip_counterexample :
  AddComponent position_registry PositionKey 0 (9, 9)
    = Some ((1, 1), position_registry) ∧
  GetComponent position_registry PositionKey 0 = Some (1, 1) ∧
  (1, 1) ≠ ((9, 9) : Position).
Proof. split_and!; [vm_compute; reflexivity..|done]. Qed.

(** The scenario of the specification: removing the position of entity 1
    moves the entry of entity 2 into dense slot 1. *)
Lemma removal_compaction_witness :
  SparseSet.Has position_pool 1 = Some true ∧
  SparseSet.Remove position_pool 1 =
    Some (true, SparseSet.Make 4 [0; 3; 1; 3]
                  [SparseSet.Entry 0 (1, 1); SparseSet.Entry 2 (3, 3)]).
Proof.
  split; [reflexivity|].
  destruct (removal_compaction position_pool 1)
    as (index & lastEntry & s' & _ & _ & Hrem & _);
    [apply position_pool_wf|apply position_pool_back_linked|reflexivity|].
  rewrite Hrem. vm_compute in Hrem. congruence.
Defined.

Lemma cascade_delete_witness :
  ∃ r' : ECSInstance.t positive Position,
    DeleteEntity position_registry 0 = Some r' ∧
    m_FreeEntities r' = [0] ∧
    ∀ key, HasComponent r' key 0 = Some false.
Proof.
  destruct (cascade_delete position_registry 0)
    as (r' & Hdel & Hfree & _ & Hhas & _);
    [apply position_registry_wf|simpl; lia|done|].
  exists r'. split_and!; [exact Hdel|exact Hfree|exact Hhas].
Defined.

(** Claim C7.  [DeleteEntity] does not always take the entity out of
    every pool.  Capacity 2: after [AddComponent<Position>(0, {1,1})]
    and [AddComponent<Position>(1, {2,2})] the entry of entity 1 sits at
    dense index 1, the value that marks a sparse slot as absent.  The
    [RemoveEntity(1)] of the loop in [DeleteEntity(1)] finds [Has(1)]
    false and returns [false] without touching the pool, so after
    [DeleteEntity(1)] the pair of entity 1 and [{2,2}] is still in the
    dense vector, where a loop over the pool visits it. *)
Theorem sentinel_breaks_cascade_delete :
  run (new 2) [CallAddComponent PositionKey 0 (1, 1);
               CallAddComponent PositionKey 1 (2, 2)] = Some ([], full_registry) ∧
  m_ComponentPools full_registry !! PositionKey = Some full_pool ∧
  SparseSet.stored full_pool 1 (2, 2) ∧
  RemoveEntity full_pool 1 = Some (false, full_pool) ∧
  DeleteEntity full_registry 1 = Some full_registry_deleted_1 ∧
  m_ComponentPools full_registry_deleted_1 !! PositionKey = Some full_pool ∧
  SparseSet.Entry 1 (2, 2) ∈ SparseSet.entries (Iterate full_registry_deleted_1 PositionKey).1.
Proof.
  split_and!.
  - vm_compute. reflexivity.
  - reflexivity.
  - unfold SparseSet.stored, full_pool. simpl.
    apply list_elem_of_further, list_elem_of_here.
  - vm_compute. reflexivity.
  - vm_compute. reflexivity.
  - reflexivity.
  - vm_compute. apply list_elem_of_further, list_elem_of_here.
Qed.

Lemma remove_absent_noop_witness :
  SparseSet.Has position_pool 3 = Some false ∧
  SparseSet.Remove position_pool 3 = Some (false, position_pool) ∧
  HasComponent position_registry PositionKey 3 = Some false ∧
  RemoveComponent position_registry PositionKey 3 = Some (false, position_registry) ∧
  RemoveComponent position_registry 2%positive 3 = Some (false, position_registry).
Proof.
  destruct (remove_absent_noop position_pool 3 position_registry PositionKey 3)
    as (Hpool & _ & Hreg).
  destruct (remove_absent_noop position_pool 3 position_registry 2%positive 3)
    as (_ & Hnone & _).
  split_and!.
  - reflexivity.
  - apply Hpool. reflexivity.
  - reflexivity.
  - apply Hreg. reflexivity.
  - apply Hnone; [simpl; lia|reflexivity].
Defined.

(** The scenario of the specification: delete entity 0, create again.
    Also with [RemoveComponent<Position>(0)] and
    [RemoveComponent<Position>(1)] in between. *)
Lemma lifo_recycling_witness :
  ∃ r2 r2' : ECSInstance.t positive Position,
    DeleteEntity position_registry 0 = Some position_registry_deleted_0 ∧
    CreateEntity position_registry_deleted_0 = Some (0, r2) ∧
    (∀ key, HasComponent r2 key 0 = Some false) ∧
    run position_registry_deleted_0 two_removes = Some ([], position_registry_only_2) ∧
    CreateEntity position_registry_only_2 = Some (0, r2') ∧
    (∀ key, HasComponent r2' key 0 = Some false).
Proof.
  destruct (lifo_recycling position_registry 0)
    as (r1 & r2 & Hdel & Hcreate & _ & _ & _ & Hhas & Hbetween);
    [apply position_registry_wf|simpl; lia|done|].
  assert (Hd : DeleteEntity position_registry 0 = Some position_registry_deleted_0)
    by (vm_compute; reflexivity).
  rewrite Hd in Hdel. injection Hdel as <-.
  assert (Hrun : run position_registry_deleted_0 two_removes
                 = Some ([], position_registry_only_2)) by (vm_compute; reflexivity).
  destruct (Hbetween two_removes [] position_registry_only_2) as (r2' & Hc' & _ & _ & Hh').
  - repeat constructor.
  - exact Hrun.
  - exists r2, r2'. split_and!; [exact Hd|exact Hcreate|exact Hhas|exact Hrun|exact Hc'|].
    apply Hh'; [apply position_registry_below|].
    repeat constructor; simpl; lia.
Defined.

(** Capacity 4: entity 0 is created and deleted, the deleted ID is given
    a position, and the next [CreateEntity], with no other
    [DeleteEntity] in between, returns 0: an entity with a component. *)
Lemma lifo_recycling_counterexample :
  run (new 4) revive_calls = Some ([0; 0], revived_registry) ∧
  HasComponent revived_registry PositionKey 0 = Some true ∧
  GetComponent revived_registry PositionKey 0 = Some (1, 1).
Proof. split_and!; vm_compute; reflexivity. Qed.

(** Capacity 3: entity 2 is stored at dense index 2, so [DeleteEntity(2)]
    leaves its entry where it is; [RemoveComponent<Position>(0)] then
    moves that entry to dense index 0, and the entity that the next
    [CreateEntity] returns, 2, has a position. *)
Lemma hidden_entry_resurfaces :
  run (new 3) resurface_calls = Some ([2], resurfaced_registry) ∧
  HasComponent resurfaced_registry PositionKey 2 = Some true.
Proof. split; vm_compute; reflexivity. Qed.

Lemma issued_ids_below_sentinel_witness :
  run (new 4) recycle_calls
    = Some ([0; 1; 0], ECSInstance.Make 4 2 [] ∅ : ECSInstance.t positive Position) ∧
  Forall (λ id, 0 ≤ id < 4 - 1) [0; 1; 0] ∧ (4 - 1 ∉ [0; 1; 0]).
Proof.
  assert (Hrun : run (new 4) recycle_calls
    = Some ([0; 1; 0], ECSInstance.Make 4 2 [] ∅ : ECSInstance.t positive Position))
    by (vm_compute; reflexivity).
  split; [exact Hrun|].
  destruct (issued_ids_below_sentinel 4 recycle_calls [0; 1; 0] _ ltac:(done)
              ltac:(vm_compute; repeat split; apply list_elem_of_here) Hrun)
    as (Hids & Hnot & _).
  split; [exact Hids|exact Hnot].
Defined.

(** Capacity 2: [DeleteEntity] accepts ID 1, which was never issued, and
    the next [CreateEntity] returns it. *)
Lemma issued_ids_below_sentinel_counterexample :
  run (new 2) [CallDeleteEntity 1; CallCreateEntity]
    = Some ([1], ECSInstance.Make 2 0 [] ∅ : ECSInstance.t positive Position) ∧
  ¬ (1 < 2 - 1).
Proof. split; [vm_compute; reflexivity|lia]. Qed.

(** *** Scenarios for the further properties *)

Lemma three_adds_in_range :
  Forall (λ call, 0 ≤ SparseSet.call_entity call < 4 - 1) three_adds.
Proof. repeat constructor; simpl; lia. Qed.

Lemma get_iff_has_witness :
  SparseSet.Has position_pool 1 = Some true ∧ is_Some (SparseSet.Get position_pool 1).
Proof.
  split; [reflexivity|].
  destruct (get_iff_has 4 three_adds position_pool 1) as [Hiff _].
  - done.
  - repeat constructor; simpl; lia.
  - apply three_adds_run.
  - apply Hiff. reflexivity.
Defined.

Lemma pool_calls_in_range_witness :
  is_Some (SparseSet.Has position_pool 3) ∧ is_Some (SparseSet.Remove position_pool 3).
Proof.
  destruct (pool_calls_in_range 4 three_adds position_pool 3) as (_ & _ & Hhas & Hrem & _).
  - done.
  - repeat constructor; simpl; lia.
  - apply three_adds_run.
  - lia.
  - split; [exact Hhas|exact Hrem].
Defined.

Lemma iteration_matches_get_witness :
  NoDup (SparseSet.entity <$> SparseSet.entries position_pool) ∧
  (SparseSet.Entry 2 (3, 3) ∈ SparseSet.entries position_pool ↔
   SparseSet.Get position_pool 2 = Some (3, 3)).
Proof.
  destruct (iteration_matches_get 4 three_adds position_pool) as (Hnd & Hiff & _).
  - done.
  - apply three_adds_in_range.
  - apply three_adds_run.
  - split; [exact Hnd|apply Hiff].
Defined.

Lemma insertion_order_witness :
  ∃ s, SparseSet.run (SparseSet.new 4) (SparseSet.add_all two_positions) = Some s ∧
       SparseSet.entries s = [SparseSet.Entry 2 (3, 3); SparseSet.Entry 0 (1, 1)].
Proof.
  apply (insertion_order 4 two_positions).
  - done.
  - apply NoDup_cons. split; [|apply NoDup_singleton].
    intros Hin. apply list_elem_of_singleton in Hin. done.
  - repeat constructor; simpl; lia.
Defined.

Lemma get_component_iff_has_witness :
  HasComponent position_registry PositionKey 0 = Some true ∧
  is_Some (GetComponent position_registry PositionKey 0) ∧
  GetComponent position_registry 2%positive 0 = None.
Proof.
  destruct (get_component_iff_has position_registry PositionKey 0 position_registry_wf)
    as (Hiff & _ & _).
  destruct (get_component_iff_has position_registry 2%positive 0 position_registry_wf)
    as (_ & Hnone & _).
  split_and!.
  - reflexivity.
  - apply Hiff. reflexivity.
  - apply Hnone. reflexivity.
Defined.

Lemma has_components_all_witness :
  ∃ b, HasComponents position_registry [PositionKey; 2%positive] 0 = Some b ∧
       (b = true ↔
        Forall (λ key, HasComponent position_registry key 0 = Some true)
          [PositionKey; 2%positive]).
Proof.
  destruct (has_components_all position_registry [PositionKey; 2%positive] 0
              position_registry_wf) as (Hin & _ & _).
  apply Hin. simpl. lia.
Defined.

Lemma get_components_guarded_witness :
  HasComponents position_registry [PositionKey; PositionKey] 2 = Some true ∧
  is_Some (GetComponents position_registry [PositionKey; PositionKey] 2).
Proof.
  split; [reflexivity|].
  destruct (get_components_guarded position_registry [PositionKey; PositionKey] 2)
    as [Hiff _].
  - apply position_registry_wf.
  - simpl. lia.
  - apply Hiff. reflexivity.
Defined.

Lemma iterate_spec_witness :
  wf (Iterate position_registry 2%positive).2 ∧
  SparseSet.entries (Iterate position_registry 2%positive).1 = [] ∧
  HasComponent (Iterate position_registry 2%positive).2 PositionKey 1
    = HasComponent position_registry PositionKey 1.
Proof.
  destruct (iterate_spec position_registry 2%positive position_registry_wf)
    as (Hwf & _ & _ & Hnew & Hsame & _).
  split_and!.
  - exact Hwf.
  - apply Hnew. reflexivity.
  - apply Hsame. lia.
Defined.

Lemma registry_iteration_witness :
  NoDup (SparseSet.entity <$> SparseSet.entries (Iterate position_registry PositionKey).1) ∧
  (SparseSet.Entry 1 (2, 2) ∈ SparseSet.entries (Iterate position_registry PositionKey).1 ↔
   GetComponent position_registry PositionKey 1 = Some (2, 2)).
Proof.
  destruct (registry_iteration 4 three_positions [0; 1; 2] position_registry PositionKey)
    as (Hnd & Hiff & _).
  - done.
  - repeat constructor; simpl; lia.
  - apply three_positions_run.
  - split; [exact Hnd|apply Hiff].
Defined.

Lemma add_component_frame_witness :
  AddComponent empty_registry PositionKey 0 (1, 1) = Some ((1, 1), one_position) ∧
  HasComponent one_position PositionKey 1 = HasComponent empty_registry PositionKey 1 ∧
  GetComponent one_position PositionKey 1 = GetComponent empty_registry PositionKey 1.
Proof.
  assert (Hadd : AddComponent empty_registry PositionKey 0 (1, 1)
                 = Some ((1, 1), one_position)) by (vm_compute; reflexivity).
  split; [exact Hadd|].
  destruct (add_component_frame empty_registry PositionKey 0 (1, 1) (1, 1)
              one_position PositionKey 1) as (Hh & Hg & _).
  - by apply registry_wf_new.
  - lia.
  - lia.
  - exact Hadd.
  - right. lia.
  - split; [exact Hh|exact Hg].
Defined.

Lemma remove_component_frame_witness :
  RemoveComponent position_registry PositionKey 1 = Some (true, position_registry_less_1) ∧
  HasComponent position_registry_less_1 PositionKey 2
    = HasComponent position_registry PositionKey 2 ∧
  GetComponent position_registry_less_1 PositionKey 2
    = GetComponent position_registry PositionKey 2.
Proof.
  assert (Hrem : RemoveComponent position_registry PositionKey 1
                 = Some (true, position_registry_less_1)) by (vm_compute; reflexivity).
  split; [exact Hrem|].
  apply (remove_component_frame position_registry PositionKey 1 true
           position_registry_less_1 PositionKey 2).
  - apply position_registry_wf.
  - apply position_registry_below.
  - lia.
  - lia.
  - exact Hrem.
  - right. lia.
Defined.

Lemma delete_entity_frame_witness :
  DeleteEntity position_registry 1 = Some position_registry_deleted_1 ∧
  HasComponent position_registry_deleted_1 PositionKey 2
    = HasComponent position_registry PositionKey 2 ∧
  GetComponent position_registry_deleted_1 PositionKey 2
    = GetComponent position_registry PositionKey 2.
Proof.
  assert (Hdel : DeleteEntity position_registry 1 = Some position_registry_deleted_1)
    by (vm_compute; reflexivity).
  split; [exact Hdel|].
  apply (delete_entity_frame position_registry 1 position_registry_deleted_1 PositionKey 2).
  - apply position_registry_wf.
  - apply position_registry_below.
  - lia.
  - lia.
  - lia.
  - exact Hdel.
Defined.

Lemma recycle_calls_run : run (new 4) recycle_calls = Some ([0; 1; 0], recycled_registry).
Proof. vm_compute. reflexivity. Qed.

Lemma live_entities_distinct_witness :
  NoDup (live_after (new 4) [] recycle_calls) ∧
  live_count recycled_registry = vec_size (live_after (new 4) [] recycle_calls).
Proof.
  destruct (live_entities_distinct 4 recycle_calls [0; 1; 0] recycled_registry)
    as (Hnd & _ & _ & Hcount & _).
  - done.
  - vm_compute. repeat split. apply list_elem_of_here.
  - apply recycle_calls_run.
  - split; [exact Hnd|exact Hcount].
Defined.

Lemma double_delete_witness :
  ∃ r1 r2 r3 r4 : ECSInstance.t positive Position,
    DeleteEntity position_registry 0 = Some r1 ∧
    DeleteEntity r1 0 = Some r2 ∧
    CreateEntity r2 = Some (0, r3) ∧
    CreateEntity r3 = Some (0, r4).
Proof.
  destruct (double_delete position_registry 0)
    as (r1 & r2 & r3 & r4 & H1 & H2 & _ & H3 & H4 & _).
  - apply position_registry_wf.
  - simpl. lia.
  - done.
  - exists r1, r2, r3, r4. split_and!; [exact H1|exact H2|exact H3|exact H4].
Defined.

Lemma replace_component_witness :
  HasComponent position_registry PositionKey 0 = Some true ∧
  ∃ r1 r2 : ECSInstance.t positive Position,
    RemoveComponent position_registry PositionKey 0 = Some (true, r1) ∧
    AddComponent r1 PositionKey 0 (9, 9) = Some ((9, 9), r2) ∧
    GetComponent r2 PositionKey 0 = Some (9, 9).
Proof.
  split; [reflexivity|].
  destruct (replace_component position_registry PositionKey 0 (9, 9))
    as (r1 & r2 & Hrem & _ & Hadd & Hget & _).
  - apply position_registry_wf.
  - apply position_registry_below.
  - reflexivity.
  - exists r1, r2. split_and!; [exact Hrem|exact Hadd|exact Hget].
Defined.

Lemma registry_calls_in_range_witness :
  is_Some (HasComponent position_registry PositionKey 3) ∧
  is_Some (RemoveComponent position_registry PositionKey 3) ∧
  is_Some (DeleteEntity position_registry 3).
Proof.
  destruct (registry_calls_in_range 4 three_positions [0; 1; 2] position_registry
              PositionKey 3) as (_ & _ & _ & Hh & Hr & Hd).
  - done.
  - repeat constructor; simpl; unfold size_t_modulus; lia.
  - apply three_positions_run.
  - lia.
  - split_and!; [exact Hh|exact Hr|apply Hd; done].
Defined.

(** Entity 0 of a new registry is given [{1,1}], then [{9,9}]: the
    second call returns [{1,1}] and changes nothing. *)
Lemma add_component_twice_witness :
  AddComponent empty_registry PositionKey 0 (1, 1) = Some ((1, 1), one_position) ∧
  AddComponent one_position PositionKey 0 (9, 9) = Some ((1, 1), one_position).
Proof.
  destruct (add_component_twice empty_registry PositionKey 0 (1, 1) (9, 9))
    as (x & r1 & Hadd & _ & _ & _ & _ & Hadd2).
  - by apply registry_wf_new.
  - intros k p Hk. simpl in Hk. by rewrite lookup_empty in Hk.
  - simpl. lia.
  - assert (Ha : AddComponent empty_registry PositionKey 0 (1, 1)
                 = Some ((1, 1), one_position)) by (vm_compute; reflexivity).
    rewrite Ha in Hadd. injection Hadd as <- <-.
    split; [exact Ha|exact Hadd2].
Defined.
End Scenarios.
